(** * ssa2: wrapper synthesis and instruction emission

    A shallow embedding of the method-set registry and the wrapper
    synthesizer of [promote.go] and of the instruction emitters of the
    emit helpers, together with the properties of the design document
    that concern them.

    Go pointers are modelled by indices into explicit stores: a
    [*Function] is an index into the program's list of functions, a
    register (the value of an instruction) is the position of the
    instruction in its block, a [*Const] carries the address it was
    allocated at.  A Go panic is the [Panic] outcome of the monad. *)

From Stdlib Require Import ZArith String List Bool Lia.
From stdpp Require Import base option list gmap strings pretty.

Set Default Proof Using "Type".

(** ** State and panic monad *)

Inductive result (A : Type) : Type :=
| Ok (a : A)
| Panic (msg : string).
Arguments Ok {A} a.
Arguments Panic {A} msg.

Definition M (S A : Type) : Type := S -> result (A * S).

Definition ret {S A} (a : A) : M S A := fun s => Ok (a, s).

Definition bind {S A B} (m : M S A) (k : A -> M S B) : M S B :=
  fun s => match m s with
           | Ok (a, s') => k a s'
           | Panic msg => Panic msg
           end.

Definition panic {S A} (msg : string) : M S A := fun _ => Panic msg.
Definition get {S} : M S S := fun s => Ok (s, s).
Definition put {S} (s : S) : M S unit := fun _ => Ok (tt, s).
Definition modify {S} (g : S -> S) : M S unit := fun s => Ok (tt, g s).

Declare Scope go_scope.
Delimit Scope go_scope with go.
Notation "x <- m ;; k" := (bind m (fun x => k))
  (at level 100, m at next level, right associativity) : go_scope.
Notation "m ;;; k" := (bind m (fun _ => k))
  (at level 100, right associativity) : go_scope.
Local Open Scope go_scope.

(** ** The front end: types, method objects, selections *)

Module types.

Inductive BasicKind : Set :=
| KBool | KInt | KInt8 | KInt16 | KInt32 | KInt64
| KUint | KUint8 | KUint16 | KUint32 | KUint64 | KUintptr
| KFloat32 | KFloat64 | KComplex64 | KComplex128 | KString
| KUnsafePointer
| KUntypedBool | KUntypedInt | KUntypedRune | KUntypedFloat
| KUntypedComplex | KUntypedString | KUntypedNil.

Definition BasicKind_eqb (a b : BasicKind) : bool :=
  match a, b with
  | KBool, KBool | KInt, KInt | KInt8, KInt8 | KInt16, KInt16
  | KInt32, KInt32 | KInt64, KInt64 | KUint, KUint | KUint8, KUint8
  | KUint16, KUint16 | KUint32, KUint32 | KUint64, KUint64
  | KUintptr, KUintptr | KFloat32, KFloat32 | KFloat64, KFloat64
  | KComplex64, KComplex64 | KComplex128, KComplex128
  | KString, KString | KUnsafePointer, KUnsafePointer
  | KUntypedBool, KUntypedBool | KUntypedInt, KUntypedInt
  | KUntypedRune, KUntypedRune | KUntypedFloat, KUntypedFloat
  | KUntypedComplex, KUntypedComplex | KUntypedString, KUntypedString
  | KUntypedNil, KUntypedNil => true
  | _, _ => false
  end.

(** The [Info()] flags of a basic type that the emitters test. *)
Definition IsBoolean (k : BasicKind) : bool :=
  match k with KBool | KUntypedBool => true | _ => false end.

Definition IsUnsigned (k : BasicKind) : bool :=
  match k with
  | KUint | KUint8 | KUint16 | KUint32 | KUint64 | KUintptr => true
  | _ => false
  end.

Definition IsUntyped (k : BasicKind) : bool :=
  match k with
  | KUntypedBool | KUntypedInt | KUntypedRune | KUntypedFloat
  | KUntypedComplex | KUntypedString | KUntypedNil => true
  | _ => false
  end.

(** A named type carries its name (its identity) and its underlying
    type; a struct its fields, a tuple its variables, a signature its
    receiver, parameters, results and variadic flag. *)
Inductive type : Type :=
| Basic (k : BasicKind)
| Named (name : string) (underlying : type)
| Pointer (elem : type)
| Slice (elem : type)
| Array (len : N) (elem : type)
| Map (key elem : type)
| Chan (elem : type)
| Struct (fields : list var)
| Tuple (vars : list var)
| Interface (methods : list string)
| Signature (recv : option var) (params results : list var)
            (variadic : bool)
with var : Type :=
| Var (name : string) (t : type).

Definition var_Name (v : var) : string := let 'Var n _ := v in n.
Definition var_Type (v : var) : type := let 'Var _ t := v in t.

Fixpoint Underlying (t : type) : type :=
  match t with
  | Named _ u => Underlying u
  | _ => t
  end.

(** [IsIdentical]: structural identity; two named types are identical
    when they are the same declared type, which is its name here. *)
Fixpoint IsIdentical (x y : type) {struct x} : bool :=
  let vars :=
    fix vars (l1 l2 : list var) {struct l1} : bool :=
      match l1, l2 with
      | [], [] => true
      | Var _ t1 :: l1', Var _ t2 :: l2' => IsIdentical t1 t2 && vars l1' l2'
      | _, _ => false
      end in
  let fields :=
    fix fields (l1 l2 : list var) {struct l1} : bool :=
      match l1, l2 with
      | [], [] => true
      | Var n1 t1 :: l1', Var n2 t2 :: l2' =>
          String.eqb n1 n2 && IsIdentical t1 t2 && fields l1' l2'
      | _, _ => false
      end in
  match x, y with
  | Basic a, Basic b => BasicKind_eqb a b
  | Named n _, Named m _ => String.eqb n m
  | Pointer a, Pointer b => IsIdentical a b
  | Slice a, Slice b => IsIdentical a b
  | Array n a, Array m b => N.eqb n m && IsIdentical a b
  | Map k a, Map l b => IsIdentical k l && IsIdentical a b
  | Chan a, Chan b => IsIdentical a b
  | Struct fs, Struct gs => fields fs gs
  | Tuple vs, Tuple ws => vars vs ws
  | Interface ms, Interface ns =>
      bool_decide (ms = ns)
  | Signature _ ps rs v, Signature _ qs ss w =>
      Bool.eqb v w && vars ps qs && vars rs ss
  | _, _ => false
  end.

(** A method object ([*types.Func]).  [addr] is the identity of the
    object: the registry's tables are keyed by it. *)
Record Func : Type := mkFunc {
  addr : nat;
  pkg : string;
  Name : string;
  recv : option var;
  Params : list var;
  Results : list var;
  IsVariadic : bool;
  Pos : nat
}.

(** [obj.Type()]: the signature of a method object. *)
Definition Func_Type (obj : Func) : type :=
  Signature (recv obj) (Params obj) (Results obj) (IsVariadic obj).

(** [types.Typ]: the predeclared basic types are singletons, so that
    comparing two of them by address is comparing their kinds. *)
Definition Typ (k : BasicKind) : type := Basic k.

Definition NewPointer (elem : type) : type := Pointer elem.
Definition NewSlice (elem : type) : type := Slice elem.

Definition IsExported (name : string) : bool :=
  match name with
  | String c _ =>
      let n := Ascii.nat_of_ascii c in (65 <=? n)%nat && (n <=? 90)%nat
  | EmptyString => false
  end.

(** [obj.Id()]: the name when it is exported, else the name
    qualified by the package path. *)
Definition Id (obj : Func) : string :=
  if IsExported (Name obj) then Name obj
  else (pkg obj +:+ "." +:+ Name obj)%string.

(** [obj.String()], as used in the descriptions of wrappers. *)
Definition Func_String (obj : Func) : string :=
  ("func " +:+ pkg obj +:+ "." +:+ Name obj)%string.

(** A selection [x.f] resolved to a method. *)
Record Selection : Type := mkSelection {
  Recv : type;
  Obj : Func;
  Index : list nat
}.

End types.

(** ** The IR: values, instructions, blocks, functions *)

Module token.
Inductive Token : Set :=
| ADD | SUB | MUL | QUO | REM
| AND | OR | XOR | SHL | SHR | AND_NOT
| LAND | LOR | ARROW | NOT
| EQL | LSS | GTR | NEQ | LEQ | GEQ.

Definition NoPos : nat := 0.

(** [tok.String()] of go/token: the operator as it is written. *)
Definition Token_String (tok : Token) : string :=
  match tok with
  | ADD => "+" | SUB => "-" | MUL => "*" | QUO => "/" | REM => "%"
  | AND => "&" | OR => "|" | XOR => "^" | SHL => "<<" | SHR => ">>"
  | AND_NOT => "&^"
  | LAND => "&&" | LOR => "||" | ARROW => "<-" | NOT => "!"
  | EQL => "==" | LSS => "<" | GTR => ">" | NEQ => "!="
  | LEQ => "<=" | GEQ => ">="
  end.
End token.

Module exact.
(** The abstract value of a literal constant. *)
Inductive Value : Set :=
| MakeBool (b : bool)
| MakeInt64 (z : Z)
| MakeString (s : string).
End exact.

(** A [Const]; [Value] is [None] for a nil constant. *)
Record Const : Type := mkConst {
  Const_Value : option exact.Value;
  Const_typ : types.type;
  Const_pos : nat;
  Const_endP : nat
}.

(** A [*Parameter] (the name is a keyword of Rocq). *)
Record Param : Type := mkParam {
  Param_name : string;
  Param_typ : types.type;
  Param_pos : nat;
  Param_object : option types.var
}.

Record Capture : Type := mkCapture {
  Capture_name : string;
  Capture_typ : types.type
}.

(** A (non-nil) [Value]: a parameter or a capture of the function under
    construction (by position), a constant (with the address of the
    [Const] object), a function (by its index in the program) or the
    register defined by the instruction at position [idx] of block
    [blk].  Each carries the type that [Type()] returns. *)
Inductive Value : Type :=
| VParameter (idx : nat) (p : Param)
| VCapture (idx : nat) (c : Capture)
| VConst (addr : nat) (c : Const)
| VFunction (fn : nat) (sig : types.type)
| VRegister (blk idx : nat) (typ : types.type).

Definition Value_Type (v : Value) : types.type :=
  match v with
  | VParameter _ p => Param_typ p
  | VCapture _ c => Capture_typ c
  | VConst _ c => Const_typ c
  | VFunction _ sig => sig
  | VRegister _ _ t => t
  end.

(** [x == y] on two Values: the same object. *)
Definition Value_same (x y : Value) : bool :=
  match x, y with
  | VParameter i _, VParameter j _ => Nat.eqb i j
  | VCapture i _, VCapture j _ => Nat.eqb i j
  | VConst a _, VConst b _ => Nat.eqb a b
  | VFunction f _, VFunction g _ => Nat.eqb f g
  | VRegister b i _, VRegister c j _ => Nat.eqb b c && Nat.eqb i j
  | _, _ => false
  end.

(** [CallCommon]: [Method] is set for an abstract ("invoke") call, whose
    receiver is then [Value]; otherwise [Value] is the callee. *)
Record CallCommon : Type := mkCallCommon {
  Call_Value : option Value;
  Call_Method : option types.Func;
  Call_Args : list Value
}.

Inductive Instruction : Type :=
| Alloc (Heap : bool) (Comment : string) (typ : types.type)
| UnOp (Op : token.Token) (X : Value) (typ : types.type)
| BinOp (Op : token.Token) (X Y : Value) (pos : nat) (typ : types.type)
| ChangeType (X : Value) (typ : types.type)
| ChangeInterface (X : Value) (typ : types.type)
| MakeInterface (X : Value) (typ : types.type)
| Convert (X : Value) (typ : types.type)
| FieldAddr (X : Value) (Field : nat) (typ : types.type)
| Field (X : Value) (Field : nat) (typ : types.type)
| Call (c : CallCommon) (typ : types.type)
| Extract (Tuple : Value) (Index : nat) (typ : types.type)
| Store (Addr Val : Value)
| Return (Results : list Value)
| Jump
| If (Cond : Value).

(** The type of the register an instruction defines, if it is a Value. *)
Definition Instruction_Type (i : Instruction) : option types.type :=
  match i with
  | Alloc _ _ t | UnOp _ _ t | BinOp _ _ _ _ t | ChangeType _ t
  | ChangeInterface _ t | MakeInterface _ t | Convert _ t
  | FieldAddr _ _ t | Field _ _ t | Call _ t | Extract _ _ t => Some t
  | Store _ _ | Return _ | Jump | If _ => None
  end.

Record BasicBlock : Type := mkBasicBlock {
  Comment : string;
  Instrs : list Instruction;
  Preds : list nat;
  Succs : list nat
}.

Record Signature : Type := mkSignature {
  Sig_Recv : option types.var;
  Sig_Params : list types.var;
  Sig_Results : list types.var;
  Sig_IsVariadic : bool
}.

(** [types.NewSignature(nil, recv, params, results, variadic)] *)
Definition NewSignature (recv : option types.var)
    (params results : list types.var) (variadic : bool) : Signature :=
  mkSignature recv params results variadic.

(** [obj.Type()] asserted to be a signature. *)
Definition Func_Signature (obj : types.Func) : Signature :=
  mkSignature (types.recv obj) (types.Params obj) (types.Results obj)
              (types.IsVariadic obj).

(** A [Function] under construction or finished.  [currentBlock] is the
    index in [Blocks] of the block open for appending.  [needRTTI] is the
    package's record of the types whose method sets are required and
    [heap] the last address given to a [Const]. *)
Record Function : Type := mkFunction {
  name : string;
  object : option types.Func;
  method : option types.Selection;
  Fn_Signature : Signature;
  Synthetic : string;
  pos : nat;
  Params : list Param;
  FreeVars : list Capture;
  Locals : list Value;
  Blocks : list BasicBlock;
  currentBlock : option nat;
  needRTTI : list types.type;
  heap : nat
}.

Definition set_Params (ps : list Param) (f : Function) : Function :=
  mkFunction (name f) (object f) (method f) (Fn_Signature f) (Synthetic f)
    (pos f) ps (FreeVars f) (Locals f) (Blocks f) (currentBlock f)
    (needRTTI f) (heap f).

Definition set_Locals (ls : list Value) (f : Function) : Function :=
  mkFunction (name f) (object f) (method f) (Fn_Signature f) (Synthetic f)
    (pos f) (Params f) (FreeVars f) ls (Blocks f) (currentBlock f)
    (needRTTI f) (heap f).

Definition set_Blocks (bs : list BasicBlock) (f : Function) : Function :=
  mkFunction (name f) (object f) (method f) (Fn_Signature f) (Synthetic f)
    (pos f) (Params f) (FreeVars f) (Locals f) bs (currentBlock f)
    (needRTTI f) (heap f).

Definition set_currentBlock (b : option nat) (f : Function) : Function :=
  mkFunction (name f) (object f) (method f) (Fn_Signature f) (Synthetic f)
    (pos f) (Params f) (FreeVars f) (Locals f) (Blocks f) b
    (needRTTI f) (heap f).

Definition set_needRTTI (ts : list types.type) (f : Function) : Function :=
  mkFunction (name f) (object f) (method f) (Fn_Signature f) (Synthetic f)
    (pos f) (Params f) (FreeVars f) (Locals f) (Blocks f) (currentBlock f)
    ts (heap f).

Definition set_heap (h : nat) (f : Function) : Function :=
  mkFunction (name f) (object f) (method f) (Fn_Signature f) (Synthetic f)
    (pos f) (Params f) (FreeVars f) (Locals f) (Blocks f) (currentBlock f)
    (needRTTI f) h.

Definition BasicBlock_emit (i : Instruction) (b : BasicBlock) : BasicBlock :=
  mkBasicBlock (Comment b) (Instrs b ++ [i]) (Preds b) (Succs b).

(** ** Instruction emission *)

Definition lift {S A} (r : result A) : M S A :=
  fun s => match r with Ok a => Ok (a, s) | Panic msg => Panic msg end.

(** Modelled from the spec: util.go, which declares [isPointer] and
    [deref], is not among the sources.  A type is a pointer when its
    underlying type is one ("pointer-typed"), and [deref] is its pointee
    type ("result type = pointee type"), the type itself otherwise. *)
Definition isPointer (typ : types.type) : bool :=
  match types.Underlying typ with
  | types.Pointer _ => true
  | _ => false
  end.

(** Modelled from the spec: [deref] of util.go is not among the sources;
    a load has "result type = pointee type": the pointee of a pointer
    type, and the type itself when it is not a pointer. *)
Definition deref (typ : types.type) : types.type :=
  match types.Underlying typ with
  | types.Pointer elem => elem
  | _ => typ
  end.

(** Modelled from the spec: the declarations of [tBool] and
    [tUntypedNil] are not among the sources; the "boolean" result type of
    a comparison and the type of an "untyped-nil source". *)
Definition tBool : types.type := types.Typ types.KBool.
Definition tUntypedNil : types.type := types.Typ types.KUntypedNil.

(** Modelled from the spec: const.go is not among the sources.
    [NewConst] allocates a new constant object of the given abstract
    value and type; [vTrue] is "the shared boolean-true constant",
    allocated once, at address 0, which [NewConst] never returns. *)
Definition NewConst (val : option exact.Value) (typ : types.type)
    (pos endP : nat) : M Function Value :=
  fun f => let a := S (heap f) in
           Ok (VConst a (mkConst val typ pos endP), set_heap a f).

(** Modelled from the spec: [nilConst] of const.go is not among the
    sources; "a nil constant of the target interface type". *)
Definition nilConst (typ : types.type) : M Function Value :=
  NewConst None typ token.NoPos token.NoPos.

(** Modelled from the spec: [vTrue] of const.go is not among the
    sources; "the shared boolean-true constant", the one object at
    address 0. *)
Definition vTrue : Value :=
  VConst 0 (mkConst (Some (exact.MakeBool true)) tBool token.NoPos token.NoPos).

(** Modelled from the spec: [DefaultType] is not among the sources; "an
    untyped literal source is first defaulted to its natural concrete
    type". *)
Definition DefaultType (typ : types.type) : types.type :=
  match typ with
  | types.Basic k =>
      types.Typ match k with
                | types.KUntypedBool => types.KBool
                | types.KUntypedInt => types.KInt
                | types.KUntypedRune => types.KInt32
                | types.KUntypedFloat => types.KFloat64
                | types.KUntypedComplex => types.KComplex128
                | types.KUntypedString => types.KString
                | _ => k
                end
  | _ => typ
  end.

(** Modelled from the spec: [needMethodsOf] is not among the sources;
    boxing "registers that concrete type's method set as required". *)
Definition needMethodsOf (T : types.type) : M Function unit :=
  modify (fun f => set_needRTTI (needRTTI f ++ [T]) f).

(** What [f.emit(instr)] returns: the register the instruction defines
    when the instruction is a Value, nothing otherwise. *)
Definition emit_result (i : Instruction) : Type :=
  match Instruction_Type i with Some _ => Value | None => unit end.

Definition register (blk idx : nat) (i : Instruction) : emit_result i :=
  match Instruction_Type i as o
        return match o with Some _ => Value | None => unit end with
  | Some t => VRegister blk idx t
  | None => tt
  end.

(** Modelled from the spec: func.go, which declares [emit], is not among
    the sources.  The instruction is appended to the block open for
    appending; there must be one. *)
Definition emit (i : Instruction) : M Function (emit_result i) :=
  fun f =>
    match currentBlock f with
    | None => Panic "invalid memory address or nil pointer dereference"
    | Some b =>
        match Blocks f !! b with
        | None => Panic "invalid memory address or nil pointer dereference"
        | Some blk =>
            Ok (register b (length (Instrs blk)) i,
                set_Blocks (<[b := BasicBlock_emit i blk]> (Blocks f)) f)
        end
    end.

Definition emitLoad (addr : Value) : M Function Value :=
  emit (UnOp token.MUL addr (deref (Value_Type addr))).

Definition isValuePreserving (ut_src ut_dst : types.type) : bool :=
  if types.IsIdentical ut_dst ut_src then true
  else match ut_dst with
       | types.Chan _ =>
           match ut_src with types.Chan _ => true | _ => false end
       | types.Pointer _ =>
           match ut_src with types.Pointer _ => true | _ => false end
       | types.Signature _ _ _ _ =>
           match ut_src with types.Signature _ _ _ _ => true | _ => false end
       | _ => false
       end.

(** [emitConv] calls itself once, on an untyped literal boxed into an
    interface; [fuel] bounds the depth of the calls. *)
Fixpoint emitConv_fuel (fuel : nat) (val : Value) (typ : types.type)
    : M Function Value :=
  match fuel with
  | O => panic "emitConv: out of fuel"
  | S fuel =>
      let t_src := Value_Type val in
      if types.IsIdentical t_src typ then ret val
      else
        let ut_dst := types.Underlying typ in
        let ut_src := types.Underlying t_src in
        if isValuePreserving ut_src ut_dst then emit (ChangeType val typ)
        else
          match ut_dst with
          | types.Interface _ =>
              match ut_src with
              | types.Interface _ => emit (ChangeInterface val typ)
              | types.Basic types.KUntypedNil => nilConst typ
              | _ =>
                  val <- match ut_src with
                         | types.Basic k =>
                             if types.IsUntyped k
                             then emitConv_fuel fuel val (DefaultType ut_src)
                             else ret val
                         | _ => ret val
                         end ;;
                  needMethodsOf (Value_Type val) ;;;
                  emit (MakeInterface val typ)
              end
          | _ =>
              match val with
              | VConst _ c =>
                  NewConst (Const_Value c) typ (Const_pos c) (Const_endP c)
              | _ => emit (Convert val typ)
              end
          end
  end.

Definition emitConv (val : Value) (typ : types.type) : M Function Value :=
  emitConv_fuel 2 val typ.

Definition emitArith (op : token.Token) (x y : Value) (t : types.type)
    (pos : nat) : M Function Value :=
  xy <- match op with
        | token.SHL | token.SHR =>
            x <- emitConv x t ;;
            y <- match types.Underlying (Value_Type y) with
                 | types.Basic b =>
                     if negb (types.IsUnsigned b)
                     then emitConv y (types.Typ types.KUint64)
                     else ret y
                 | _ => ret y
                 end ;;
            ret (x, y)
        | token.ADD | token.SUB | token.MUL | token.QUO | token.REM
        | token.AND | token.OR | token.XOR | token.AND_NOT =>
            x <- emitConv x t ;;
            y <- emitConv y t ;;
            ret (x, y)
        | _ => panic ("illegal op in emitArith: " +:+ token.Token_String op)
        end ;;
  emit (BinOp op (fst xy) (snd xy) pos t).

Definition emitCompare (op : token.Token) (x y : Value) (pos : nat)
    : M Function Value :=
  let xt := types.Underlying (Value_Type x) in
  let yt := types.Underlying (Value_Type y) in
  let shortcut :=
    Value_same x vTrue
    && match op with token.EQL => true | _ => false end
    && match yt with
       | types.Basic k => types.IsBoolean k
       | _ => false
       end in
  if shortcut then ret y
  else
    xy <- (if types.IsIdentical xt yt then ret (x, y)
           else match xt with
           | types.Interface _ =>
               y <- emitConv y (Value_Type x) ;; ret (x, y)
           | _ =>
           match yt with
           | types.Interface _ =>
               x <- emitConv x (Value_Type y) ;; ret (x, y)
           | _ =>
           match x with
           | VConst _ _ =>
               x <- emitConv x (Value_Type y) ;; ret (x, y)
           | _ =>
           match y with
           | VConst _ _ =>
               y <- emitConv y (Value_Type x) ;; ret (x, y)
           | _ => ret (x, y)
           end end end end) ;;
    emit (BinOp op (fst xy) (snd xy) pos tBool).

Definition emitExtract (tuple : Value) (index : nat) : M Function Value :=
  match Value_Type tuple with
  | types.Tuple vars =>
      match vars !! index with
      | Some v => emit (Extract tuple index (types.var_Type v))
      | None => panic "index out of range"
      end
  | _ => panic "interface conversion: types.Type is not *types.Tuple"
  end.

(** The loop [for i := 0; i < nr; i++] of [emitTailCall], entered at
    index [i] with [n] iterations to go and [results] so far. *)
Fixpoint emitTailCall_loop (tuple : Value) (i n : nat) (results : list Value)
    : M Function (list Value) :=
  match n with
  | O => ret results
  | S n =>
      v <- emitExtract tuple i ;;
      emitTailCall_loop tuple (S i) n (results ++ [v])
  end.

Definition emitTailCall (call : CallCommon) : M Function unit :=
  f <- get ;;
  let tresults := Sig_Results (Fn_Signature f) in
  let nr := length tresults in
  typ <- (if Nat.eqb nr 1
          then match tresults !! 0%nat with
               | Some v => ret (types.var_Type v)
               | None => panic "index out of range"
               end
          else ret (types.Tuple tresults)) ;;
  tuple <- emit (Call call typ) ;;
  results <- match nr with
             | 0 => ret []
             | 1 => ret [tuple]
             | _ => emitTailCall_loop tuple 0 nr []
             end ;;
  emit (Return results) ;;;
  modify (set_currentBlock None).

Fixpoint emitImplicitSelections (v : Value) (indices : list nat)
    : M Function Value :=
  match indices with
  | [] => ret v
  | index :: indices =>
      fld <- match types.Underlying (deref (Value_Type v)) with
             | types.Struct fields =>
                 match fields !! index with
                 | Some fld => ret fld
                 | None => panic "index out of range"
                 end
             | _ =>
                 panic "interface conversion: types.Type is not *types.Struct"
             end ;;
      v <- (if isPointer (Value_Type v)
            then
              v <- emit (FieldAddr v index
                           (types.NewPointer (types.var_Type fld))) ;;
              if isPointer (types.var_Type fld) then emitLoad v else ret v
            else emit (Field v index (types.var_Type fld))) ;;
      emitImplicitSelections v indices
  end.

(** ** Construction of a function body *)

(** Modelled from the spec: func.go, which declares [newBasicBlock],
    [startBody], [addParam], [addParamObj], [addSpilledParam] and
    [finishBody], is not among the sources.  "Allocate a Function
    header, open its entry block, materialize a receiver parameter plus
    the target method's declared formal parameters"; a spilled parameter
    is stored into a local of its own, whose address the wrapper uses;
    finishing the body leaves no block open.  The passes that rewrite a
    finished body are not part of this development. *)
Definition newBasicBlock (comment : string) : M Function nat :=
  fun f => Ok (length (Blocks f),
               set_Blocks (Blocks f ++ [mkBasicBlock comment [] [] []]) f).

(** Modelled from the spec: [startBody] of func.go is not among the
    sources; "open its entry block". *)
Definition startBody : M Function unit :=
  b <- newBasicBlock "entry" ;;
  modify (set_currentBlock (Some b)).

(** Modelled from the spec: [addParam] of func.go is not among the
    sources; "materialize a receiver parameter".  The result is the
    position of the new parameter in [f.Params]. *)
Definition addParam (name : string) (typ : types.type) (pos : nat)
    (object : option types.var) : M Function nat :=
  fun f => Ok (length (Params f),
               set_Params (Params f ++ [mkParam name typ pos object]) f).

(** Modelled from the spec: [addParamObj] of func.go is not among the
    sources; a parameter for a declared variable, "the target method's
    declared formal parameters"; a variable without a name gets the name
    of its position. *)
Definition addParamObj (obj : types.var) : M Function nat :=
  f <- get ;;
  let name := if String.eqb (types.var_Name obj) ""
              then ("arg" +:+ pretty (length (Params f)))%string
              else types.var_Name obj in
  addParam name (types.var_Type obj) token.NoPos (Some obj).

(** [f.Params[i]] as a Value. *)
Definition Params_values (f : Function) : list Value :=
  imap VParameter (Params f).

(** Modelled from the spec: [addSpilledParam] of func.go is not among
    the sources; the receiver parameter and "its spilled local", into
    which it is stored. *)
Definition addSpilledParam (obj : types.var) : M Function unit :=
  i <- addParamObj obj ;;
  f <- get ;;
  match Params_values f !! i with
  | None => panic "index out of range"
  | Some param =>
      spill <- emit (Alloc false (types.var_Name obj)
                       (types.NewPointer (types.var_Type obj))) ;;
      modify (fun f => set_Locals (Locals f ++ [spill]) f) ;;;
      emit (Store spill param)
  end.

(** Modelled from the spec: [finishBody] of func.go is not among the
    sources; "freeze": no block remains open. *)
Definition finishBody : M Function unit :=
  modify (set_currentBlock None).

(** The loop of [createParams]; [last] is the position of the parameter
    added last, if any. *)
Fixpoint createParams_loop (tparams : list types.var) (last : option nat)
    : M Function (option nat) :=
  match tparams with
  | [] => ret last
  | v :: tparams =>
      i <- addParamObj v ;;
      createParams_loop tparams (Some i)
  end.

Definition Param_set_typ (typ : types.type) (p : Param) : Param :=
  mkParam (Param_name p) typ (Param_pos p) (Param_object p).

Definition createParams : M Function unit :=
  f <- get ;;
  last <- createParams_loop (Sig_Params (Fn_Signature f)) None ;;
  if Sig_IsVariadic (Fn_Signature f)
  then match last with
       | None => panic "invalid memory address or nil pointer dereference"
       | Some i =>
           modify (fun f =>
             set_Params
               (alter (fun p => Param_set_typ (types.NewSlice (Param_typ p)) p)
                      i (Params f)) f)
       end
  else ret tt.

(** ** The program and its registry of method sets *)

(** A method set: from method ids to functions (indices in [funcs]). *)
Abbreviation MethodSet := (gmap string nat).

(** [funcs] is the store of the [Function] objects of the program: a
    [*Function] is an index in it.  [methodSets] is the table from
    types, up to identity, to method sets; the other tables are keyed by
    method objects. *)
Record Program : Type := mkProgram {
  funcs : list Function;
  methodSets : list (types.type * MethodSet);
  concreteMethods : gmap nat nat;
  ifaceMethodWrappers : gmap nat nat;
  boundMethodWrappers : gmap nat nat
}.

Definition set_funcs (fs : list Function) (p : Program) : Program :=
  mkProgram fs (methodSets p) (concreteMethods p) (ifaceMethodWrappers p)
            (boundMethodWrappers p).

Definition set_methodSets (ms : list (types.type * MethodSet)) (p : Program)
    : Program :=
  mkProgram (funcs p) ms (concreteMethods p) (ifaceMethodWrappers p)
            (boundMethodWrappers p).

Definition set_ifaceMethodWrappers (ws : gmap nat nat) (p : Program)
    : Program :=
  mkProgram (funcs p) (methodSets p) (concreteMethods p) ws
            (boundMethodWrappers p).

(** [&Function{...}] followed by the construction [body] of the new
    function: the function is stored once built, at a new index. *)
Definition build (fn : Function) (body : M Function unit) : M Program nat :=
  fun prog =>
    match body fn with
    | Ok (_, fn') =>
        Ok (length (funcs prog), set_funcs (funcs prog ++ [fn']) prog)
    | Panic msg => Panic msg
    end.

Definition recvType (obj : types.Func) : result types.type :=
  match types.recv obj with
  | Some v => Ok (types.var_Type v)
  | None => Panic "invalid memory address or nil pointer dereference"
  end.

Definition concreteMethod (prog : Program) (obj : types.Func) : result nat :=
  match concreteMethods prog !! types.addr obj with
  | Some fn => Ok fn
  | None => Panic ("no concrete method: " +:+ types.Func_String obj)
  end.

Definition makeWrapper (typ : types.type) (meth : types.Selection)
    : M Program nat :=
  prog <- get ;;
  let mfunc := types.Obj meth in
  let old := Func_Signature mfunc in
  let recv := types.Var "recv" typ in
  let sig := NewSignature (Some recv) (Sig_Params old) (Sig_Results old)
                          (Sig_IsVariadic old) in
  let description := ("wrapper for " +:+ types.Func_String mfunc)%string in
  let fn := mkFunction (types.Name mfunc) None (Some meth) sig description
                       (types.Pos mfunc) [] [] [] [] None [] 0 in
  build fn (
    startBody ;;;
    addSpilledParam recv ;;;
    createParams ;;;
    f <- get ;;
    v <- match Locals f !! 0%nat with
         | Some v => ret v
         | None => panic "index out of range"
         end ;;
    v <- (if isPointer typ then emitLoad v else ret v) ;;
    let indices := types.Index meth in
    path <- match indices with
            | [] => panic "slice bounds out of range"
            | _ => ret (take (length indices - 1) indices)
            end ;;
    v <- emitImplicitSelections v path ;;
    oldRecv <- lift (recvType mfunc) ;;
    c <- match types.Underlying oldRecv with
         | types.Interface _ =>
             x <- emitLoad v ;;
             ret (mkCallCommon (Some x) (Some mfunc) [])
         | _ =>
             v <- (if negb (isPointer oldRecv) then emitLoad v else ret v) ;;
             callee <- lift (concreteMethod prog mfunc) ;;
             ret (mkCallCommon
                    (Some (VFunction callee (types.Func_Type mfunc)))
                    None [v])
         end ;;
    f <- get ;;
    args <- match Params_values f with
            | [] => panic "slice bounds out of range"
            | _ :: args => ret args
            end ;;
    emitTailCall (mkCallCommon (Call_Value c) (Call_Method c)
                               (Call_Args c ++ args)) ;;;
    finishBody).

(** The description of the wrapper is a label for the reader of a dump;
    it is kept here without the printed form of [typ]. *)
Definition interfaceMethodWrapper (typ : types.type) (obj : types.Func)
    : M Program nat :=
  prog <- get ;;
  match ifaceMethodWrappers prog !! types.addr obj with
  | Some fn => ret fn
  | None =>
      let description :=
        ("interface method wrapper for " +:+ types.Func_String obj)%string in
      let fn := mkFunction (types.Name obj) (Some obj) None
                           (Func_Signature obj) description (types.Pos obj)
                           [] [] [] [] None [] 0 in
      fn <- build fn (
        startBody ;;;
        addParam "recv" typ token.NoPos None ;;;
        createParams ;;;
        f <- get ;;
        match Params_values f with
        | [] => panic "index out of range"
        | recv :: args =>
            emitTailCall (mkCallCommon (Some recv) (Some obj) args) ;;;
            finishBody
        end) ;;
      modify (fun prog =>
        set_ifaceMethodWrappers
          (<[types.addr obj := fn]> (ifaceMethodWrappers prog)) prog) ;;;
      ret fn
  end.

Definition findMethod (meth : types.Selection) : M Program nat :=
  let needsPromotion := (1 <? length (types.Index meth))%nat in
  let mfunc := types.Obj meth in
  recv <- lift (recvType mfunc) ;;
  let needsIndirection := negb (isPointer recv) && isPointer (types.Recv meth) in
  if needsPromotion || needsIndirection
  then makeWrapper (types.Recv meth) meth
  else match types.Underlying (types.Recv meth) with
       | types.Interface _ => interfaceMethodWrapper (types.Recv meth) mfunc
       | _ => prog <- get ;; lift (concreteMethod prog mfunc)
       end.

(** The table [prog.methodSets]: the position of the first entry whose
    key is identical to [typ].  A position stands for the map object
    stored there, which the code updates in place. *)
Fixpoint typemap_find (m : list (types.type * MethodSet)) (typ : types.type)
    : option nat :=
  match m with
  | [] => None
  | (k, _) :: m =>
      if types.IsIdentical k typ then Some 0%nat
      else S <$> typemap_find m typ
  end.

(** [mset[id]], [len(mset)] and [mset[id] = fn] on the map object at
    position [mset]. *)
Definition mset_get (mset : nat) (id : string) (prog : Program) : option nat :=
  match methodSets prog !! mset with
  | Some (_, m) => m !! id
  | None => None
  end.

Definition mset_len (mset : nat) (prog : Program) : nat :=
  match methodSets prog !! mset with
  | Some (_, m) => size m
  | None => 0
  end.

Definition mset_put (mset : nat) (id : string) (fn : nat) : M Program unit :=
  modify (fun prog =>
    set_methodSets
      (alter (fun e => (fst e, <[id := fn]> (snd e))) mset (methodSets prog))
      prog).

(** [if mset[id] == nil { mset[id] = findMethod(prog, meth) }] *)
Definition populate (mset : nat) (meth : types.Selection) : M Program unit :=
  prog <- get ;;
  let id := types.Id (types.Obj meth) in
  match mset_get mset id prog with
  | Some _ => ret tt
  | None => fn <- findMethod meth ;; mset_put mset id fn
  end.

Fixpoint populate_all (mset : nat) (tmset : list types.Selection)
    : M Program unit :=
  match tmset with
  | [] => ret tt
  | meth :: tmset => populate mset meth ;;; populate_all mset tmset
  end.

Section Registry.

(** [typ.MethodSet()]: the method set of a type as the front end
    enumerates it. *)
Variable types_MethodSet : types.type -> list types.Selection.

Definition methodSet (typ : types.type) : list types.Selection :=
  match types.Underlying (deref typ) with
  | types.Interface _ =>
      if isPointer typ then [] else types_MethodSet typ
  | _ => types_MethodSet typ
  end.

(** The result is [None] for the nil method set. *)
Definition populateMethodSet (typ : types.type)
    (meth : option types.Selection) : M Program (option MethodSet) :=
  let tmset := methodSet typ in
  let n := length tmset in
  if Nat.eqb n 0 then ret None
  else
    prog <- get ;;
    mset <- match typemap_find (methodSets prog) typ with
            | Some mset => ret mset
            | None =>
                modify (set_methodSets (methodSets prog ++ [(typ, ∅)])) ;;;
                ret (length (methodSets prog))
            end ;;
    prog <- get ;;
    (if (mset_len mset prog <? n)%nat
     then match meth with
          | Some meth => populate mset meth
          | None => populate_all mset tmset
          end
     else ret tt) ;;;
    prog <- get ;;
    ret (snd <$> methodSets prog !! mset).

Definition Program_MethodSet (typ : types.type)
    : M Program (option MethodSet) :=
  populateMethodSet typ None.

Definition LookupMethod (meth : types.Selection) : M Program (option nat) :=
  mset <- populateMethodSet (types.Recv meth) (Some meth) ;;
  ret (match mset with
       | Some m => m !! types.Id (types.Obj meth)
       | None => None
       end).

End Registry.

(** ** Notions used in the statements *)

(** [f] has block [b] open for appending and [blk] is its content. *)
Definition open_block (f : Function) (b : nat) (blk : BasicBlock) : Prop :=
  currentBlock f = Some b /\ Blocks f !! b = Some blk.

(** *** Implicit selections, as the design document words them *)

(** The field that a selection step at [index] selects from [v]: [v] is
    a struct or a pointer to one. *)
Definition selected_field (v : Value) (index : nat) : option types.var :=
  match types.Underlying (deref (Value_Type v)) with
  | types.Struct fields => fields !! index
  | _ => None
  end.

(** One step from the current value [v], when the next instruction will
    be at position [n] of block [b]: the instructions of the step and the
    value the next step starts from.  On a pointer, a field address typed
    as pointer to the field, and a load through it when the field's own
    type is a pointer; on a struct value, a field extraction. *)
Definition selection_step (b n : nat) (v : Value) (index : nat)
    (fld : types.var) : list Instruction * Value :=
  let ft := types.var_Type fld in
  if isPointer (Value_Type v)
  then
    let addr := VRegister b n (types.Pointer ft) in
    if isPointer ft
    then ([FieldAddr v index (types.Pointer ft); UnOp token.MUL addr ft],
          VRegister b (S n) ft)
    else ([FieldAddr v index (types.Pointer ft)], addr)
  else ([Field v index ft], VRegister b n ft).

(** The steps compose from left to right, one step per index. *)
Fixpoint selection_steps (b n : nat) (v : Value) (indices : list nat)
    : option (list Instruction * Value) :=
  match indices with
  | [] => Some ([], v)
  | index :: indices =>
      match selected_field v index with
      | None => None
      | Some fld =>
          let step := selection_step b n v index fld in
          match selection_steps b (n + length (fst step)) (snd step) indices with
          | None => None
          | Some (instrs, v') => Some (fst step ++ instrs, v')
          end
      end
  end.

Definition is_field_step (i : Instruction) : bool :=
  match i with
  | FieldAddr _ _ _ | Field _ _ _ => true
  | _ => false
  end.

Definition is_load (i : Instruction) : bool :=
  match i with
  | UnOp token.MUL _ _ => true
  | _ => false
  end.

(** [blk] with the instructions [instrs] appended. *)
Definition BasicBlock_append (instrs : list Instruction) (blk : BasicBlock)
    : BasicBlock :=
  mkBasicBlock (Comment blk) (Instrs blk ++ instrs) (Preds blk) (Succs blk).

(** [f] with the instructions [instrs] appended to its block [b], whose
    content was [blk]. *)
Definition appended (f : Function) (b : nat) (blk : BasicBlock)
    (instrs : list Instruction) : Function :=
  set_Blocks (<[b := BasicBlock_append instrs blk]> (Blocks f)) f.

(** [f'] is [f] after the emission of [instrs] into its open block [b],
    whose content was [blk]: the block is still open, the other blocks
    and the signature are as they were. *)
Definition emitted (f f' : Function) (b : nat) (blk : BasicBlock)
    (instrs : list Instruction) : Prop :=
  currentBlock f' = Some b
  /\ Blocks f' = <[b := BasicBlock_append instrs blk]> (Blocks f)
  /\ Fn_Signature f' = Fn_Signature f.

Definition is_Interface (t : types.type) : bool :=
  match t with types.Interface _ => true | _ => false end.

Definition is_Const (v : Value) : bool :=
  match v with VConst _ _ => true | _ => false end.

(** *** Sample programs

    The declarations the examples below are about:
<<
    type MyInt int
    type C struct{ x int }      func (c *C) f(n int) (int, bool)
    type B struct{ *C }         func (c C) g()
    type A struct{ B }
    type I interface{ m() }     type J interface{ I; n() }
    type S struct{ I }
>>
*)
Module Ex.

Definition tInt : types.type := types.Typ types.KInt.
Definition tUint : types.type := types.Typ types.KUint.
Definition MyInt : types.type := types.Named "MyInt" tInt.

Definition C : types.type :=
  types.Named "C" (types.Struct [types.Var "x" tInt]).
Definition B : types.type :=
  types.Named "B" (types.Struct [types.Var "C" (types.Pointer C)]).
Definition A : types.type :=
  types.Named "A" (types.Struct [types.Var "B" B]).
Definition I : types.type := types.Named "I" (types.Interface ["m"]).
Definition J : types.type := types.Named "J" (types.Interface ["m"; "n"]).
Definition S : types.type :=
  types.Named "S" (types.Struct [types.Var "I" I]).

(** [func (c *C) f(n int) (int, bool)] *)
Definition C_f : types.Func :=
  types.mkFunc 1 "main" "f" (Some (types.Var "c" (types.Pointer C)))
    [types.Var "n" tInt] [types.Var "" tInt; types.Var "" tBool] false 10.

(** [func (c C) g()] *)
Definition C_g : types.Func :=
  types.mkFunc 2 "main" "g" (Some (types.Var "c" C)) [] [] false 20.

(** The method [m] of the interface [I]. *)
Definition I_m : types.Func :=
  types.mkFunc 3 "main" "m" (Some (types.Var "" I)) [] [] false 30.

(** A function under construction, with an empty entry block open and
    the results of [C_f]. *)
Definition entry : BasicBlock := mkBasicBlock "entry" [] [] [].

Definition fn : Function :=
  mkFunction "fn" None None
    (mkSignature None [] [types.Var "" tInt; types.Var "" tBool] false)
    "" 0 [] [] [] [entry] (Some 0%nat) [] 0.

(** The constant 5 of type [int], a boolean parameter, a pointer to [A]. *)
Definition five : Value :=
  VConst 1 (mkConst (Some (exact.MakeInt64 5)) tInt 0 0).

Definition flag : Value := VParameter 0 (mkParam "b" tBool 0 None).

Definition pA : Value := VParameter 0 (mkParam "a" (types.Pointer A) 0 None).

Definition count : Value := VParameter 1 (mkParam "n" tInt 0 None).

(** The functions of [C_f] and [C_g], as the builder declared them,
    and a program that knows them as concrete methods. *)
Definition fn_C_f : Function :=
  mkFunction "f" (Some C_f) None (Func_Signature C_f) "" 10
    [] [] [] [] None [] 0.

Definition fn_C_g : Function :=
  mkFunction "g" (Some C_g) None (Func_Signature C_g) "" 20
    [] [] [] [] None [] 0.

Definition prog : Program :=
  mkProgram [fn_C_f; fn_C_g] [] {[ 1%nat := 0%nat; 2%nat := 1%nat ]} ∅ ∅.

End Ex.

(** A call of the function of [C_f] on a pointer to [C]. *)
Definition Ex_call : CallCommon :=
  mkCallCommon (Some (VFunction 0 (types.Func_Type Ex.C_f))) None
    [VParameter 0 (mkParam "c" (types.Pointer Ex.C) 0 None); Ex.count].

Definition is_boolean (t : types.type) : bool :=
  match types.Underlying t with
  | types.Basic k => types.IsBoolean k
  | _ => false
  end.

Definition is_EQL (op : token.Token) : bool :=
  match op with token.EQL => true | _ => false end.

Definition is_shift (op : token.Token) : bool :=
  match op with token.SHL | token.SHR => true | _ => false end.

(** The eager arithmetic and bitwise operators other than the shifts. *)
Definition is_arith (op : token.Token) : bool :=
  match op with
  | token.ADD | token.SUB | token.MUL | token.QUO | token.REM
  | token.AND | token.OR | token.XOR | token.AND_NOT => true
  | _ => false
  end.

(** Two interface-typed parameters and a parameter of type [MyInt]. *)
Definition Ex_i : Value := VParameter 0 (mkParam "i" Ex.I 0 None).
Definition Ex_j : Value := VParameter 1 (mkParam "j" Ex.J 0 None).
Definition Ex_k : Value := VParameter 2 (mkParam "k" Ex.MyInt 0 None).

(** A parameter of type [uint]. *)
Definition Ex_u : Value := VParameter 3 (mkParam "u" Ex.tUint 0 None).

Definition is_unsigned (t : types.type) : bool :=
  match types.Underlying t with
  | types.Basic k => types.IsUnsigned k
  | _ => false
  end.

(** *** The registry *)

(** The function the registry holds for the method [id] of [typ]. *)
Definition registry_entry (prog : Program) (typ : types.type) (id : string)
    : option nat :=
  match typemap_find (methodSets prog) typ with
  | Some mset => mset_get mset id prog
  | None => None
  end.

(** [ms'] has the entries of [ms], at the same positions, under the same
    keys, and maybe more. *)
Definition extends (ms ms' : list (types.type * MethodSet)) : Prop :=
  forall i k m, ms !! i = Some (k, m) ->
    exists m', ms' !! i = Some (k, m')
               /\ forall id fn, m !! id = Some fn -> m' !! id = Some fn.

(** *** Tail calls, as the design document words them *)

(** The instructions of a tail call whose first instruction is at
    position [n0] of block [b]: the call; no extraction for no result or
    one; for several, one extraction per component of the tuple in
    ascending order of index; the return of nothing, of the value of the
    call, of the extracted components. *)
Definition tailcall (b n0 : nat) (call : CallCommon)
    (tresults : list types.var) : list Instruction :=
  match tresults with
  | [] => [Call call (types.Tuple []); Return []]
  | [r] =>
      [Call call (types.var_Type r);
       Return [VRegister b n0 (types.var_Type r)]]
  | _ =>
      [Call call (types.Tuple tresults)]
        ++ imap (fun i r =>
                   Extract (VRegister b n0 (types.Tuple tresults)) i
                           (types.var_Type r)) tresults
        ++ [Return (imap (fun i r =>
                            VRegister b (n0 + 1 + i) (types.var_Type r))
                         tresults)]
  end.

(** *** Wrappers, as the design document words them *)

(** The parameter that [addParamObj] makes of the variable [obj] when
    the function has [n] parameters already. *)
Definition formal (n : nat) (obj : types.var) : Param :=
  mkParam (if String.eqb (types.var_Name obj) ""
           then ("arg" +:+ pretty n)%string
           else types.var_Name obj)
          (types.var_Type obj) token.NoPos (Some obj).

Fixpoint formals (n : nat) (tparams : list types.var) : list Param :=
  match tparams with
  | [] => []
  | obj :: tparams => formal n obj :: formals (S n) tparams
  end.

(** The parameters of a function that had the parameters [ps] before
    [createParams]: the formal parameters of the signature follow, and
    the last one is a slice when the signature is variadic. *)
Definition created_params (ps : list Param) (sig : Signature) : list Param :=
  let all := ps ++ formals (length ps) (Sig_Params sig) in
  if Sig_IsVariadic sig
  then alter (fun p => Param_set_typ (types.NewSlice (Param_typ p)) p)
             (length all - 1) all
  else all.

(** The receiver parameter of a promotion wrapper for the type [typ]. *)
Definition receiver (typ : types.type) : Param :=
  mkParam "recv" typ token.NoPos (Some (types.Var "recv" typ)).

Definition wrapper_signature (typ : types.type) (mfunc : types.Func)
    : Signature :=
  NewSignature (Some (types.Var "recv" typ)) (types.Params mfunc)
               (types.Results mfunc) (types.IsVariadic mfunc).

(** The local the receiver is spilled to. *)
Definition spill (typ : types.type) : Value :=
  VRegister 0 0 (types.Pointer typ).

(** The start of the body of a promotion wrapper: the receiver is
    spilled; a receiver passed by pointer is loaded and used as the
    base, else the address of the spilled receiver is. *)
Definition prologue (typ : types.type) : list Instruction :=
  [Alloc false "recv" (types.Pointer typ);
   Store (spill typ) (VParameter 0 (receiver typ))]
  ++ (if isPointer typ then [UnOp token.MUL (spill typ) typ] else []).

Definition base (typ : types.type) : Value :=
  if isPointer typ then VRegister 0 2 typ else spill typ.

(** The end of the body before the tail call, and the call, at the
    value [v] the walk arrived at, when the next instruction is at
    position [n] of the entry block: the code loads [v] for a concrete
    method with a value receiver and passes what it loaded as first
    argument of a direct call of the function [callee] of the method;
    for a concrete method with a pointer receiver it passes [v] itself;
    for an abstract method it loads [v] and calls the method on what it
    loaded.  The remaining parameters [args] follow. *)
Definition wrapper_call (mfunc : types.Func) (oldRecv : types.type)
    (callee : nat) (v : Value) (n : nat) (args : list Value)
    : list Instruction * CallCommon :=
  let load := UnOp token.MUL v (deref (Value_Type v)) in
  let loaded := VRegister 0 n (deref (Value_Type v)) in
  let direct := Some (VFunction callee (types.Func_Type mfunc)) in
  if is_Interface (types.Underlying oldRecv)
  then ([load], mkCallCommon (Some loaded) (Some mfunc) args)
  else if isPointer oldRecv
  then ([], mkCallCommon direct None (v :: args))
  else ([load], mkCallCommon direct None (loaded :: args)).

(** The promotion wrapper for the selection [meth] on the type [typ],
    whose walk is [steps] and arrives at [v]. *)
Definition promotion_wrapper (typ : types.type) (meth : types.Selection)
    (oldRecv : types.type) (callee : nat) (steps : list Instruction)
    (v : Value) : Function :=
  let mfunc := types.Obj meth in
  let sig := wrapper_signature typ mfunc in
  let params := created_params [receiver typ] sig in
  let n := length (prologue typ ++ steps) in
  let fc := wrapper_call mfunc oldRecv callee v n
              (tail (imap VParameter params)) in
  let body := prologue typ ++ steps ++ fst fc
              ++ tailcall 0 (n + length (fst fc)) (snd fc) (Sig_Results sig) in
  mkFunction (types.Name mfunc) None (Some meth) sig
    ("wrapper for " +:+ types.Func_String mfunc)%string (types.Pos mfunc)
    params [] [spill typ] [mkBasicBlock "entry" body [] []] None [] 0.



(** [m] never changes the selection a function under construction is a
    wrapper for. *)
Definition keeps_method {A} (m : M Function A) : Prop :=
  forall f a f', m f = Ok (a, f') -> method f' = method f.

(** The selections that the registry resolves are selections of a
    method set.  The method set of a type that is no pointer holds no
    method that declares a pointer receiver, unless the method is
    promoted through an embedded field, that is, unless the path of the
    selection is longer than 1: a method that declares a pointer
    receiver and is selected on a path of length 1 is selected on a
    pointer. *)
Definition method_set_selection (meth : types.Selection) : bool :=
  match types.recv (types.Obj meth) with
  | Some recv =>
      (1 <? length (types.Index meth))%nat
      || negb (isPointer (types.var_Type recv))
      || isPointer (types.Recv meth)
  | None => true
  end.

(** The addressing mode of the receiver of the selection, pointer or
    value, differs from the one that the method declares. *)
Definition mode_differs (meth : types.Selection) (recv : types.type) : bool :=
  xorb (isPointer (types.Recv meth)) (isPointer recv).

(** The selections of the examples: [f], declared on [*C], promoted to
    [A]; [g], declared on [C], selected on [*C]; [f] selected on [*C],
    the type that declares it; [m] of [I] promoted to [S]; [m] selected
    on [I]. *)
Definition Ex_A_f : types.Selection :=
  types.mkSelection Ex.A Ex.C_f [0; 0; 0]%nat.
Definition Ex_pC_g : types.Selection :=
  types.mkSelection (types.Pointer Ex.C) Ex.C_g [1]%nat.
Definition Ex_pC_f : types.Selection :=
  types.mkSelection (types.Pointer Ex.C) Ex.C_f [0]%nat.
Definition Ex_S_m : types.Selection :=
  types.mkSelection Ex.S Ex.I_m [0; 0]%nat.
Definition Ex_I_m : types.Selection :=
  types.mkSelection Ex.I Ex.I_m [0]%nat.

(** A front end whose enumeration gives [A] the method [f] and every
    other type, a pointer to an interface too, the method [m]. *)
Definition Ex_MethodSet (typ : types.type) : list types.Selection :=
  if types.IsIdentical typ Ex.A then [Ex_A_f]
  else [types.mkSelection typ Ex.I_m [0]%nat].

(** The program after the lookup of [f] on [A]. *)
Definition Ex_prog1 : Program :=
  match LookupMethod Ex_MethodSet Ex_A_f Ex.prog with
  | Ok (_, prog1) => prog1
  | Panic _ => Ex.prog
  end.

(** ** Further emitters *)

(** [emitStore]: the value is converted to the pointee type of the
    address, then stored.  The result is the [Store] instruction. *)
Definition emitStore (addr val : Value) : M Function Instruction :=
  v <- emitConv val (deref (Value_Type addr)) ;;
  let s := Store addr v in
  emit s ;;;
  ret s.

Definition BasicBlock_set_Succs (succs : list nat) (b : BasicBlock)
    : BasicBlock :=
  mkBasicBlock (Comment b) (Instrs b) (Preds b) succs.

Definition BasicBlock_set_Preds (preds : list nat) (b : BasicBlock)
    : BasicBlock :=
  mkBasicBlock (Comment b) (Instrs b) preds (Succs b).

(** Modelled from the spec: [addEdge] of func.go is not among the
    sources; a block has "successor/predecessor edges" and a jump
    "registers one or two successor edges": the edge is added to the
    successors of [from] and to the predecessors of [to]. *)
Definition addEdge (from to : nat) : M Function unit :=
  modify (fun f =>
    set_Blocks
      (alter (fun b => BasicBlock_set_Preds (Preds b ++ [from]) b) to
         (alter (fun b => BasicBlock_set_Succs (Succs b ++ [to]) b) from
            (Blocks f))) f).

(** [b := f.currentBlock; b.emit(...)]: the block that the emitters of
    jumps close. *)
Definition emitJump (target : nat) : M Function unit :=
  f <- get ;;
  match currentBlock f with
  | None => panic "invalid memory address or nil pointer dereference"
  | Some b =>
      emit Jump ;;;
      addEdge b target ;;;
      modify (set_currentBlock None)
  end.

Definition emitIf (cond : Value) (tblock fblock : nat) : M Function unit :=
  f <- get ;;
  match currentBlock f with
  | None => panic "invalid memory address or nil pointer dereference"
  | Some b =>
      emit (If cond) ;;;
      addEdge b tblock ;;;
      addEdge b fblock ;;;
      modify (set_currentBlock None)
  end.

(** The last instruction of a block. *)
Definition terminator (b : BasicBlock) : option Instruction :=
  last (Instrs b).

(** What a jump from block [b] to the blocks [targets], with the
    terminator [term], makes of the block [j], whose content was [blk]:
    the terminator is appended to the instructions of [b], each target to
    its successors, and [b] to the predecessors of each target. *)
Definition after_jump (b : nat) (term : Instruction) (targets : list nat)
    (j : nat) (blk : BasicBlock) : BasicBlock :=
  mkBasicBlock (Comment blk)
    (Instrs blk ++ (if decide (j = b) then [term] else []))
    (Preds blk ++ concat (map (fun t => if decide (j = t) then [b] else [])
                              targets))
    (Succs blk ++ (if decide (j = b) then targets else [])).

(** ** Bound method wrappers *)

Definition set_FreeVars (cs : list Capture) (f : Function) : Function :=
  mkFunction (name f) (object f) (method f) (Fn_Signature f) (Synthetic f)
    (pos f) (Params f) cs (Locals f) (Blocks f) (currentBlock f)
    (needRTTI f) (heap f).

Definition set_boundMethodWrappers (ws : gmap nat nat) (p : Program)
    : Program :=
  mkProgram (funcs p) (methodSets p) (concreteMethods p)
            (ifaceMethodWrappers p) ws.

(** [obj.FullName()]: the name qualified by the package. *)
Definition Func_FullName (obj : types.Func) : string :=
  (types.pkg obj +:+ "." +:+ types.Name obj)%string.

Definition boundMethodWrapper (obj : types.Func) : M Program nat :=
  prog <- get ;;
  match boundMethodWrappers prog !! types.addr obj with
  | Some fn => ret fn
  | None =>
      let description :=
        ("bound method wrapper for " +:+ types.Func_String obj)%string in
      let s := Func_Signature obj in
      let fn := mkFunction ("bound$" +:+ Func_FullName obj)%string None None
                  (NewSignature None (Sig_Params s) (Sig_Results s)
                                (Sig_IsVariadic s))
                  description (types.Pos obj) [] [] [] [] None [] 0 in
      recv <- lift (recvType obj) ;;
      let cap := mkCapture "recv" recv in
      let fn := set_FreeVars [cap] fn in
      fn <- build fn (
        startBody ;;;
        createParams ;;;
        recv <- lift (recvType obj) ;;
        c <- match types.Underlying recv with
             | types.Interface _ =>
                 ret (mkCallCommon (Some (VCapture 0 cap)) (Some obj) [])
             | _ =>
                 callee <- lift (concreteMethod prog obj) ;;
                 ret (mkCallCommon
                        (Some (VFunction callee (types.Func_Type obj)))
                        None [VCapture 0 cap])
             end ;;
        f <- get ;;
        emitTailCall (mkCallCommon (Call_Value c) (Call_Method c)
                                   (Call_Args c ++ Params_values f)) ;;;
        finishBody) ;;
      modify (fun prog =>
        set_boundMethodWrappers
          (<[types.addr obj := fn]> (boundMethodWrappers prog)) prog) ;;;
      ret fn
  end.

(** The bound method wrapper of [obj], whose receiver is of the type
    [recv] and whose function, when the method is concrete, is
    [callee]: no parameter but those of the method, one free variable,
    the receiver, and one call, on the captured receiver for an abstract
    method, of the function of the method with the captured receiver as
    first argument for a concrete one. *)
Definition bound_wrapper (obj : types.Func) (recv : types.type)
    (callee : nat) : Function :=
  let s := Func_Signature obj in
  let sig := NewSignature None (Sig_Params s) (Sig_Results s)
                          (Sig_IsVariadic s) in
  let cap := mkCapture "recv" recv in
  let params := created_params [] sig in
  let call :=
    if is_Interface (types.Underlying recv)
    then mkCallCommon (Some (VCapture 0 cap)) (Some obj)
                      (imap VParameter params)
    else mkCallCommon (Some (VFunction callee (types.Func_Type obj))) None
                      (VCapture 0 cap :: imap VParameter params) in
  mkFunction ("bound$" +:+ Func_FullName obj)%string None None sig
    ("bound method wrapper for " +:+ types.Func_String obj)%string
    (types.Pos obj) params [cap] []
    [mkBasicBlock "entry" (tailcall 0 0 call (Sig_Results sig)) [] []]
    None [] 0.

(** The ids under which the registry stores the methods of a method set
    of the front end. *)
Definition method_ids (tmset : list types.Selection) : list string :=
  (fun sel => types.Id (types.Obj sel)) <$> tmset.

(** What a program keeps through a lookup: its functions, in place; its
    concrete methods and bound method wrappers. *)
Definition grows (n : nat) (prog prog' : Program) : Prop :=
  (exists l, funcs prog' = funcs prog ++ l /\ length l <= n)
  /\ concreteMethods prog' = concreteMethods prog
  /\ boundMethodWrappers prog' = boundMethodWrappers prog.

(** ** Reasoning about the monad *)

Lemma bind_Ok {S A B} (m : M S A) (k : A -> M S B) s b s2 :
  bind m k s = Ok (b, s2) <->
  exists a s1, m s = Ok (a, s1) /\ k a s1 = Ok (b, s2).
Proof.
  unfold bind. split.
  - destruct (m s) as [[a s1]|msg]; [eauto | discriminate].
  - intros (a & s1 & -> & Hk). exact Hk.
Qed.

Lemma bind_eq {S A B} (m : M S A) (k : A -> M S B) s a s1 :
  m s = Ok (a, s1) -> bind m k s = k a s1.
Proof. unfold bind. intros ->. reflexivity. Qed.

Lemma bind_Panic {S A B} (m : M S A) (k : A -> M S B) s msg :
  m s = Panic msg -> bind m k s = Panic msg.
Proof. unfold bind. intros ->. reflexivity. Qed.

Lemma bind_ret {S A B} (a : A) (k : A -> M S B) s :
  bind (ret a) k s = k a s.
Proof. reflexivity. Qed.

Lemma bind_get {S B} (k : S -> M S B) s :
  bind get k s = k s s.
Proof. reflexivity. Qed.

Lemma bind_modify {S B} (g : S -> S) (k : unit -> M S B) s :
  bind (modify g) k s = k tt (g s).
Proof. reflexivity. Qed.

Lemma bind_assoc {S A B C} (m : M S A) (k : A -> M S B) (h : B -> M S C) s :
  bind (bind m k) h s = bind m (fun a => bind (k a) h) s.
Proof. unfold bind. destruct (m s) as [[a s1]|msg]; reflexivity. Qed.

(** ** Emission into the open block *)

Lemma emit_Ok f b blk i :
  open_block f b blk ->
  emit i f = Ok (register b (length (Instrs blk)) i,
                 set_Blocks (<[b := BasicBlock_emit i blk]> (Blocks f)) f).
Proof. intros [Hc Hb]. unfold emit. rewrite Hc, Hb. reflexivity. Qed.

Lemma open_block_emit f b blk i :
  open_block f b blk ->
  open_block (set_Blocks (<[b := BasicBlock_emit i blk]> (Blocks f)) f)
             b (BasicBlock_emit i blk).
Proof.
  intros [Hc Hb]. split; [exact Hc|]. simpl.
  apply list_lookup_insert_eq. eapply lookup_lt_Some, Hb.
Qed.

Lemma bind_emit {B} f b blk i (k : emit_result i -> M Function B) :
  open_block f b blk ->
  bind (emit i) k f =
    k (register b (length (Instrs blk)) i)
      (set_Blocks (<[b := BasicBlock_emit i blk]> (Blocks f)) f).
Proof. intros Ho. apply bind_eq, emit_Ok, Ho. Qed.

Lemma set_Blocks_id f b blk :
  Blocks f !! b = Some blk -> set_Blocks (<[b := blk]> (Blocks f)) f = f.
Proof. intros H. rewrite list_insert_id by exact H. destruct f; reflexivity. Qed.

Lemma set_Blocks_twice f b blk1 blk2 :
  set_Blocks
    (<[b := blk2]> (Blocks (set_Blocks (<[b := blk1]> (Blocks f)) f)))
    (set_Blocks (<[b := blk1]> (Blocks f)) f)
  = set_Blocks (<[b := blk2]> (Blocks f)) f.
Proof. simpl. rewrite list_insert_insert_eq. reflexivity. Qed.

Lemma appended_nil f b blk : open_block f b blk -> appended f b blk [] = f.
Proof.
  intros [_ Hb]. unfold appended, BasicBlock_append. rewrite app_nil_r.
  replace (mkBasicBlock _ _ _ _) with blk by (destruct blk; reflexivity).
  apply set_Blocks_id, Hb.
Qed.

Lemma open_block_appended f b blk instrs :
  open_block f b blk ->
  open_block (appended f b blk instrs) b (BasicBlock_append instrs blk).
Proof.
  intros [Hc Hb]. split; [exact Hc|]. cbn.
  apply list_lookup_insert_eq. eapply lookup_lt_Some, Hb.
Qed.

Lemma appended_appended f b blk is1 is2 :
  appended (appended f b blk is1) b (BasicBlock_append is1 blk) is2
  = appended f b blk (is1 ++ is2).
Proof.
  unfold appended. cbn. rewrite list_insert_insert_eq.
  unfold BasicBlock_append. cbn. rewrite <- app_assoc. reflexivity.
Qed.

Lemma bind_emit_appended {B} f b blk i (k : emit_result i -> M Function B) :
  open_block f b blk ->
  bind (emit i) k f =
    k (register b (length (Instrs blk)) i) (appended f b blk [i]).
Proof. intros Ho. exact (bind_emit f b blk i k Ho). Qed.

Lemma emitLoad_Ok f b blk addr :
  open_block f b blk ->
  emitLoad addr f =
    Ok (VRegister b (length (Instrs blk)) (deref (Value_Type addr)),
        appended f b blk [UnOp token.MUL addr (deref (Value_Type addr))]).
Proof.
  intros Ho. unfold emitLoad.
  exact (emit_Ok f b blk (UnOp token.MUL addr (deref (Value_Type addr))) Ho).
Qed.

(** Two functions with the same fields are equal. *)
Lemma Function_ext (f g : Function) :
  name f = name g -> object f = object g -> method f = method g ->
  Fn_Signature f = Fn_Signature g -> Synthetic f = Synthetic g ->
  pos f = pos g -> Params f = Params g -> FreeVars f = FreeVars g ->
  Locals f = Locals g -> Blocks f = Blocks g ->
  currentBlock f = currentBlock g -> needRTTI f = needRTTI g ->
  heap f = heap g -> f = g.
Proof. destruct f, g; cbn; intros; subst; reflexivity. Qed.

Ltac mret := rewrite ?bind_ret, ?bind_get, ?bind_modify; cbv beta.

(** ** Tail calls *)

Lemma emitExtract_Ok f b blk tuple vars index r :
  open_block f b blk ->
  Value_Type tuple = types.Tuple vars ->
  vars !! index = Some r ->
  emitExtract tuple index f =
    Ok (VRegister b (length (Instrs blk)) (types.var_Type r),
        appended f b blk [Extract tuple index (types.var_Type r)]).
Proof.
  intros Ho Ht Hr. unfold emitExtract. rewrite Ht, Hr.
  exact (emit_Ok f b blk (Extract tuple index (types.var_Type r)) Ho).
Qed.

(** The extraction loop, entered after the components [done]: it appends
    one extraction per remaining component, in order, and returns the
    registers they define after the results it was given. *)
Lemma emitTailCall_loop_Ok tuple done rest :
  Value_Type tuple = types.Tuple (done ++ rest) ->
  forall f b blk results,
  open_block f b blk ->
  emitTailCall_loop tuple (length done) (length rest) results f
    = Ok (results ++
            imap (fun j r => VRegister b (length (Instrs blk) + j)
                               (types.var_Type r)) rest,
          appended f b blk
            (imap (fun j r => Extract tuple (length done + j)
                                (types.var_Type r)) rest)).
Proof.
  revert done. induction rest as [|r rest IH]; intros done Ht f b blk results Ho.
  - cbn. rewrite !app_nil_r, (appended_nil f b blk Ho). reflexivity.
  - cbn [emitTailCall_loop length].
    assert (Hr : (done ++ r :: rest) !! length done = Some r)
      by (rewrite lookup_app_r, Nat.sub_diag by lia; reflexivity).
    rewrite (bind_eq _ _ _ _ _ (emitExtract_Ok _ _ _ _ _ _ _ Ho Ht Hr)).
    pose proof (open_block_appended f b blk
                  [Extract tuple (length done) (types.var_Type r)] Ho) as Ho'.
    specialize (IH (done ++ [r])).
    rewrite <- app_assoc in IH. specialize (IH Ht _ _ _
      (results ++ [VRegister b (length (Instrs blk)) (types.var_Type r)]) Ho').
    rewrite length_app in IH. cbn [length] in IH.
    rewrite Nat.add_1_r in IH. rewrite IH, appended_appended.
    f_equal. f_equal.
    + rewrite <- app_assoc. f_equal. cbn [imap app].
      f_equal; [f_equal; lia|].
      apply imap_ext. intros j x _. cbn. rewrite length_app. cbn.
      f_equal. lia.
    + f_equal. cbn [imap app]. f_equal; [f_equal; lia|].
      apply imap_ext. intros j x _. cbn. f_equal. lia.
Qed.

(** The instructions of a tail call are those of [tailcall]. *)
Lemma emitTailCall_Ok (f : Function) (call : CallCommon) (b : nat)
    (blk : BasicBlock) :
  open_block f b blk ->
  emitTailCall call f =
    Ok (tt, set_currentBlock None
              (appended f b blk
                 (tailcall b (length (Instrs blk)) call
                    (Sig_Results (Fn_Signature f))))).
Proof.
  intros Ho. unfold emitTailCall, tailcall.
  rewrite bind_get. cbv beta.
  set (n0 := length (Instrs blk)).
  destruct (Sig_Results (Fn_Signature f)) as [|r [|r' rest]].
  - (* no result *)
    cbn [length Nat.eqb]. mret.
    rewrite (bind_emit_appended f b blk (Call call (types.Tuple [])) _ Ho).
    mret.
    pose proof (open_block_appended f b blk [Call call (types.Tuple [])] Ho)
      as Ho1.
    rewrite (bind_emit_appended _ b _ (Return []) _ Ho1), appended_appended.
    reflexivity.
  - (* one result *)
    cbn [length Nat.eqb lookup list_lookup]. mret.
    rewrite (bind_emit_appended f b blk (Call call (types.var_Type r)) _ Ho).
    mret.
    pose proof (open_block_appended f b blk [Call call (types.var_Type r)] Ho)
      as Ho1.
    rewrite (bind_emit_appended _ b _
               (Return [VRegister b n0 (types.var_Type r)]) _ Ho1),
      appended_appended.
    reflexivity.
  - (* several results *)
    change (Nat.eqb (length (r :: r' :: rest)) 1) with false. cbv iota.
    change (match length (r :: r' :: rest) with
            | 0 => ret []
            | 1 => ret [?t]
            | S (S _) => ?l
            end) with l.
    remember (r :: r' :: rest) as trs eqn:Etrs.
    assert (Hshape : match trs with [] | [_] => False | _ => True end)
      by (subst trs; exact I).
    clear Etrs r r' rest. mret.
    rewrite (bind_emit_appended f b blk (Call call (types.Tuple trs)) _ Ho).
    pose proof (open_block_appended f b blk [Call call (types.Tuple trs)] Ho)
      as Ho1.
    change (register b (length (Instrs blk)) (Call call (types.Tuple trs)))
      with (VRegister b n0 (types.Tuple trs)).
    pose proof (emitTailCall_loop_Ok (VRegister b n0 (types.Tuple trs)) [] trs
                  eq_refl _ b _ [] Ho1) as Hrun.
    change (length []) with 0 in Hrun.
    rewrite (bind_eq _ _ _ _ _ Hrun), appended_appended.
    pose proof (open_block_appended f b blk
                  ([Call call (types.Tuple trs)] ++
                   imap (fun j r0 => Extract (VRegister b n0 (types.Tuple trs))
                                       (0 + j) (types.var_Type r0)) trs) Ho)
      as Ho2.
    rewrite (bind_emit_appended _ b _ (Return _) _ Ho2), appended_appended.
    unfold modify. do 3 f_equal.
    destruct trs as [|r [|r' rest]]; [destruct Hshape..|].
    rewrite <- app_assoc. f_equal. f_equal. f_equal. f_equal. f_equal.
    rewrite app_nil_l.
    apply imap_ext. intros j x _. cbn. rewrite length_app. reflexivity.
Qed.

(** C7. A tail call appends, to the open block, the call, then nothing
    for a signature without results, nothing for one with a single result,
    and one extraction per component of the tuple, in ascending order of
    index, for one with several; then the return of, respectively,
    nothing, the value of the call, and the extracted components as they
    are, in order.  It always succeeds on a function with an open block,
    changes nothing else, and leaves no block open. *)
Theorem emitTailCall_arity (f : Function) (call : CallCommon) (b : nat)
    (blk : BasicBlock) :
  open_block f b blk ->
  let tresults := Sig_Results (Fn_Signature f) in
  let n0 := length (Instrs blk) in
  exists blk',
    emitTailCall call f =
      Ok (tt, set_currentBlock None (set_Blocks (<[b := blk']> (Blocks f)) f))
    /\ currentBlock
         (set_currentBlock None (set_Blocks (<[b := blk']> (Blocks f)) f))
       = None
    /\ Instrs blk' =
         match tresults with
         | [] => Instrs blk ++ [Call call (types.Tuple []); Return []]
         | [r] =>
             Instrs blk ++
               [Call call (types.var_Type r);
                Return [VRegister b n0 (types.var_Type r)]]
         | _ =>
             Instrs blk
               ++ [Call call (types.Tuple tresults)]
               ++ imap (fun i r =>
                          Extract (VRegister b n0 (types.Tuple tresults)) i
                                  (types.var_Type r)) tresults
               ++ [Return (imap (fun i r =>
                                   VRegister b (n0 + 1 + i) (types.var_Type r))
                                tresults)]
         end.
Proof.
  intros Ho tresults n0.
  exists (BasicBlock_append (tailcall b n0 call tresults) blk).
  split; [exact (emitTailCall_Ok f call b blk Ho)|]. split; [reflexivity|].
  cbn [BasicBlock_append Instrs]. unfold tailcall.
  destruct tresults as [|r [|r' rest]]; reflexivity.
Qed.

(** A function with two results: the call, two extractions in order,
    the return of the two extracted values. *)
Lemma emitTailCall_arity_witness :
  exists blk',
    emitTailCall Ex_call Ex.fn =
      Ok (tt, set_currentBlock None
                (set_Blocks (<[0%nat := blk']> (Blocks Ex.fn)) Ex.fn))
    /\ currentBlock
         (set_currentBlock None
            (set_Blocks (<[0%nat := blk']> (Blocks Ex.fn)) Ex.fn)) = None
    /\ Instrs blk' =
         let tuple :=
           VRegister 0 0 (types.Tuple [types.Var "" Ex.tInt;
                                       types.Var "" tBool]) in
         [Call Ex_call (types.Tuple [types.Var "" Ex.tInt; types.Var "" tBool]);
          Extract tuple 0 Ex.tInt;
          Extract tuple 1 tBool;
          Return [VRegister 0 1 Ex.tInt; VRegister 0 2 tBool]].
Proof.
  exact (emitTailCall_arity Ex.fn Ex_call 0 Ex.entry (conj eq_refl eq_refl)).
Defined.

(** ** Implicit selections *)

(** One step of the walk is the step of the design document. *)
Lemma emitImplicitSelections_cons f b blk v index indices fld :
  open_block f b blk ->
  selected_field v index = Some fld ->
  let step := selection_step b (length (Instrs blk)) v index fld in
  emitImplicitSelections v (index :: indices) f =
    emitImplicitSelections (snd step) indices (appended f b blk (fst step)).
Proof.
  intros Ho Hfld step. cbn [emitImplicitSelections].
  unfold selected_field in Hfld.
  destruct (types.Underlying (deref (Value_Type v))) eqn:Eu; try discriminate.
  rewrite Hfld. mret. subst step. unfold selection_step.
  destruct (isPointer (Value_Type v)) eqn:Ep.
  - rewrite bind_assoc.
    rewrite (bind_emit_appended f b blk
               (FieldAddr v index (types.NewPointer (types.var_Type fld))) _ Ho).
    pose proof (open_block_appended f b blk
                  [FieldAddr v index (types.NewPointer (types.var_Type fld))] Ho)
      as Ho1.
    destruct (isPointer (types.var_Type fld)) eqn:Ef.
    + rewrite (bind_eq _ _ _ _ _ (emitLoad_Ok _ b _ _ Ho1)).
      rewrite appended_appended. cbn [fst snd app].
      cbn [BasicBlock_append Instrs Value_Type register Instruction_Type].
      rewrite length_app. cbn [length]. rewrite Nat.add_1_r.
      unfold types.NewPointer, deref. cbn [types.Underlying]. reflexivity.
    + mret. reflexivity.
  - rewrite (bind_emit_appended f b blk
               (Field v index (types.var_Type fld)) _ Ho). reflexivity.
Qed.

Lemma emitImplicitSelections_stuck f v index indices :
  selected_field v index = None ->
  exists msg, emitImplicitSelections v (index :: indices) f = Panic msg.
Proof.
  intros Hfld. cbn [emitImplicitSelections]. unfold selected_field in Hfld.
  destruct (types.Underlying (deref (Value_Type v)));
    try (eexists; reflexivity).
  rewrite Hfld. eexists; reflexivity.
Qed.

Lemma selection_step_shape b n v index fld :
  let step := selection_step b n v index fld in
  length (filter is_field_step (fst step)) = 1
  /\ Forall (fun i => is_field_step i || is_load i) (fst step).
Proof.
  unfold selection_step.
  destruct (isPointer (Value_Type v)), (isPointer (types.var_Type fld));
    cbn; split; try reflexivity; repeat constructor.
Qed.

(** A walk that the design document describes succeeds as described. *)
Lemma emitImplicitSelections_Ok (indices : list nat) (f : Function)
    (b : nat) (blk : BasicBlock) (v : Value) instrs v' :
  open_block f b blk ->
  selection_steps b (length (Instrs blk)) v indices = Some (instrs, v') ->
  emitImplicitSelections v indices f = Ok (v', appended f b blk instrs).
Proof.
  revert f blk v instrs v'.
  induction indices as [|index indices IH]; intros f blk v instrs v' Ho.
  - cbn. intros [= <- <-]. rewrite (appended_nil f b blk Ho). reflexivity.
  - cbn [selection_steps].
    destruct (selected_field v index) as [fld|] eqn:Hfld; [|discriminate].
    rewrite (emitImplicitSelections_cons f b blk v index indices fld Ho Hfld).
    set (step := selection_step b (length (Instrs blk)) v index fld).
    destruct (selection_steps b (length (Instrs blk) + length (fst step))
                (snd step) indices) as [[instrs2 v2]|] eqn:E; [|discriminate].
    intros [= <- <-].
    rewrite (IH (appended f b blk (fst step))
                (BasicBlock_append (fst step) blk) (snd step) instrs2 v2
                (open_block_appended f b blk (fst step) Ho)).
    + rewrite appended_appended. reflexivity.
    + cbn [BasicBlock_append Instrs]. rewrite length_app. exact E.
Qed.

(** C2. On a function with an open block, the walk over an index path
    emits exactly the steps of the design document, composed from left to
    right: at each index, on a pointer-typed current value, a field
    address typed as pointer to the field, followed at once by a load if
    and only if the type of the field is a pointer; on a struct value, a
    field extraction.  There is one field step per index and nothing but
    field steps and loads.  A step on a value that has no such field
    aborts the walk with a panic. *)
Theorem emitImplicitSelections_steps (indices : list nat) (f : Function)
    (b : nat) (blk : BasicBlock) (v : Value) :
  open_block f b blk ->
  match selection_steps b (length (Instrs blk)) v indices with
  | Some (instrs, v') =>
      emitImplicitSelections v indices f = Ok (v', appended f b blk instrs)
      /\ length (filter is_field_step instrs) = length indices
      /\ Forall (fun i => is_field_step i || is_load i) instrs
  | None => exists msg, emitImplicitSelections v indices f = Panic msg
  end.
Proof.
  revert f blk v.
  induction indices as [|index indices IH]; intros f blk v Ho.
  - cbn. rewrite (appended_nil f b blk Ho). auto.
  - cbn [selection_steps].
    destruct (selected_field v index) as [fld|] eqn:Hfld;
      [|exact (emitImplicitSelections_stuck f v index indices Hfld)].
    rewrite (emitImplicitSelections_cons f b blk v index indices fld Ho Hfld).
    set (step := selection_step b (length (Instrs blk)) v index fld).
    specialize (IH (appended f b blk (fst step))
                   (BasicBlock_append (fst step) blk) (snd step)
                   (open_block_appended f b blk (fst step) Ho)).
    cbn [BasicBlock_append Instrs] in IH. rewrite length_app in IH.
    destruct (selection_steps b (length (Instrs blk) + length (fst step))
                (snd step) indices) as [[instrs v']|]; [|exact IH].
    destruct IH as (Hrun & Hcount & Hall).
    destruct (selection_step_shape b (length (Instrs blk)) v index fld)
      as [Hone Hstep]. fold step in Hone, Hstep.
    split; [|split].
    + rewrite Hrun, appended_appended. reflexivity.
    + rewrite filter_app, length_app, Hone, Hcount. reflexivity.
    + apply Forall_app. split; assumption.
Qed.

(** From a pointer to [A], through the field [B] (a struct) and the
    field [C] of [B] (a pointer): two field addresses, and a load after
    the second one only. *)
Lemma emitImplicitSelections_steps_witness :
  let instrs :=
    [FieldAddr Ex.pA 0 (types.Pointer Ex.B);
     FieldAddr (VRegister 0 0 (types.Pointer Ex.B)) 0
               (types.Pointer (types.Pointer Ex.C));
     UnOp token.MUL (VRegister 0 1 (types.Pointer (types.Pointer Ex.C)))
          (types.Pointer Ex.C)] in
  emitImplicitSelections Ex.pA [0; 0]%nat Ex.fn =
    Ok (VRegister 0 2 (types.Pointer Ex.C), appended Ex.fn 0 Ex.entry instrs)
  /\ length (filter is_field_step instrs) = 2
  /\ Forall (fun i => is_field_step i || is_load i) instrs.
Proof.
  exact (emitImplicitSelections_steps [0; 0]%nat Ex.fn 0 Ex.entry Ex.pA
           (conj eq_refl eq_refl)).
Defined.

(** ** Conversions *)

Lemma emitted_open f f' b blk instrs :
  open_block f b blk -> emitted f f' b blk instrs ->
  open_block f' b (BasicBlock_append instrs blk).
Proof.
  intros [Hc Hb] (Hc' & Hbs & _). split; [exact Hc'|]. rewrite Hbs.
  apply list_lookup_insert_eq. eapply lookup_lt_Some, Hb.
Qed.

Lemma emitted_refl f b blk : open_block f b blk -> emitted f f b blk [].
Proof.
  intros [Hc Hb]. split; [exact Hc|]. split; [|reflexivity].
  unfold BasicBlock_append. rewrite app_nil_r.
  replace (mkBasicBlock _ _ _ _) with blk by (destruct blk; reflexivity).
  symmetry. apply list_insert_id, Hb.
Qed.

Lemma emitted_appended f b blk instrs :
  open_block f b blk -> emitted f (appended f b blk instrs) b blk instrs.
Proof. intros [Hc Hb]. split; [exact Hc|]. split; reflexivity. Qed.

Lemma emitted_trans f f1 f2 b blk is1 is2 :
  emitted f f1 b blk is1 ->
  emitted f1 f2 b (BasicBlock_append is1 blk) is2 ->
  emitted f f2 b blk (is1 ++ is2).
Proof.
  intros (Hc1 & Hb1 & Hs1) (Hc2 & Hb2 & Hs2).
  split; [exact Hc2|]. split; [|congruence].
  rewrite Hb2, Hb1, list_insert_insert_eq. unfold BasicBlock_append. cbn.
  rewrite <- app_assoc. reflexivity.
Qed.

Lemma emitted_set_heap f f' b blk instrs h :
  emitted f f' b blk instrs -> emitted f (set_heap h f') b blk instrs.
Proof. intros H. exact H. Qed.

Lemma emitted_set_needRTTI f f' b blk instrs ts :
  emitted f f' b blk instrs -> emitted f (set_needRTTI ts f') b blk instrs.
Proof. intros H. exact H. Qed.

(** A conversion to a basic type makes no further call. *)
Lemma emitConv_fuel_Basic n val k f :
  emitConv_fuel (S n) val (types.Basic k) f
  = emitConv_fuel 1 val (types.Basic k) f.
Proof. reflexivity. Qed.

Lemma DefaultType_Basic k : exists k', DefaultType (types.Basic k) = types.Basic k'.
Proof. eexists. reflexivity. Qed.

(** [emitConv] is total: two levels of calls are all it ever makes. *)
Lemma emitConv_fuel_enough n val typ f :
  emitConv_fuel (S (S n)) val typ f = emitConv val typ f.
Proof.
  unfold emitConv. cbn [emitConv_fuel].
  destruct (types.IsIdentical (Value_Type val) typ); [reflexivity|].
  destruct (isValuePreserving _ _); [reflexivity|].
  destruct (types.Underlying typ); try reflexivity.
  destruct (types.Underlying (Value_Type val)) as [k| | | | | | | | | |];
    reflexivity.
Qed.

Lemma emit_emitted f b blk i :
  open_block f b blk ->
  exists v f', emit i f = Ok (v, f') /\ emitted f f' b blk [i].
Proof.
  intros Ho. eexists _, _. split; [exact (emit_Ok f b blk i Ho)|].
  exact (emitted_appended f b blk [i] Ho).
Qed.

Ltac solve_emit Ho :=
  match goal with
  | |- exists v' f' instrs, emit ?i ?f = Ok (v', f') /\ _ =>
      let v := fresh "v" in
      let f' := fresh "f'" in
      let He := fresh "He" in
      let Hm := fresh "Hm" in
      destruct (emit_emitted f _ _ i Ho) as (v & f' & He & Hm);
      eexists _, _, _; split; [exact He|exact Hm]
  end.

Lemma NewConst_emitted f b blk val typ pos endP :
  open_block f b blk ->
  exists v f', NewConst val typ pos endP f = Ok (v, f')
               /\ emitted f f' b blk [].
Proof.
  intros Ho. eexists _, _. split; [reflexivity|].
  apply emitted_set_heap, emitted_refl, Ho.
Qed.

Lemma emitConv_fuel_1_Basic_Ok f b blk val k :
  open_block f b blk ->
  exists v' f' instrs,
    emitConv_fuel 1 val (types.Basic k) f = Ok (v', f')
    /\ emitted f f' b blk instrs.
Proof.
  intros Ho. cbn [emitConv_fuel types.Underlying].
  destruct (types.IsIdentical _ _).
  { exists val, f, []. split; [reflexivity|]. apply emitted_refl, Ho. }
  destruct (isValuePreserving _ _).
  { destruct (emit_emitted f b blk (ChangeType val (types.Basic k)) Ho)
      as (v & f' & He & Hm). eexists _, _, _. split; [exact He|exact Hm]. }
  destruct val as [i p|i c|a c|fn sig|blk0 idx t]; try solve_emit Ho.
  destruct (NewConst_emitted f b blk (Const_Value c) (types.Basic k)
              (Const_pos c) (Const_endP c) Ho) as (v & f' & He & Hm).
  exists v, f', []. split; [exact He|exact Hm].
Qed.

(** The body of [emitConv], with its inner call left folded. *)
Lemma emitConv_unfold val typ :
  emitConv val typ =
    let t_src := Value_Type val in
    if types.IsIdentical t_src typ then ret val
    else
      let ut_dst := types.Underlying typ in
      let ut_src := types.Underlying t_src in
      if isValuePreserving ut_src ut_dst then emit (ChangeType val typ)
      else
        match ut_dst with
        | types.Interface _ =>
            match ut_src with
            | types.Interface _ => emit (ChangeInterface val typ)
            | types.Basic types.KUntypedNil => nilConst typ
            | _ =>
                val <- match ut_src with
                       | types.Basic k =>
                           if types.IsUntyped k
                           then emitConv_fuel 1 val (DefaultType ut_src)
                           else ret val
                       | _ => ret val
                       end ;;
                needMethodsOf (Value_Type val) ;;;
                emit (MakeInterface val typ)
            end
        | _ =>
            match val with
            | VConst _ c =>
                NewConst (Const_Value c) typ (Const_pos c) (Const_endP c)
            | _ => emit (Convert val typ)
            end
        end.
Proof. reflexivity. Qed.

(** On a function with an open block a conversion always succeeds; what
    it emits, it emits into that block. *)
Lemma emitConv_Ok f b blk val typ :
  open_block f b blk ->
  exists v' f' instrs,
    emitConv val typ f = Ok (v', f') /\ emitted f f' b blk instrs.
Proof.
  intros Ho. rewrite emitConv_unfold. cbv zeta.
  destruct (types.IsIdentical _ _).
  { exists val, f, []. split; [reflexivity|]. apply emitted_refl, Ho. }
  destruct (isValuePreserving _ _).
  { destruct (emit_emitted f b blk (ChangeType val typ) Ho)
      as (v & f' & He & Hm). eexists _, _, _. split; [exact He|exact Hm]. }
  assert (Hconst : exists v' f' instrs,
             match val with
             | VConst _ c =>
                 NewConst (Const_Value c) typ (Const_pos c) (Const_endP c)
             | _ => emit (Convert val typ)
             end f = Ok (v', f') /\ emitted f f' b blk instrs).
  { destruct val as [i p|i c|a c|fn sig|blk0 idx t]; try solve_emit Ho.
    destruct (NewConst_emitted f b blk (Const_Value c) typ
                (Const_pos c) (Const_endP c) Ho) as (v & f' & He & Hm).
    exists v, f', []. split; [exact He|exact Hm]. }
  assert (Hbox : forall val0 f0 is0,
             emitted f f0 b blk is0 ->
             exists v' f' instrs,
               (needMethodsOf (Value_Type val0) ;;;
                emit (MakeInterface val0 typ)) f0 = Ok (v', f')
               /\ emitted f f' b blk instrs).
  { intros val0 f0 is0 Hm0. unfold needMethodsOf. rewrite bind_modify.
    pose proof (emitted_open _ _ _ _ _ Ho Hm0) as Ho0.
    assert (Ho1 : open_block (set_needRTTI (needRTTI f0 ++ [Value_Type val0]) f0)
                    b (BasicBlock_append is0 blk)) by exact Ho0.
    destruct (emit_emitted _ b _ (MakeInterface val0 typ) Ho1)
      as (v & f' & He & Hm).
    eexists _, _, _. split; [exact He|].
    eapply emitted_trans; [|exact Hm]. exact Hm0. }
  destruct (types.Underlying typ); try exact Hconst.
  destruct (types.Underlying (Value_Type val)) as [k| | | | | | | | | |].
  2-9,11: rewrite bind_ret; eapply Hbox, emitted_refl, Ho.
  - (* a basic source *)
    destruct k; cbn [types.IsUntyped];
      try (rewrite bind_ret; eapply Hbox, emitted_refl, Ho);
      try (destruct (NewConst_emitted f b blk None typ token.NoPos token.NoPos
                       Ho) as (v & f' & He & Hm);
           exists v, f', []; split; [exact He|exact Hm]);
      match goal with
      | |- context [emitConv_fuel 1 val (DefaultType (types.Basic ?k0))] =>
          destruct (emitConv_fuel_1_Basic_Ok f b blk val
                      match k0 with
                      | types.KUntypedBool => types.KBool
                      | types.KUntypedInt => types.KInt
                      | types.KUntypedRune => types.KInt32
                      | types.KUntypedFloat => types.KFloat64
                      | types.KUntypedComplex => types.KComplex128
                      | types.KUntypedString => types.KString
                      | _ => k0
                      end Ho) as (v1 & f1 & is1 & He1 & Hm1)
      end;
      change (DefaultType (types.Basic ?k0)) with
        (types.Basic match k0 with
                     | types.KUntypedBool => types.KBool
                     | types.KUntypedInt => types.KInt
                     | types.KUntypedRune => types.KInt32
                     | types.KUntypedFloat => types.KFloat64
                     | types.KUntypedComplex => types.KComplex128
                     | types.KUntypedString => types.KString
                     | _ => k0
                     end);
      rewrite (bind_eq _ _ _ _ _ He1); eapply Hbox, Hm1.
  - (* an interface source *)
    destruct (emit_emitted f b blk (ChangeInterface val typ) Ho)
      as (v & f' & He & Hm). eexists _, _, _. split; [exact He|exact Hm].
Qed.

(** C9, as the code has it.  The conversion of a literal constant to a
    type that is not an interface, is not identical to the type of the
    constant and is not a mere relabelling of it (the underlying types
    are not identical, nor both channel, both pointer or both signature
    types) yields a new constant of the target type with the same
    abstract value and emits no instruction. *)
Theorem emitConv_Const (f : Function) (a : nat) (c : Const)
    (typ : types.type) :
  types.IsIdentical (Const_typ c) typ = false ->
  isValuePreserving (types.Underlying (Const_typ c)) (types.Underlying typ)
    = false ->
  is_Interface (types.Underlying typ) = false ->
  exists a' f',
    emitConv (VConst a c) typ f =
      Ok (VConst a' (mkConst (Const_Value c) typ (Const_pos c) (Const_endP c)),
          f')
    /\ heap f < a'
    /\ Blocks f' = Blocks f
    /\ currentBlock f' = currentBlock f.
Proof.
  intros Hid Hvp Hif. rewrite emitConv_unfold. cbv zeta.
  cbn [Value_Type]. rewrite Hid, Hvp.
  exists (S (heap f)), (set_heap (S (heap f)) f).
  split; [|split; [lia|split; reflexivity]].
  destruct (types.Underlying typ); try discriminate Hif; reflexivity.
Qed.

Lemma emitConv_Const_witness :
  exists a' f',
    emitConv Ex.five (types.Typ types.KFloat64) Ex.fn =
      Ok (VConst a' (mkConst (Some (exact.MakeInt64 5))
                       (types.Typ types.KFloat64) 0 0), f')
    /\ heap Ex.fn < a'
    /\ Blocks f' = Blocks Ex.fn
    /\ currentBlock f' = currentBlock Ex.fn.
Proof.
  exact (emitConv_Const Ex.fn 1 (mkConst (Some (exact.MakeInt64 5)) Ex.tInt 0 0)
           (types.Typ types.KFloat64) eq_refl eq_refl eq_refl).
Defined.

(** The claim without the proviso fails: converting the constant 5 of
    type [int] to the named type [MyInt], which is neither an interface
    nor identical to [int], emits a [ChangeType] instruction and returns
    its register, not a constant. *)
Lemma emitConv_Const_relabel :
  is_Interface (types.Underlying Ex.MyInt) = false
  /\ types.IsIdentical (Value_Type Ex.five) Ex.MyInt = false
  /\ emitConv Ex.five Ex.MyInt Ex.fn =
       Ok (VRegister 0 0 Ex.MyInt,
           appended Ex.fn 0 Ex.entry [ChangeType Ex.five Ex.MyInt]).
Proof. repeat split. Qed.

(** ** Comparisons *)

Lemma emit_after f f1 b blk instrs i :
  open_block f b blk ->
  emitted f f1 b blk instrs ->
  emit i f1 =
    Ok (register b (length (Instrs blk) + length instrs) i,
        appended f1 b (BasicBlock_append instrs blk) [i]).
Proof.
  intros Ho Hm. pose proof (emitted_open _ _ _ _ _ Ho Hm) as Ho1.
  rewrite (emit_Ok f1 b _ i Ho1). cbn [BasicBlock_append Instrs].
  rewrite length_app. reflexivity.
Qed.

(** C4, as the code has it.  When the left operand is the shared true
    constant, the operator is equality and the right operand is of a
    boolean type, the right operand is returned and nothing changes.
    In every other case, on a function with an open block, the operands
    are converted by the first rule that applies: underlying types
    identical, none; left operand of interface type, the right one to the
    type of the left; right operand of interface type, the left one to the
    type of the right; left operand a constant, the left one to the type
    of the right; right operand a constant, the right one to the type of
    the left; else none.  Then one comparison instruction of boolean type
    on these operands is appended, and its register returned. *)
Theorem emitCompare_cases (op : token.Token) (x y : Value) (pos : nat)
    (f : Function) (b : nat) (blk : BasicBlock) :
  open_block f b blk ->
  let xt := types.Underlying (Value_Type x) in
  let yt := types.Underlying (Value_Type y) in
  (Value_same x vTrue && is_EQL op && is_boolean (Value_Type y) = true ->
   emitCompare op x y pos f = Ok (y, f))
  /\
  (Value_same x vTrue && is_EQL op && is_boolean (Value_Type y) = false ->
   exists x' y' f1 instrs,
     emitted f f1 b blk instrs
     /\ emitCompare op x y pos f =
          Ok (VRegister b (length (Instrs blk) + length instrs) tBool,
              appended f1 b (BasicBlock_append instrs blk)
                       [BinOp op x' y' pos tBool])
     /\ if types.IsIdentical xt yt then x' = x /\ y' = y /\ f1 = f
        else if is_Interface xt
        then x' = x /\ emitConv y (Value_Type x) f = Ok (y', f1)
        else if is_Interface yt
        then y' = y /\ emitConv x (Value_Type y) f = Ok (x', f1)
        else if is_Const x
        then y' = y /\ emitConv x (Value_Type y) f = Ok (x', f1)
        else if is_Const y
        then x' = x /\ emitConv y (Value_Type x) f = Ok (y', f1)
        else x' = x /\ y' = y /\ f1 = f).
Proof.
  intros Ho xt yt. unfold emitCompare. fold xt yt.
  assert (Hs : Value_same x vTrue
               && match op with token.EQL => true | _ => false end
               && match yt with
                  | types.Basic k => types.IsBoolean k
                  | _ => false
                  end
               = Value_same x vTrue && is_EQL op && is_boolean (Value_Type y))
    by reflexivity.
  rewrite Hs. clear Hs. split; intros ->; [reflexivity|].
  assert (Hnone : exists x' y' f1 instrs,
             emitted f f1 b blk instrs
             /\ (xy <- ret (x, y) ;;
                 emit (BinOp op (fst xy) (snd xy) pos tBool)) f =
                  Ok (VRegister b (length (Instrs blk) + length instrs) tBool,
                      appended f1 b (BasicBlock_append instrs blk)
                               [BinOp op x' y' pos tBool])
             /\ x' = x /\ y' = y /\ f1 = f).
  { exists x, y, f, []. split; [apply emitted_refl, Ho|].
    split; [|auto]. rewrite bind_ret. cbn [fst snd].
    exact (emit_after f f b blk [] (BinOp op x y pos tBool) Ho
             (emitted_refl f b blk Ho)). }
  assert (Hy : exists x' y' f1 instrs,
             emitted f f1 b blk instrs
             /\ (xy <- (y0 <- emitConv y (Value_Type x) ;; ret (x, y0)) ;;
                 emit (BinOp op (fst xy) (snd xy) pos tBool)) f =
                  Ok (VRegister b (length (Instrs blk) + length instrs) tBool,
                      appended f1 b (BasicBlock_append instrs blk)
                               [BinOp op x' y' pos tBool])
             /\ x' = x /\ emitConv y (Value_Type x) f = Ok (y', f1)).
  { destruct (emitConv_Ok f b blk y (Value_Type x) Ho)
      as (y' & f1 & instrs & He & Hm).
    exists x, y', f1, instrs. split; [exact Hm|]. split; [|auto].
    rewrite bind_assoc, (bind_eq _ _ _ _ _ He), bind_ret. cbn [fst snd].
    exact (emit_after f f1 b blk instrs (BinOp op x y' pos tBool) Ho Hm). }
  assert (Hx : exists x' y' f1 instrs,
             emitted f f1 b blk instrs
             /\ (xy <- (x0 <- emitConv x (Value_Type y) ;; ret (x0, y)) ;;
                 emit (BinOp op (fst xy) (snd xy) pos tBool)) f =
                  Ok (VRegister b (length (Instrs blk) + length instrs) tBool,
                      appended f1 b (BasicBlock_append instrs blk)
                               [BinOp op x' y' pos tBool])
             /\ y' = y /\ emitConv x (Value_Type y) f = Ok (x', f1)).
  { destruct (emitConv_Ok f b blk x (Value_Type y) Ho)
      as (x' & f1 & instrs & He & Hm).
    exists x', y, f1, instrs. split; [exact Hm|]. split; [|auto].
    rewrite bind_assoc, (bind_eq _ _ _ _ _ He), bind_ret. cbn [fst snd].
    exact (emit_after f f1 b blk instrs (BinOp op x' y pos tBool) Ho Hm). }
  destruct (types.IsIdentical xt yt); [exact Hnone|].
  destruct xt; cbn [is_Interface]; try exact Hy;
    destruct yt; cbn [is_Interface]; try exact Hx;
    destruct x; cbn [is_Const]; try exact Hx;
    destruct y; cbn [is_Const]; try exact Hy; exact Hnone.
Qed.

Lemma emitCompare_cases_witness :
  emitCompare token.EQL vTrue Ex.flag 0 Ex.fn = Ok (Ex.flag, Ex.fn).
Proof.
  exact (proj1 (emitCompare_cases token.EQL vTrue Ex.flag 0 Ex.fn 0 Ex.entry
                  (conj eq_refl eq_refl)) eq_refl).
Defined.

(** The claim as worded fails in three places.  With the shared true
    constant as the right operand and a boolean left operand, a
    comparison is emitted and its register returned, not the operand.
    With two operands of different interface types ("otherwise": not
    exactly one), the right one is converted to the type of the left.
    With a constant of type [int] and an operand of the named type
    [MyInt] (exactly one constant, types not identical), nothing is
    converted, the underlying types being identical. *)
Lemma emitCompare_right_true :
  (is_boolean (Value_Type Ex.flag) = true
   /\ emitCompare token.EQL Ex.flag vTrue 0 Ex.fn =
        Ok (VRegister 0 0 tBool,
            appended Ex.fn 0 Ex.entry
              [BinOp token.EQL Ex.flag vTrue 0 tBool]))
  /\ emitCompare token.EQL Ex_i Ex_j 0 Ex.fn =
       Ok (VRegister 0 1 tBool,
           appended Ex.fn 0 Ex.entry
             [ChangeInterface Ex_j Ex.I;
              BinOp token.EQL Ex_i (VRegister 0 0 Ex.I) 0 tBool])
  /\ (types.IsIdentical (Value_Type Ex.five) (Value_Type Ex_k) = false
      /\ emitCompare token.EQL Ex.five Ex_k 0 Ex.fn =
           Ok (VRegister 0 0 tBool,
               appended Ex.fn 0 Ex.entry
                 [BinOp token.EQL Ex.five Ex_k 0 tBool])).
Proof. repeat split. Qed.

(** ** Arithmetic *)

(** C8.  An operator that is neither a shift nor one of add, sub, mul,
    quo, rem, and, or, xor, and-not makes [emitArith] panic, whatever
    the function and the operands, and the panic names the operator.
    For the others, on a function with an open block, the left operand
    is converted to the result type.  For an arithmetic operator the
    right operand is converted to the result type too.  For a shift,
    whose count is of a basic type, the right operand is converted to
    [uint64] when its type is not unsigned already, and is left as it is
    when it is.  Then the operation on the converted operands, of the
    result type, is appended and its register returned. *)
Theorem emitArith_cases (op : token.Token) (x y : Value) (t : types.type)
    (pos : nat) (f : Function) (b : nat) (blk : BasicBlock) :
  (is_shift op || is_arith op = false ->
   emitArith op x y t pos f
   = Panic ("illegal op in emitArith: " +:+ token.Token_String op))
  /\
  (open_block f b blk -> is_shift op || is_arith op = true ->
   (is_shift op = true ->
    exists k, types.Underlying (Value_Type y) = types.Basic k) ->
   exists x' y' f1 f2 is1 is2,
     emitConv x t f = Ok (x', f1)
     /\ emitted f f1 b blk is1
     /\ (if is_shift op
         then if is_unsigned (Value_Type y)
              then y' = y /\ f2 = f1
              else emitConv y (types.Typ types.KUint64) f1 = Ok (y', f2)
         else emitConv y t f1 = Ok (y', f2))
     /\ emitted f f2 b blk (is1 ++ is2)
     /\ emitArith op x y t pos f =
          Ok (VRegister b (length (Instrs blk) + length (is1 ++ is2)) t,
              appended f2 b (BasicBlock_append (is1 ++ is2) blk)
                       [BinOp op x' y' pos t])).
Proof.
  split.
  - destruct op; cbn; intros H; try discriminate H; reflexivity.
  - intros Ho Hop Hbasic.
    destruct (emitConv_Ok f b blk x t Ho) as (x' & f1 & is1 & Hx & Hm1).
    pose proof (emitted_open _ _ _ _ _ Ho Hm1) as Ho1.
    assert (Hkeep : emitted f f1 b blk (is1 ++ [])).
    { rewrite app_nil_r. exact Hm1. }
    assert (Hshift : is_shift op = true ->
              exists y' f2 is2,
                (if is_unsigned (Value_Type y)
                 then y' = y /\ f2 = f1
                 else emitConv y (types.Typ types.KUint64) f1 = Ok (y', f2))
                /\ emitted f f2 b blk (is1 ++ is2)
                /\ (y0 <- match types.Underlying (Value_Type y) with
                          | types.Basic k =>
                              if negb (types.IsUnsigned k)
                              then emitConv y (types.Typ types.KUint64)
                              else ret y
                          | _ => ret y
                          end ;; ret (x', y0)) f1 = Ok ((x', y'), f2)).
    { intros Hs. destruct (Hbasic Hs) as [k Hk].
      unfold is_unsigned. rewrite Hk.
      destruct (types.IsUnsigned k); cbn [negb].
      - exists y, f1, []. split; [auto|split; [exact Hkeep|reflexivity]].
      - destruct (emitConv_Ok f1 b _ y (types.Typ types.KUint64) Ho1)
          as (y' & f2 & is2 & Hy & Hm2).
        exists y', f2, is2. split; [exact Hy|].
        split; [exact (emitted_trans _ _ _ _ _ _ _ Hm1 Hm2)|].
        rewrite (bind_eq _ _ _ _ _ Hy). reflexivity. }
    assert (Harith : is_shift op = false ->
              exists y' f2 is2,
                emitConv y t f1 = Ok (y', f2)
                /\ emitted f f2 b blk (is1 ++ is2)
                /\ (y0 <- emitConv y t ;; ret (x', y0)) f1 = Ok ((x', y'), f2)).
    { intros _.
      destruct (emitConv_Ok f1 b _ y t Ho1) as (y' & f2 & is2 & Hy & Hm2).
      exists y', f2, is2. split; [exact Hy|].
      split; [exact (emitted_trans _ _ _ _ _ _ _ Hm1 Hm2)|].
      rewrite (bind_eq _ _ _ _ _ Hy). reflexivity. }
    unfold emitArith.
    destruct (is_shift op) eqn:Es.
    + destruct (Hshift eq_refl) as (y' & f2 & is2 & Hy & Hm & Hrun).
      exists x', y', f1, f2, is1, is2.
      split; [exact Hx|]. split; [exact Hm1|]. split; [exact Hy|].
      split; [exact Hm|].
      destruct op; try discriminate Es;
        rewrite bind_assoc, (bind_eq _ _ _ _ _ Hx), (bind_eq _ _ _ _ _ Hrun);
        cbn [fst snd];
        exact (emit_after f f2 b blk (is1 ++ is2) (BinOp _ x' y' pos t) Ho Hm).
    + destruct (Harith eq_refl) as (y' & f2 & is2 & Hy & Hm & Hrun).
      exists x', y', f1, f2, is1, is2.
      split; [exact Hx|]. split; [exact Hm1|]. split; [exact Hy|].
      split; [exact Hm|].
      destruct op; try discriminate Es; try discriminate Hop;
        rewrite bind_assoc, (bind_eq _ _ _ _ _ Hx), (bind_eq _ _ _ _ _ Hrun);
        cbn [fst snd];
        exact (emit_after f f2 b blk (is1 ++ is2) (BinOp _ x' y' pos t) Ho Hm).
Qed.

(** The logical conjunction is not an operator of [emitArith]; the shift
    of an [int] by an [int] converts the count to [uint64]. *)
Lemma emitArith_cases_witness :
  emitArith token.LAND Ex.count Ex.count Ex.tInt 0 Ex.fn
    = Panic "illegal op in emitArith: &&"
  /\ exists x' y' f1 f2 is1 is2,
       emitConv Ex.count Ex.tInt Ex.fn = Ok (x', f1)
       /\ emitted Ex.fn f1 0 Ex.entry is1
       /\ emitConv Ex.count (types.Typ types.KUint64) f1 = Ok (y', f2)
       /\ emitted Ex.fn f2 0 Ex.entry (is1 ++ is2)
       /\ emitArith token.SHL Ex.count Ex.count Ex.tInt 0 Ex.fn =
            Ok (VRegister 0 (0 + length (is1 ++ is2)) Ex.tInt,
                appended f2 0 (BasicBlock_append (is1 ++ is2) Ex.entry)
                         [BinOp token.SHL x' y' 0 Ex.tInt]).
Proof.
  split.
  - exact (proj1 (emitArith_cases token.LAND Ex.count Ex.count Ex.tInt 0
                    Ex.fn 0 Ex.entry) eq_refl).
  - exact (proj2 (emitArith_cases token.SHL Ex.count Ex.count Ex.tInt 0
                    Ex.fn 0 Ex.entry) (conj eq_refl eq_refl) eq_refl
                 (fun _ => ex_intro _ types.KInt eq_refl)).
Defined.

(** ** The registry of method sets *)

Lemma BasicKind_eqb_refl k : types.BasicKind_eqb k k = true.
Proof. destruct k; reflexivity. Qed.

(** Type identity is reflexive. *)
Lemma IsIdentical_refl : forall t, types.IsIdentical t t = true.
Proof.
  fix IH 1. intros t.
  destruct t as [k|n u|e|e|len e|k e|e|fs|vs|ms|r ps rs v]; cbn.
  - apply BasicKind_eqb_refl.
  - apply String.eqb_refl.
  - apply IH.
  - apply IH.
  - rewrite N.eqb_refl. apply IH.
  - rewrite !IH. reflexivity.
  - apply IH.
  - induction fs as [|[n u] fs IHfs]; [reflexivity|].
    rewrite String.eqb_refl, (IH u). exact IHfs.
  - induction vs as [|[n u] vs IHvs]; [reflexivity|].
    rewrite (IH u). exact IHvs.
  - apply bool_decide_eq_true. reflexivity.
  - rewrite Bool.eqb_reflx. cbn.
    apply andb_true_intro. split.
    + induction ps as [|[n u] ps IHps]; [reflexivity|].
      rewrite (IH u). exact IHps.
    + induction rs as [|[n u] rs IHrs]; [reflexivity|].
      rewrite (IH u). exact IHrs.
Qed.

Lemma typemap_find_lt m typ i :
  typemap_find m typ = Some i -> i < length m.
Proof.
  revert i. induction m as [|[k v] m IH]; intros i; cbn; [discriminate|].
  destruct (types.IsIdentical k typ).
  - intros [= <-]. lia.
  - destruct (typemap_find m typ) as [j|]; cbn; [|discriminate].
    intros [= <-]. specialize (IH j eq_refl). lia.
Qed.

Lemma typemap_find_app_None m typ v :
  typemap_find m typ = None ->
  typemap_find (m ++ [(typ, v)]) typ = Some (length m).
Proof.
  induction m as [|[k w] m IH]; cbn.
  - intros _. rewrite IsIdentical_refl. reflexivity.
  - destruct (types.IsIdentical k typ); [discriminate|].
    destruct (typemap_find m typ); cbn; [discriminate|].
    intros _. rewrite IH by reflexivity. reflexivity.
Qed.

Lemma extends_refl ms : extends ms ms.
Proof. intros i k m H. exists m. auto. Qed.

Lemma extends_trans ms1 ms2 ms3 :
  extends ms1 ms2 -> extends ms2 ms3 -> extends ms1 ms3.
Proof.
  intros H12 H23 i k m H.
  destruct (H12 i k m H) as (m2 & H2 & Hin2).
  destruct (H23 i k m2 H2) as (m3 & H3 & Hin3).
  exists m3. split; [exact H3|]. auto.
Qed.

Lemma extends_app ms l : extends ms (ms ++ l).
Proof.
  intros i k m H. exists m. split; [|auto].
  apply lookup_app_l_Some. exact H.
Qed.

Lemma extends_put ms mset id fn :
  (forall k m, ms !! mset = Some (k, m) -> m !! id = None) ->
  extends ms (alter (fun e => (fst e, <[id := fn]> (snd e))) mset ms).
Proof.
  intros Hfresh i k m H. destruct (decide (i = mset)) as [->|Hne].
  - exists (<[id := fn]> m). split.
    + rewrite list_lookup_alter_eq, H. reflexivity.
    + intros id' fn' H'. destruct (decide (id = id')) as [<-|Hid].
      * rewrite (Hfresh k m H) in H'. discriminate.
      * rewrite lookup_insert_ne by exact Hid. exact H'.
  - exists m. split; [|auto].
    rewrite list_lookup_alter_ne by auto. exact H.
Qed.

Lemma typemap_find_extends ms ms' typ i :
  extends ms ms' ->
  typemap_find ms typ = Some i -> typemap_find ms' typ = Some i.
Proof.
  revert ms' i. induction ms as [|[k m] ms IH]; intros ms' i Hext; cbn;
    [discriminate|].
  destruct (Hext 0 k m eq_refl) as (m' & H0 & _).
  destruct ms' as [|[k' m''] ms']; [discriminate|].
  cbn in H0. injection H0 as -> ->. cbn.
  destruct (types.IsIdentical k typ); [auto|].
  destruct (typemap_find ms typ) as [j|] eqn:Ej; cbn; [|discriminate].
  intros [= <-]. rewrite (IH ms' j); [reflexivity| |reflexivity].
  intros i' k1 m1 H1. exact (Hext (S i') k1 m1 H1).
Qed.

Lemma mset_get_extends prog prog' mset id fn :
  extends (methodSets prog) (methodSets prog') ->
  mset_get mset id prog = Some fn -> mset_get mset id prog' = Some fn.
Proof.
  unfold mset_get. intros Hext.
  destruct (methodSets prog !! mset) as [[k m]|] eqn:E; [|discriminate].
  destruct (Hext mset k m E) as (m' & -> & Hin). apply Hin.
Qed.

Lemma registry_entry_extends prog prog' typ id fn :
  extends (methodSets prog) (methodSets prog') ->
  registry_entry prog typ id = Some fn -> registry_entry prog' typ id = Some fn.
Proof.
  unfold registry_entry. intros Hext.
  destruct (typemap_find (methodSets prog) typ) as [i|] eqn:E; [|discriminate].
  rewrite (typemap_find_extends _ _ _ _ Hext E).
  apply mset_get_extends, Hext.
Qed.

(** Resolution does not touch the table of method sets. *)
Lemma build_Ok fn body prog n prog' :
  build fn body prog = Ok (n, prog') ->
  exists fn', body fn = Ok (tt, fn')
              /\ n = length (funcs prog)
              /\ prog' = set_funcs (funcs prog ++ [fn']) prog.
Proof.
  unfold build. destruct (body fn) as [[[] fn']|msg]; [|discriminate].
  intros [= <- <-]. exists fn'. auto.
Qed.

Lemma makeWrapper_methodSets typ meth prog fn prog' :
  makeWrapper typ meth prog = Ok (fn, prog') ->
  methodSets prog' = methodSets prog.
Proof.
  unfold makeWrapper. rewrite bind_get. intros H.
  apply build_Ok in H. destruct H as (fn' & _ & _ & ->). reflexivity.
Qed.

Lemma interfaceMethodWrapper_methodSets typ obj prog fn prog' :
  interfaceMethodWrapper typ obj prog = Ok (fn, prog') ->
  methodSets prog' = methodSets prog.
Proof.
  unfold interfaceMethodWrapper. rewrite bind_get.
  destruct (ifaceMethodWrappers prog !! types.addr obj).
  - intros [= _ <-]. reflexivity.
  - intros H. apply bind_Ok in H. destruct H as (n & prog1 & Hb & H).
    apply build_Ok in Hb. destruct Hb as (fn' & _ & _ & ->).
    rewrite bind_modify in H. injection H as _ <-. reflexivity.
Qed.

Lemma findMethod_methodSets meth prog fn prog' :
  findMethod meth prog = Ok (fn, prog') ->
  methodSets prog' = methodSets prog.
Proof.
  unfold findMethod. intros H. apply bind_Ok in H.
  destruct H as (recv & prog0 & Hr & H).
  assert (prog0 = prog) as ->.
  { unfold lift in Hr. destruct (recvType _); [|discriminate].
    injection Hr as _ <-. reflexivity. }
  destruct (_ || _).
  - exact (makeWrapper_methodSets _ _ _ _ _ H).
  - destruct (types.Underlying (types.Recv meth));
      try (rewrite bind_get in H; unfold lift in H;
           destruct (concreteMethod prog (types.Obj meth)); [|discriminate];
           injection H as _ <-; reflexivity).
    exact (interfaceMethodWrapper_methodSets _ _ _ _ _ H).
Qed.

Lemma mset_put_get mset id fn prog :
  mset < length (methodSets prog) ->
  mset_get mset id (set_methodSets
                      (alter (fun e => (fst e, <[id := fn]> (snd e)))
                             mset (methodSets prog)) prog) = Some fn.
Proof.
  intros Hlt. unfold mset_get. cbn.
  destruct (lookup_lt_is_Some_2 _ _ Hlt) as [[k m] E].
  rewrite list_lookup_alter_eq, E. cbn. apply lookup_insert_eq.
Qed.

Lemma populate_Ok mset meth prog prog' :
  populate mset meth prog = Ok (tt, prog') ->
  extends (methodSets prog) (methodSets prog')
  /\ (mset < length (methodSets prog) ->
      is_Some (mset_get mset (types.Id (types.Obj meth)) prog'))
  /\ (is_Some (mset_get mset (types.Id (types.Obj meth)) prog) ->
      prog' = prog).
Proof.
  unfold populate. rewrite bind_get.
  destruct (mset_get mset _ prog) as [fn0|] eqn:Eg.
  - intros [= <-]. split; [apply extends_refl|]. split; [|reflexivity].
    intros _. rewrite Eg. eauto.
  - intros H. apply bind_Ok in H. destruct H as (fn & prog1 & Hf & H).
    pose proof (findMethod_methodSets _ _ _ _ Hf) as Hms.
    unfold mset_put in H. injection H as <-. cbn.
    split; [|split].
    + rewrite Hms. apply extends_put. intros k m Hkm.
      unfold mset_get in Eg. rewrite Hkm in Eg. exact Eg.
    + intros Hlt. rewrite <- Hms in Hlt.
      rewrite (mset_put_get mset _ fn prog1 Hlt). eauto.
    + intros [x Hx]. discriminate Hx.
Qed.

Lemma populate_all_Ok mset tmset prog prog' :
  populate_all mset tmset prog = Ok (tt, prog') ->
  extends (methodSets prog) (methodSets prog').
Proof.
  revert prog. induction tmset as [|meth tmset IH]; intros prog; cbn.
  - intros [= <-]. apply extends_refl.
  - intros H. apply bind_Ok in H. destruct H as ([] & prog1 & H1 & H).
    eapply extends_trans; [apply (populate_Ok _ _ _ _ H1)|apply (IH _ H)].
Qed.

Lemma extends_length ms ms' : extends ms ms' -> length ms <= length ms'.
Proof.
  intros Hext. destruct ms as [|e ms] using rev_ind; [cbn; lia|].
  destruct e as [k m].
  destruct (Hext (length ms) k m) as (m' & H & _).
  { rewrite lookup_app_r, Nat.sub_diag by lia. reflexivity. }
  apply lookup_lt_Some in H. rewrite length_app. cbn. lia.
Qed.

(** What a call of [populateMethodSet] leaves behind. *)
Lemma populateMethodSet_Ok tm typ meth prog r prog' :
  populateMethodSet tm typ meth prog = Ok (r, prog') ->
  extends (methodSets prog) (methodSets prog')
  /\ (methodSet tm typ = [] -> r = None /\ prog' = prog)
  /\ (methodSet tm typ <> [] ->
      exists i k m,
        typemap_find (methodSets prog') typ = Some i
        /\ methodSets prog' !! i = Some (k, m)
        /\ r = Some m).
Proof.
  unfold populateMethodSet.
  destruct (methodSet tm typ) as [|sel tmset] eqn:Etm.
  { cbn. intros [= <- <-]. split; [apply extends_refl|].
    split; [auto|]. intros H. destruct (H eq_refl). }
  set (tms := sel :: tmset). change (Nat.eqb (length tms) 0) with false.
  cbv iota. rewrite bind_get. intros H.
  apply bind_Ok in H. destruct H as (mset & prog1 & Hm & H).
  assert (Hfind : typemap_find (methodSets prog1) typ = Some mset
                  /\ extends (methodSets prog) (methodSets prog1)).
  { destruct (typemap_find (methodSets prog) typ) as [i|] eqn:Ef.
    - injection Hm as <- <-. split; [exact Ef|apply extends_refl].
    - rewrite bind_modify in Hm. injection Hm as <- <-. cbn.
      split; [apply typemap_find_app_None, Ef|apply extends_app]. }
  destruct Hfind as [Hfind Hext1].
  rewrite bind_get in H.
  apply bind_Ok in H. destruct H as ([] & prog2 & Hp & H).
  rewrite bind_get in H. injection H as <- <-.
  assert (Hext2 : extends (methodSets prog1) (methodSets prog2)).
  { destruct (_ <? _)%nat.
    - destruct meth as [meth|].
      + apply (populate_Ok _ _ _ _ Hp).
      + apply (populate_all_Ok _ _ _ _ Hp).
    - injection Hp as <-. apply extends_refl. }
  split; [exact (extends_trans _ _ _ Hext1 Hext2)|].
  split; [intros [=]|]. intros _.
  pose proof (typemap_find_extends _ _ _ _ Hext2 Hfind) as Hfind2.
  pose proof (typemap_find_lt _ _ _ Hfind2) as Hlt.
  destruct (lookup_lt_is_Some_2 _ _ Hlt) as [[k m] E].
  exists mset, k, m. rewrite E. auto.
Qed.





(** C10.  For a type that is a pointer whose pointee has an interface as
    underlying type, the method set is taken to be empty whatever the
    front end enumerates: [methodSet] is empty, [populateMethodSet] and
    [MethodSet] return nil and [LookupMethod] no function, and the
    program, its functions and its tables are left exactly as they were,
    so that nothing is synthesized. *)
Theorem methodSet_pointer_to_interface
    (tm : types.type -> list types.Selection) (typ : types.type)
    (prog : Program) :
  isPointer typ = true ->
  is_Interface (types.Underlying (deref typ)) = true ->
  methodSet tm typ = []
  /\ (forall meth, populateMethodSet tm typ meth prog = Ok (None, prog))
  /\ Program_MethodSet tm typ prog = Ok (None, prog)
  /\ (forall meth, types.Recv meth = typ ->
                   LookupMethod tm meth prog = Ok (None, prog)).
Proof.
  intros Hp Hi.
  assert (Hnil : methodSet tm typ = []).
  { unfold methodSet. rewrite Hp.
    destruct (types.Underlying (deref typ)); try discriminate Hi.
    reflexivity. }
  assert (Hpop : forall meth,
             populateMethodSet tm typ meth prog = Ok (None, prog)).
  { intros meth. unfold populateMethodSet. rewrite Hnil. reflexivity. }
  split; [exact Hnil|]. split; [exact Hpop|]. split; [apply Hpop|].
  intros meth <-. unfold LookupMethod.
  rewrite (bind_eq _ _ _ _ _ (Hpop (Some meth))). reflexivity.
Qed.


(** The front end of the example gives the pointer to [I] a method; the
    registry gives it none. *)
Lemma methodSet_pointer_to_interface_witness :
  Ex_MethodSet (types.Pointer Ex.I) <> []
  /\ methodSet Ex_MethodSet (types.Pointer Ex.I) = []
  /\ Program_MethodSet Ex_MethodSet (types.Pointer Ex.I) Ex.prog
     = Ok (None, Ex.prog).
Proof.
  pose proof (methodSet_pointer_to_interface Ex_MethodSet
                (types.Pointer Ex.I) Ex.prog eq_refl eq_refl)
    as (H1 & _ & H3 & _).
  split; [discriminate|]. split; [exact H1|exact H3].
Defined.

(** ** Construction of wrappers *)

Lemma addParamObj_Ok obj f :
  addParamObj obj f =
    Ok (length (Params f),
        set_Params (Params f ++ [formal (length (Params f)) obj]) f).
Proof. reflexivity. Qed.

Lemma createParams_loop_Ok tparams last f :
  createParams_loop tparams last f =
    Ok (match tparams with
        | [] => last
        | _ => Some (length (Params f) + length tparams - 1)
        end,
        set_Params (Params f ++ formals (length (Params f)) tparams) f).
Proof.
  revert last f. induction tparams as [|obj tparams IH]; intros last f.
  - cbn. rewrite app_nil_r. destruct f; reflexivity.
  - cbn [createParams_loop].
    rewrite (bind_eq _ _ _ _ _ (addParamObj_Ok obj f)), IH.
    cbn [Params set_Params]. rewrite length_app. cbn [length formals].
    rewrite <- app_assoc, Nat.add_1_r. cbn [app].
    f_equal. f_equal.
    destruct tparams; f_equal; cbn; lia.
Qed.

Lemma length_formals n tparams : length (formals n tparams) = length tparams.
Proof.
  revert n. induction tparams as [|obj tparams IH]; intros n; cbn; [|rewrite IH];
    reflexivity.
Qed.

Lemma createParams_Ok f :
  (Sig_IsVariadic (Fn_Signature f) = true -> Sig_Params (Fn_Signature f) <> []) ->
  createParams f =
    Ok (tt, set_Params (created_params (Params f) (Fn_Signature f)) f).
Proof.
  intros Hv. unfold createParams, created_params.
  rewrite bind_get, (bind_eq _ _ _ _ _ (createParams_loop_Ok _ None f)).
  cbn [Fn_Signature set_Params].
  destruct (Sig_IsVariadic (Fn_Signature f)); [|reflexivity].
  destruct (Sig_Params (Fn_Signature f)) as [|obj tparams] eqn:E;
    [destruct (Hv eq_refl eq_refl)|].
  unfold modify. cbn [Params set_Params]. rewrite length_app, length_formals.
  reflexivity.
Qed.


Lemma created_params_cons p ps sig :
  exists rest, created_params (p :: ps) sig = p :: rest \/
               (ps = [] /\ Sig_Params sig = [] /\ Sig_IsVariadic sig = true).
Proof.
  unfold created_params. destruct (Sig_IsVariadic sig); [|eexists; left; reflexivity].
  cbn [length app].
  destruct (ps ++ formals (S (length ps)) (Sig_Params sig)) as [|q l] eqn:E.
  - exists []. right. destruct ps; [|discriminate E].
    destruct (Sig_Params sig); [auto|discriminate E].
  - eexists. left. cbn. rewrite ?Nat.sub_0_r. reflexivity.
Qed.


(** ** Interface method wrappers *)



(** ** Promotion and indirection wrappers *)

Lemma recvType_Ok obj rname oldRecv :
  types.recv obj = Some (types.Var rname oldRecv) ->
  recvType obj = Ok oldRecv.
Proof. unfold recvType. intros ->. reflexivity. Qed.

(** The wrapper that [makeWrapper] builds is [promotion_wrapper]. *)
Lemma makeWrapper_Ok typ meth prog rname oldRecv callee steps v :
  types.recv (types.Obj meth) = Some (types.Var rname oldRecv) ->
  (types.IsVariadic (types.Obj meth) = true ->
   types.Params (types.Obj meth) <> []) ->
  types.Index meth <> [] ->
  selection_steps 0 (length (prologue typ)) (base typ)
    (take (length (types.Index meth) - 1) (types.Index meth))
    = Some (steps, v) ->
  (is_Interface (types.Underlying oldRecv) = false ->
   concreteMethods prog !! types.addr (types.Obj meth) = Some callee) ->
  makeWrapper typ meth prog =
    Ok (length (funcs prog),
        set_funcs
          (funcs prog ++ [promotion_wrapper typ meth oldRecv callee steps v])
          prog).
Proof.
  intros Hrecv Hv Hidx Hsteps Hcallee.
  unfold makeWrapper. rewrite bind_get.
  set (mfunc := types.Obj meth) in *.
  set (sig := NewSignature _ _ _ _).
  set (fn0 := mkFunction _ _ _ _ _ _ _ _ _ _ _ _ _).
  set (blk0 := mkBasicBlock "entry"
                 [Alloc false "recv" (types.Pointer typ);
                  Store (spill typ) (VParameter 0 (receiver typ))] [] []).
  set (F := mkFunction (types.Name mfunc) None (Some meth) sig
              ("wrapper for " +:+ types.Func_String mfunc)%string
              (types.Pos mfunc) [receiver typ] [] [spill typ] [blk0]
              (Some 0) [] 0).
  set (F1 := set_Params (created_params [receiver typ] sig) F).
  assert (Ho1 : open_block F1 0 blk0) by (split; reflexivity).
  destruct (created_params_cons (receiver typ) [] sig)
    as (rest & [Eparams|(_ & E1 & E2)]); [|destruct (Hv E2 E1)].
  set (args := imap (VParameter ∘ S) rest).
  (* the base of the walk *)
  set (loads := if isPointer typ then [UnOp token.MUL (spill typ) typ] else []).
  set (G := appended F1 0 blk0 loads).
  set (blkG := BasicBlock_append loads blk0).
  assert (HoG : open_block G 0 blkG) by (split; reflexivity).
  assert (Hbase : (if isPointer typ then emitLoad (spill typ)
                   else ret (spill typ)) F1 = Ok (base typ, G)).
  { unfold base, G, loads. destruct (isPointer typ).
    - exact (emitLoad_Ok F1 0 blk0 (spill typ) Ho1).
    - rewrite (appended_nil F1 0 blk0 Ho1). reflexivity. }
  (* the walk *)
  pose proof (emitImplicitSelections_Ok
                (take (length (types.Index meth) - 1) (types.Index meth))
                G 0 blkG (base typ) steps v HoG Hsteps) as Hwalk.
  set (H := appended G 0 blkG steps) in *.
  set (blkH := BasicBlock_append steps blkG).
  assert (HoH : open_block H 0 blkH) by (split; reflexivity).
  (* the call *)
  set (n := length (prologue typ ++ steps)).
  set (fc := wrapper_call mfunc oldRecv callee v n args).
  set (K := appended H 0 blkH (fst fc)).
  set (blkK := BasicBlock_append (fst fc) blkH).
  assert (HoK : open_block K 0 blkK) by (split; reflexivity).
  assert (Hcall :
    match types.Underlying oldRecv with
    | types.Interface _ =>
        x <- emitLoad v ;; ret (mkCallCommon (Some x) (Some mfunc) [])
    | _ =>
        v0 <- (if negb (isPointer oldRecv) then emitLoad v else ret v) ;;
        callee0 <- lift (concreteMethod prog mfunc) ;;
        ret (mkCallCommon
               (Some (VFunction callee0 (types.Func_Type mfunc))) None [v0])
    end H =
    Ok (mkCallCommon (Call_Value (snd fc)) (Call_Method (snd fc))
          (take (length (Call_Args (snd fc)) - length args)
                (Call_Args (snd fc))), K)).
  { assert (Hload : emitLoad v H =
                      Ok (VRegister 0 n (deref (Value_Type v)),
                          appended H 0 blkH
                            [UnOp token.MUL v (deref (Value_Type v))])).
    { rewrite (emitLoad_Ok H 0 blkH v HoH). reflexivity. }
    assert (Hconcrete : is_Interface (types.Underlying oldRecv) = false ->
      (v0 <- (if negb (isPointer oldRecv) then emitLoad v else ret v) ;;
       callee0 <- lift (concreteMethod prog mfunc) ;;
       ret (mkCallCommon
              (Some (VFunction callee0 (types.Func_Type mfunc))) None [v0])) H
      = Ok (mkCallCommon (Call_Value (snd fc)) (Call_Method (snd fc))
              (take (length (Call_Args (snd fc)) - length args)
                    (Call_Args (snd fc))), K)).
    { intros Hi. specialize (Hcallee Hi).
      assert (Hcm : forall s : Function,
                 lift (concreteMethod prog mfunc) s = Ok (callee, s)).
      { intros s. unfold lift, concreteMethod. rewrite Hcallee. reflexivity. }
      unfold K, fc, wrapper_call. rewrite Hi.
      destruct (isPointer oldRecv); cbn [negb fst snd].
      - rewrite bind_ret, (bind_eq _ _ _ _ _ (Hcm H)).
        rewrite (appended_nil H 0 blkH HoH). unfold ret. do 2 f_equal.
        cbn [Call_Value Call_Method Call_Args length].
        replace (S (length args) - length args) with 1 by lia. reflexivity.
      - rewrite (bind_eq _ _ _ _ _ Hload), (bind_eq _ _ _ _ _ (Hcm _)).
        unfold ret. do 2 f_equal.
        cbn [Call_Value Call_Method Call_Args length].
        replace (S (length args) - length args) with 1 by lia. reflexivity. }
    destruct (types.Underlying oldRecv) eqn:Eu;
      try (apply Hconcrete; reflexivity).
    unfold K, fc, wrapper_call. rewrite Eu. cbn [is_Interface fst snd].
    rewrite (bind_eq _ _ _ _ _ Hload). unfold ret. do 2 f_equal.
    cbn [Call_Value Call_Method Call_Args].
    rewrite Nat.sub_diag. reflexivity. }
  assert (Hargs : Call_Args (snd fc) =
                  take (length (Call_Args (snd fc)) - length args)
                       (Call_Args (snd fc)) ++ args).
  { unfold fc, wrapper_call.
    destruct (is_Interface _); [|destruct (isPointer oldRecv)];
      cbn [snd Call_Args length];
      rewrite ?Nat.sub_diag;
      try replace (S (length args) - length args) with 1 by lia; reflexivity. }
  (* the whole body *)
  unfold build.
  match goal with
  | |- match ?body with _ => _ end = _ =>
      assert (Hbody : body
                = Ok (tt, promotion_wrapper typ meth oldRecv callee steps v))
  end.
  { assert (Hstart : startBody fn0 =
                       Ok (tt, set_currentBlock (Some 0)
                                 (set_Blocks [mkBasicBlock "entry" [] [] []] fn0)))
      by reflexivity.
    rewrite (bind_eq _ _ _ _ _ Hstart).
    assert (Hspill : addSpilledParam (types.Var "recv" typ)
                       (set_currentBlock (Some 0)
                          (set_Blocks [mkBasicBlock "entry" [] [] []] fn0))
                     = Ok (tt, F)) by reflexivity.
    rewrite (bind_eq _ _ _ _ _ Hspill).
    rewrite (bind_eq _ _ _ _ _ (createParams_Ok F Hv)).
    change (set_Params (created_params (Params F) (Fn_Signature F)) F) with F1.
    rewrite bind_get. cbv beta.
    change (Locals F1 !! 0) with (Some (spill typ)). cbv iota.
    rewrite bind_ret, (bind_eq _ _ _ _ _ Hbase). cbv zeta.
    destruct (types.Index meth) as [|i0 indices] eqn:Eidx;
      [destruct (Hidx eq_refl)|].
    rewrite bind_ret, (bind_eq _ _ _ _ _ Hwalk).
    assert (Hrt : lift (recvType mfunc) H = Ok (oldRecv, H)).
    { unfold lift. rewrite (recvType_Ok _ _ _ Hrecv). reflexivity. }
    rewrite (bind_eq _ _ _ _ _ Hrt), (bind_eq _ _ _ _ _ Hcall).
    rewrite bind_get. cbv beta. unfold Params_values.
    change (Params K) with (created_params [receiver typ] sig).
    rewrite Eparams. cbn [imap]. rewrite bind_ret.
    cbn [Call_Value Call_Method Call_Args]. fold args. rewrite <- Hargs.
    replace (mkCallCommon (Call_Value (snd fc)) (Call_Method (snd fc))
               (Call_Args (snd fc))) with (snd fc)
      by (destruct (snd fc); reflexivity).
    rewrite (bind_eq _ _ _ _ _ (emitTailCall_Ok K (snd fc) 0 blkK HoK)).
    unfold finishBody, modify. do 2 f_equal.
    unfold promotion_wrapper. cbv zeta.
    fold mfunc. change (wrapper_signature typ mfunc) with sig.
    rewrite Eparams. cbn [imap tail]. fold args. fold n. fold fc.
    apply Function_ext; try reflexivity.
    - (* the parameters *) exact Eparams.
    - (* the block *)
      cbn [Blocks].
      change (Blocks _)
        with [mkBasicBlock "entry"
                ((((Instrs blk0 ++ loads) ++ steps) ++ fst fc)
                 ++ tailcall 0 (length (((Instrs blk0 ++ loads) ++ steps)
                                        ++ fst fc))
                      (snd fc) (Sig_Results sig)) [] []].
      change (Instrs blk0 ++ loads) with (prologue typ).
      rewrite <- !app_assoc. do 5 f_equal. f_equal.
      unfold n. rewrite !length_app. lia. }
  rewrite Hbody. reflexivity.
Qed.

(** C3, as the code has it.  For a selection whose walk, from the base
    of the wrapper along the index path without its last index, emits
    [steps] and arrives at [v], whose method has a receiver of type
    [oldRecv] and, unless that is an interface, the function [callee] in
    the program: [makeWrapper] succeeds with a new function whose single
    block is the prologue, the steps of the walk and then
    - for an abstract method, a load of [v] and the abstract call of the
      method on the value loaded;
    - for a concrete method with a pointer receiver, the direct call of
      [callee] with [v] as first argument, without a load;
    - for a concrete method with a value receiver, a load of [v] and the
      direct call of [callee] with the value loaded as first argument;
    the parameters after the receiver are the remaining arguments, as
    they are, and the call is a tail call. *)
Theorem makeWrapper_call (typ : types.type) (meth : types.Selection)
    (prog : Program) (rname : string) (oldRecv : types.type) (callee : nat)
    (steps : list Instruction) (v : Value) :
  types.recv (types.Obj meth) = Some (types.Var rname oldRecv) ->
  (types.IsVariadic (types.Obj meth) = true ->
   types.Params (types.Obj meth) <> []) ->
  types.Index meth <> [] ->
  selection_steps 0 (length (prologue typ)) (base typ)
    (take (length (types.Index meth) - 1) (types.Index meth))
    = Some (steps, v) ->
  (is_Interface (types.Underlying oldRecv) = false ->
   concreteMethods prog !! types.addr (types.Obj meth) = Some callee) ->
  exists w,
    makeWrapper typ meth prog
      = Ok (length (funcs prog), set_funcs (funcs prog ++ [w]) prog)
    /\ Params w =
         created_params [receiver typ] (wrapper_signature typ (types.Obj meth))
    /\ currentBlock w = None
    /\ let mfunc := types.Obj meth in
       let args := tail (imap VParameter (Params w)) in
       let n := length (prologue typ ++ steps) in
       let load := UnOp token.MUL v (deref (Value_Type v)) in
       let loaded := VRegister 0 n (deref (Value_Type v)) in
       let direct := Some (VFunction callee (types.Func_Type mfunc)) in
       let results := types.Results mfunc in
       Blocks w =
         [mkBasicBlock "entry"
            (prologue typ ++ steps ++
             if is_Interface (types.Underlying oldRecv)
             then load :: tailcall 0 (S n)
                            (mkCallCommon (Some loaded) (Some mfunc) args)
                            results
             else if isPointer oldRecv
             then tailcall 0 n (mkCallCommon direct None (v :: args)) results
             else load :: tailcall 0 (S n)
                            (mkCallCommon direct None (loaded :: args))
                            results)
            [] []].
Proof.
  intros Hrecv Hv Hidx Hsteps Hcallee.
  exists (promotion_wrapper typ meth oldRecv callee steps v).
  split; [exact (makeWrapper_Ok typ meth prog rname oldRecv callee steps v
                   Hrecv Hv Hidx Hsteps Hcallee)|].
  split; [reflexivity|]. split; [reflexivity|].
  cbv zeta. unfold promotion_wrapper, wrapper_call. cbv zeta.
  cbn [Blocks Params]. do 3 f_equal.
  destruct (is_Interface _); [|destruct (isPointer oldRecv)];
    cbn [fst snd length app]; rewrite ?Nat.add_1_r, ?Nat.add_0_r; reflexivity.
Qed.

(** The wrapper of [A] for the method [f] of [*C], which [A] reaches
    through [B] and [*C]. *)
Lemma makeWrapper_call_witness :
  exists w,
    makeWrapper Ex.A Ex_A_f Ex.prog
      = Ok (2, set_funcs (funcs Ex.prog ++ [w]) Ex.prog)
    /\ currentBlock w = None.
Proof.
  destruct (makeWrapper_call Ex.A Ex_A_f Ex.prog "c" (types.Pointer Ex.C) 0
              [FieldAddr (spill Ex.A) 0 (types.Pointer Ex.B);
               FieldAddr (VRegister 0 2 (types.Pointer Ex.B)) 0
                         (types.Pointer (types.Pointer Ex.C));
               UnOp token.MUL
                    (VRegister 0 3 (types.Pointer (types.Pointer Ex.C)))
                    (types.Pointer Ex.C)]
              (VRegister 0 4 (types.Pointer Ex.C)))
    as (w & Hrun & _ & Hcur & _).
  - reflexivity.
  - intros H. discriminate H.
  - intros H. discriminate H.
  - reflexivity.
  - intros _. reflexivity.
  - exists w. split; [exact Hrun|exact Hcur].
Defined.

(** The claim as worded fails for an abstract method: in the wrapper of
    [S] for the method [m] of the embedded interface [I], the walk
    arrives at the address of the field, register 2, of type pointer to
    [I]; the code then emits a load, and the receiver of the abstract
    call is the value loaded, register 3, not the value arrived at. *)
Lemma makeWrapper_abstract_load :
  selection_steps 0 (length (prologue Ex.S)) (base Ex.S) [0%nat]
    = Some ([FieldAddr (spill Ex.S) 0 (types.Pointer Ex.I)],
            VRegister 0 2 (types.Pointer Ex.I))
  /\ match makeWrapper Ex.S Ex_S_m Ex.prog with
     | Ok (fn, prog1) =>
         Blocks <$> funcs prog1 !! fn =
           Some [mkBasicBlock "entry"
                   [Alloc false "recv" (types.Pointer Ex.S);
                    Store (spill Ex.S) (VParameter 0 (receiver Ex.S));
                    FieldAddr (spill Ex.S) 0 (types.Pointer Ex.I);
                    UnOp token.MUL (VRegister 0 2 (types.Pointer Ex.I)) Ex.I;
                    Call (mkCallCommon (Some (VRegister 0 3 Ex.I))
                                       (Some Ex.I_m) [])
                         (types.Tuple []);
                    Return []] [] []]
     | Panic _ => False
     end.
Proof. split; reflexivity. Qed.

(** ** Resolution *)

Lemma keeps_ret {A} (a : A) : keeps_method (ret a).
Proof. intros f a' f' [= _ <-]. reflexivity. Qed.

Lemma keeps_panic {A} msg : keeps_method (@panic Function A msg).
Proof. intros f a f' H. discriminate H. Qed.

Lemma keeps_lift {A} (r : result A) : keeps_method (lift r).
Proof. intros f a f' H. unfold lift in H. destruct r; [|discriminate H].
  injection H as _ <-. reflexivity. Qed.

Lemma keeps_get : keeps_method get.
Proof. intros f a f' [= _ <-]. reflexivity. Qed.

Lemma keeps_bind {A B} (m : M Function A) (k : A -> M Function B) :
  keeps_method m -> (forall a, keeps_method (k a)) -> keeps_method (bind m k).
Proof.
  intros Hm Hk f b f' H. apply bind_Ok in H. destruct H as (a & f1 & H1 & H2).
  rewrite (Hk a f1 b f' H2). exact (Hm f a f1 H1).
Qed.

Lemma keeps_modify (g : Function -> Function) :
  (forall f, method (g f) = method f) -> keeps_method (modify g).
Proof. intros Hg f a f' [= _ <-]. apply Hg. Qed.

Lemma keeps_emit i : keeps_method (emit i).
Proof.
  intros f a f'. unfold emit. destruct (currentBlock f); [|discriminate].
  destruct (Blocks f !! n); [|discriminate]. intros [= _ <-]. reflexivity.
Qed.

Lemma keeps_emitLoad addr : keeps_method (emitLoad addr).
Proof.
  exact (keeps_emit (UnOp token.MUL addr (deref (Value_Type addr)))).
Qed.

Lemma keeps_emitExtract tuple index : keeps_method (emitExtract tuple index).
Proof.
  unfold emitExtract. destruct (Value_Type tuple); try apply keeps_panic.
  destruct (vars !! index) as [r|];
    [exact (keeps_emit (Extract tuple index (types.var_Type r)))
    |apply keeps_panic].
Qed.

Lemma keeps_emitTailCall_loop tuple n :
  forall i results, keeps_method (emitTailCall_loop tuple i n results).
Proof.
  induction n as [|n IH]; intros i results; cbn; [apply keeps_ret|].
  apply keeps_bind; [apply keeps_emitExtract|]. intros v. apply IH.
Qed.

Lemma keeps_emitTailCall call : keeps_method (emitTailCall call).
Proof.
  unfold emitTailCall. apply keeps_bind; [apply keeps_get|]. intros f.
  apply keeps_bind.
  { destruct (Nat.eqb _ _); [|apply keeps_ret].
    destruct (_ !! _); [apply keeps_ret|apply keeps_panic]. }
  intros typ. apply keeps_bind; [apply (keeps_emit (Call call typ))|].
  intros tuple. apply keeps_bind.
  { destruct (length _) as [|[|n]];
      [apply keeps_ret|apply keeps_ret|apply keeps_emitTailCall_loop]. }
  intros results. apply keeps_bind; [apply (keeps_emit (Return results))|].
  intros _. apply keeps_modify. reflexivity.
Qed.

Lemma keeps_emitImplicitSelections indices :
  forall v, keeps_method (emitImplicitSelections v indices).
Proof.
  induction indices as [|index indices IH]; intros v; cbn;
    [apply keeps_ret|].
  apply keeps_bind.
  { destruct (types.Underlying _); try apply keeps_panic.
    destruct (_ !! _); [apply keeps_ret|apply keeps_panic]. }
  intros fld. apply keeps_bind; [|intros v'; apply IH].
  destruct (isPointer (Value_Type v)).
  - apply keeps_bind; [apply (keeps_emit (FieldAddr _ _ _))|]. intros v'.
    destruct (isPointer _); [apply keeps_emitLoad|apply keeps_ret].
  - apply (keeps_emit (Field _ _ _)).
Qed.

Lemma keeps_addParamObj obj : keeps_method (addParamObj obj).
Proof. intros f a f' [= _ <-]. reflexivity. Qed.

Lemma keeps_createParams_loop tparams :
  forall last, keeps_method (createParams_loop tparams last).
Proof.
  induction tparams as [|obj tparams IH]; intros last; cbn;
    [apply keeps_ret|].
  apply keeps_bind; [apply keeps_addParamObj|]. intros i. apply IH.
Qed.

Lemma keeps_createParams : keeps_method createParams.
Proof.
  unfold createParams. apply keeps_bind; [apply keeps_get|]. intros f.
  apply keeps_bind; [apply keeps_createParams_loop|]. intros last.
  destruct (Sig_IsVariadic _); [|apply keeps_ret].
  destruct last; [|apply keeps_panic]. apply keeps_modify. reflexivity.
Qed.

Lemma keeps_startBody : keeps_method startBody.
Proof.
  unfold startBody. apply keeps_bind.
  - intros f a f' [= _ <-]. reflexivity.
  - intros b. apply keeps_modify. reflexivity.
Qed.

Lemma keeps_addSpilledParam obj : keeps_method (addSpilledParam obj).
Proof.
  unfold addSpilledParam. apply keeps_bind; [apply keeps_addParamObj|].
  intros i. apply keeps_bind; [apply keeps_get|]. intros f.
  destruct (_ !! _); [|apply keeps_panic].
  apply keeps_bind; [apply (keeps_emit (Alloc _ _ _))|]. intros sp.
  apply keeps_bind; [apply keeps_modify; reflexivity|]. intros _.
  apply (keeps_emit (Store _ _)).
Qed.

Lemma keeps_finishBody : keeps_method finishBody.
Proof. apply keeps_modify. reflexivity. Qed.

(** A promotion wrapper is a new function, for its selection. *)
Lemma makeWrapper_new typ meth prog fn prog1 :
  makeWrapper typ meth prog = Ok (fn, prog1) ->
  exists w, fn = length (funcs prog)
            /\ prog1 = set_funcs (funcs prog ++ [w]) prog
            /\ method w = Some meth.
Proof.
  unfold makeWrapper. rewrite bind_get. intros H.
  apply build_Ok in H. destruct H as (w & Hbody & -> & ->).
  exists w. split; [reflexivity|]. split; [reflexivity|].
  revert Hbody.
  match goal with
  | |- ?body ?fn0 = _ -> _ =>
      assert (Hk : keeps_method body); [|intros Hb; exact (Hk _ _ _ Hb)]
  end.
  apply keeps_bind; [apply keeps_startBody|]. intros _.
  apply keeps_bind; [apply keeps_addSpilledParam|]. intros _.
  apply keeps_bind; [apply keeps_createParams|]. intros _.
  apply keeps_bind; [apply keeps_get|]. intros f.
  apply keeps_bind;
    [destruct (_ !! _); [apply keeps_ret|apply keeps_panic]|]. intros v.
  apply keeps_bind;
    [destruct (isPointer typ); [apply keeps_emitLoad|apply keeps_ret]|].
  intros v0. cbv zeta.
  apply keeps_bind;
    [destruct (types.Index meth); [apply keeps_panic|apply keeps_ret]|].
  intros path.
  apply keeps_bind; [apply keeps_emitImplicitSelections|]. intros v1.
  apply keeps_bind; [apply keeps_lift|]. intros oldRecv.
  apply keeps_bind.
  { assert (Hc : keeps_method
               (v2 <- (if negb (isPointer oldRecv) then emitLoad v1
                       else ret v1) ;;
                callee <- lift (concreteMethod prog (types.Obj meth)) ;;
                ret (mkCallCommon
                       (Some (VFunction callee
                                (types.Func_Type (types.Obj meth))))
                       None [v2]))).
    { apply keeps_bind;
        [destruct (negb _); [apply keeps_emitLoad|apply keeps_ret]|].
      intros v2. apply keeps_bind; [apply keeps_lift|]. intros callee.
      apply keeps_ret. }
    destruct (types.Underlying oldRecv); try exact Hc.
    apply keeps_bind; [apply keeps_emitLoad|]. intros x. apply keeps_ret. }
  intros c. apply keeps_bind; [apply keeps_get|]. intros f0.
  apply keeps_bind;
    [destruct (Params_values f0); [apply keeps_panic|apply keeps_ret]|].
  intros args. apply keeps_bind; [apply keeps_emitTailCall|]. intros _.
  apply keeps_finishBody.
Qed.

(** An interface method wrapper is an old function of the table or a
    new function that is a wrapper for no selection. *)
Lemma interfaceMethodWrapper_new typ obj prog fn prog1 :
  interfaceMethodWrapper typ obj prog = Ok (fn, prog1) ->
  (ifaceMethodWrappers prog !! types.addr obj = Some fn /\ prog1 = prog)
  \/ exists w, funcs prog1 = funcs prog ++ [w] /\ method w = None.
Proof.
  unfold interfaceMethodWrapper. rewrite bind_get.
  destruct (ifaceMethodWrappers prog !! types.addr obj) as [fn0|].
  { intros [= <- <-]. left. auto. }
  intros H. right. apply bind_Ok in H. destruct H as (n & prog0 & Hb & H).
  apply build_Ok in Hb. destruct Hb as (w & Hbody & -> & ->).
  rewrite bind_modify in H. injection H as _ <-.
  exists w. split; [reflexivity|].
  revert Hbody.
  match goal with
  | |- ?body ?fn0 = _ -> _ =>
      assert (Hk : keeps_method body); [|intros Hb; exact (Hk _ _ _ Hb)]
  end.
  apply keeps_bind; [apply keeps_startBody|]. intros _.
  apply keeps_bind; [intros f a f' [= _ <-]; reflexivity|]. intros _.
  apply keeps_bind; [apply keeps_createParams|]. intros _.
  apply keeps_bind; [apply keeps_get|]. intros f.
  destruct (Params_values f); [apply keeps_panic|].
  apply keeps_bind; [apply keeps_emitTailCall|]. intros _.
  apply keeps_finishBody.
Qed.

(** C1.  For a selection of a method set, of a method that has a
    receiver: a promotion wrapper is made if and only if the index path
    is longer than 1 or the addressing mode of the receiver of the
    selection differs from the one the method declares.  In that case
    [findMethod] is [makeWrapper]; else, if the receiver type of the
    selection has an interface as underlying type, it is
    [interfaceMethodWrapper]; else it returns the function the program
    has for the method object and leaves the program as it is, and
    panics if there is none.  Whenever it returns, a promotion wrapper
    for the selection was made (a new function of the program, for this
    selection) if and only if the first condition holds. *)
Theorem findMethod_decision (meth : types.Selection) (prog : Program)
    (rname : string) (recv : types.type) :
  types.recv (types.Obj meth) = Some (types.Var rname recv) ->
  method_set_selection meth = true ->
  let wrap := (1 <? length (types.Index meth))%nat
              || mode_differs meth recv in
  let iface := is_Interface (types.Underlying (types.Recv meth)) in
  (wrap = true ->
   findMethod meth prog = makeWrapper (types.Recv meth) meth prog)
  /\ (wrap = false -> iface = true ->
      findMethod meth prog =
        interfaceMethodWrapper (types.Recv meth) (types.Obj meth) prog)
  /\ (wrap = false -> iface = false ->
      match concreteMethods prog !! types.addr (types.Obj meth) with
      | Some fn => findMethod meth prog = Ok (fn, prog)
      | None => findMethod meth prog
                = Panic ("no concrete method: "
                           +:+ types.Func_String (types.Obj meth))
      end)
  /\ (forall fn prog1,
        findMethod meth prog = Ok (fn, prog1) ->
        (wrap = true <->
         exists w, fn = length (funcs prog)
                   /\ funcs prog1 = funcs prog ++ [w]
                   /\ method w = Some meth)).
Proof.
  intros Hrecv Hms wrap iface.
  assert (Hwrap : (1 <? length (types.Index meth))%nat
                  || negb (isPointer recv) && isPointer (types.Recv meth)
                  = wrap).
  { subst wrap. unfold mode_differs.
    unfold method_set_selection in Hms. rewrite Hrecv in Hms.
    cbn [types.var_Type] in Hms.
    destruct (1 <? length (types.Index meth))%nat; [reflexivity|].
    destruct (isPointer recv), (isPointer (types.Recv meth));
      try reflexivity; discriminate Hms. }
  assert (Hunfold : findMethod meth prog =
            if wrap then makeWrapper (types.Recv meth) meth prog
            else match types.Underlying (types.Recv meth) with
                 | types.Interface _ =>
                     interfaceMethodWrapper (types.Recv meth) (types.Obj meth)
                       prog
                 | _ => lift (concreteMethod prog (types.Obj meth)) prog
                 end).
  { unfold findMethod.
    assert (Hrt : lift (recvType (types.Obj meth)) prog = Ok (recv, prog)).
    { unfold lift. rewrite (recvType_Ok _ _ _ Hrecv). reflexivity. }
    rewrite (bind_eq _ _ _ _ _ Hrt). cbv zeta. rewrite Hwrap.
    destruct wrap; [reflexivity|].
    destruct (types.Underlying (types.Recv meth)); reflexivity. }
  clearbody wrap.
  assert (Hconcrete : wrap = false -> iface = false ->
            findMethod meth prog
            = lift (concreteMethod prog (types.Obj meth)) prog).
  { intros Hw Hi. rewrite Hunfold, Hw. subst iface.
    destruct (types.Underlying (types.Recv meth)); try reflexivity.
    discriminate Hi. }
  split; [intros Hw; rewrite Hunfold, Hw; reflexivity|].
  split.
  { intros Hw Hi. rewrite Hunfold, Hw. subst iface.
    destruct (types.Underlying (types.Recv meth)); try discriminate Hi.
    reflexivity. }
  split.
  { intros Hw Hi. rewrite (Hconcrete Hw Hi). unfold lift, concreteMethod.
    destruct (concreteMethods prog !! _); reflexivity. }
  intros fn prog1 Hrun. split.
  - intros Hw. rewrite Hunfold, Hw in Hrun.
    destruct (makeWrapper_new _ _ _ _ _ Hrun) as (w & -> & -> & Hm).
    exists w. auto.
  - intros (w & -> & Hfuncs & Hm).
    destruct wrap eqn:Hw; [reflexivity|]. exfalso.
    destruct iface eqn:Hi.
    + rewrite Hunfold in Hrun. subst iface.
      destruct (types.Underlying (types.Recv meth)); try discriminate Hi.
      destruct (interfaceMethodWrapper_new _ _ _ _ _ Hrun)
        as [[_ ->]|(w' & Hfuncs' & Hm')].
      * apply (f_equal length) in Hfuncs. rewrite length_app in Hfuncs.
        cbn in Hfuncs. lia.
      * rewrite Hfuncs' in Hfuncs. apply app_inv_head in Hfuncs.
        injection Hfuncs as ->. congruence.
    + rewrite (Hconcrete eq_refl eq_refl) in Hrun. unfold lift in Hrun.
      destruct (concreteMethod prog (types.Obj meth)); [|discriminate Hrun].
      injection Hrun as _ <-.
      apply (f_equal length) in Hfuncs. rewrite length_app in Hfuncs.
      cbn in Hfuncs. lia.
Qed.

(** The value method [g] of [C] selected on a pointer to [C] resolves to
    a wrapper; the method [f], declared on the pointer to [C] and
    selected on it, to the function the program has for it. *)
Lemma findMethod_decision_witness :
  findMethod Ex_pC_g Ex.prog = makeWrapper (types.Pointer Ex.C) Ex_pC_g Ex.prog
  /\ findMethod Ex_pC_f Ex.prog = Ok (0, Ex.prog).
Proof.
  split.
  - exact (proj1 (findMethod_decision Ex_pC_g Ex.prog "c" Ex.C
                    eq_refl eq_refl) eq_refl).
  - exact (proj1 (proj2 (proj2 (findMethod_decision Ex_pC_f Ex.prog "c"
                                  (types.Pointer Ex.C) eq_refl eq_refl)))
             eq_refl eq_refl).
Defined.

(** ** More on the emitters *)

Lemma bind_ext {S A B} (m : M S A) (k1 k2 : A -> M S B) s :
  (forall a s1, k1 a s1 = k2 a s1) -> bind m k1 s = bind m k2 s.
Proof. intros H. unfold bind. destruct (m s) as [[a s1]|msg]; auto. Qed.

(** X1.  Implicit selections compose: the walk over a path made of two
    parts is the walk over the first part followed, from the value it
    arrives at, by the walk over the second; in whatever state, and with
    the same panic if one part panics. *)
Theorem emitImplicitSelections_app (p q : list nat) (v : Value)
    (f : Function) :
  emitImplicitSelections v (p ++ q) f =
    (v' <- emitImplicitSelections v p ;; emitImplicitSelections v' q) f.
Proof.
  revert v f. induction p as [|index p IH]; intros v f; [reflexivity|].
  cbn [app emitImplicitSelections].
  rewrite (bind_assoc _ _ (fun v' => emitImplicitSelections v' q)).
  apply bind_ext. intros fld f1.
  rewrite (bind_assoc _ _ (fun v' => emitImplicitSelections v' q)).
  apply bind_ext. intros v1 f2. apply IH.
Qed.

(** *** Conversions *)

Lemma emit_Ok_register i f v f' :
  emit i f = Ok (v, f') -> exists b n, v = register b n i.
Proof.
  unfold emit. destruct (currentBlock f) as [b|]; [|discriminate].
  destruct (Blocks f !! b) as [blk|]; [|discriminate].
  intros [= <- _]. eauto.
Qed.

(** Whatever [emitConv] returns has a type identical to the target. *)
Lemma emitConv_type val typ f v' f' :
  emitConv val typ f = Ok (v', f') ->
  types.IsIdentical (Value_Type v') typ = true.
Proof.
  rewrite emitConv_unfold. cbv zeta.
  destruct (types.IsIdentical (Value_Type val) typ) eqn:Eid.
  { intros [= <- _]. exact Eid. }
  assert (Hreg : forall i : Instruction,
             Instruction_Type i = Some typ ->
             forall (v : emit_result i) f0 f1 (cast : emit_result i -> Value),
               (forall b n, Value_Type (cast (register b n i)) = typ) ->
               emit i f0 = Ok (v, f1) ->
               types.IsIdentical (Value_Type (cast v)) typ = true).
  { intros i _ v f0 f1 cast Hcast He.
    destruct (emit_Ok_register i f0 v f1 He) as (b & n & ->).
    rewrite Hcast. apply IsIdentical_refl. }
  destruct (isValuePreserving _ _).
  { intros H. exact (Hreg (ChangeType val typ) eq_refl v' f f' (fun x => x)
                       (fun _ _ => eq_refl) H). }
  assert (Hconst : match val with
                   | VConst _ c =>
                       NewConst (Const_Value c) typ (Const_pos c) (Const_endP c)
                   | _ => emit (Convert val typ)
                   end f = Ok (v', f') ->
                   types.IsIdentical (Value_Type v') typ = true).
  { destruct val as [i p|i c|a c|fn sig|blk0 idx t];
      try (intros H; exact (Hreg (Convert _ typ) eq_refl v' f f' (fun x => x)
                              (fun _ _ => eq_refl) H)).
    intros [= <- _]. apply IsIdentical_refl. }
  assert (Hbox : forall (inner : M Function Value),
             (val0 <- inner ;;
              needMethodsOf (Value_Type val0) ;;;
              emit (MakeInterface val0 typ)) f = Ok (v', f') ->
             types.IsIdentical (Value_Type v') typ = true).
  { intros inner H. apply bind_Ok in H. destruct H as (val0 & f1 & _ & H).
    apply bind_Ok in H. destruct H as ([] & f2 & _ & H).
    exact (Hreg (MakeInterface val0 typ) eq_refl v' f2 f' (fun x => x)
             (fun _ _ => eq_refl) H). }
  destruct (types.Underlying typ); try exact Hconst.
  destruct (types.Underlying (Value_Type val)) as [k| | | | | | | | | |];
    try apply Hbox.
  - destruct k; try apply Hbox. intros [= <- _]. apply IsIdentical_refl.
  - intros H. exact (Hreg (ChangeInterface val typ) eq_refl v' f f'
                       (fun x => x) (fun _ _ => eq_refl) H).
Qed.

Ltac solve_emit_bounded Ho :=
  match goal with
  | |- exists v' f' instrs, emit ?i ?f = Ok (v', f') /\ _ =>
      let v := fresh "v" in
      let f' := fresh "f'" in
      let He := fresh "He" in
      let Hm := fresh "Hm" in
      destruct (emit_emitted f _ _ i Ho) as (v & f' & He & Hm);
      eexists _, _, _; split; [exact He|split; [exact Hm|cbn; lia]]
  end.

Lemma emitConv_fuel_1_Basic_bounded f b blk val k :
  open_block f b blk ->
  exists v' f' instrs,
    emitConv_fuel 1 val (types.Basic k) f = Ok (v', f')
    /\ emitted f f' b blk instrs /\ length instrs <= 1.
Proof.
  intros Ho. cbn [emitConv_fuel types.Underlying].
  destruct (types.IsIdentical _ _).
  { exists val, f, []. split; [reflexivity|].
    split; [apply emitted_refl, Ho|cbn; lia]. }
  destruct (isValuePreserving _ _); [solve_emit_bounded Ho|].
  destruct val as [i p|i c|a c|fn sig|blk0 idx t]; try solve_emit_bounded Ho.
  destruct (NewConst_emitted f b blk (Const_Value c) (types.Basic k)
              (Const_pos c) (Const_endP c) Ho) as (v & f' & He & Hm).
  exists v, f', []. split; [exact He|split; [exact Hm|cbn; lia]].
Qed.

Lemma emitConv_bounded f b blk val typ :
  open_block f b blk ->
  exists v' f' instrs,
    emitConv val typ f = Ok (v', f')
    /\ emitted f f' b blk instrs /\ length instrs <= 2.
Proof.
  intros Ho. rewrite emitConv_unfold. cbv zeta.
  destruct (types.IsIdentical _ _).
  { exists val, f, []. split; [reflexivity|].
    split; [apply emitted_refl, Ho|cbn; lia]. }
  destruct (isValuePreserving _ _); [solve_emit_bounded Ho|].
  assert (Hconst : exists v' f' instrs,
             match val with
             | VConst _ c =>
                 NewConst (Const_Value c) typ (Const_pos c) (Const_endP c)
             | _ => emit (Convert val typ)
             end f = Ok (v', f')
             /\ emitted f f' b blk instrs /\ length instrs <= 2).
  { destruct val as [i p|i c|a c|fn sig|blk0 idx t];
      try solve_emit_bounded Ho.
    destruct (NewConst_emitted f b blk (Const_Value c) typ
                (Const_pos c) (Const_endP c) Ho) as (v & f' & He & Hm).
    exists v, f', []. split; [exact He|split; [exact Hm|cbn; lia]]. }
  assert (Hbox : forall val0 f0 is0,
             emitted f f0 b blk is0 -> length is0 <= 1 ->
             exists v' f' instrs,
               (needMethodsOf (Value_Type val0) ;;;
                emit (MakeInterface val0 typ)) f0 = Ok (v', f')
               /\ emitted f f' b blk instrs /\ length instrs <= 2).
  { intros val0 f0 is0 Hm0 Hlen. unfold needMethodsOf. rewrite bind_modify.
    pose proof (emitted_open _ _ _ _ _ Ho Hm0) as Ho0.
    assert (Ho1 : open_block (set_needRTTI (needRTTI f0 ++ [Value_Type val0]) f0)
                    b (BasicBlock_append is0 blk)) by exact Ho0.
    destruct (emit_emitted _ b _ (MakeInterface val0 typ) Ho1)
      as (v & f' & He & Hm).
    eexists _, _, _. split; [exact He|]. split.
    - eapply emitted_trans; [|exact Hm]. exact Hm0.
    - rewrite length_app. cbn. lia. }
  assert (Hbox0 : exists v' f' instrs,
             (needMethodsOf (Value_Type val) ;;;
              emit (MakeInterface val typ)) f = Ok (v', f')
             /\ emitted f f' b blk instrs /\ length instrs <= 2).
  { apply (Hbox val f []); [apply emitted_refl, Ho|cbn; lia]. }
  destruct (types.Underlying typ); try exact Hconst.
  destruct (types.Underlying (Value_Type val)) as [k| | | | | | | | | |].
  2-9,11: rewrite bind_ret; exact Hbox0.
  - (* a basic source *)
    destruct k; cbn [types.IsUntyped];
      try (rewrite bind_ret; exact Hbox0);
      try (destruct (NewConst_emitted f b blk None typ token.NoPos token.NoPos
                       Ho) as (v & f' & He & Hm);
           exists v, f', []; split; [exact He|split; [exact Hm|cbn; lia]]);
      match goal with
      | |- context [emitConv_fuel 1 val (DefaultType (types.Basic ?k0))] =>
          destruct (emitConv_fuel_1_Basic_bounded f b blk val
                      match k0 with
                      | types.KUntypedBool => types.KBool
                      | types.KUntypedInt => types.KInt
                      | types.KUntypedRune => types.KInt32
                      | types.KUntypedFloat => types.KFloat64
                      | types.KUntypedComplex => types.KComplex128
                      | types.KUntypedString => types.KString
                      | _ => k0
                      end Ho) as (v1 & f1 & is1 & He1 & Hm1 & Hl1)
      end;
      change (DefaultType (types.Basic ?k0)) with
        (types.Basic match k0 with
                     | types.KUntypedBool => types.KBool
                     | types.KUntypedInt => types.KInt
                     | types.KUntypedRune => types.KInt32
                     | types.KUntypedFloat => types.KFloat64
                     | types.KUntypedComplex => types.KComplex128
                     | types.KUntypedString => types.KString
                     | _ => k0
                     end);
      rewrite (bind_eq _ _ _ _ _ He1); exact (Hbox _ _ _ Hm1 Hl1).
  - (* an interface source *)
    solve_emit_bounded Ho.
Qed.

(** X2.  On a function with an open block a conversion never fails; it
    appends at most two instructions to that block and nothing else to
    the body; and the value it returns has a type identical to the
    target type. *)
Theorem emitConv_converts (f : Function) (b : nat) (blk : BasicBlock)
    (val : Value) (typ : types.type) :
  open_block f b blk ->
  exists v' f' instrs,
    emitConv val typ f = Ok (v', f')
    /\ emitted f f' b blk instrs
    /\ length instrs <= 2
    /\ types.IsIdentical (Value_Type v') typ = true.
Proof.
  intros Ho.
  destruct (emitConv_bounded f b blk val typ Ho)
    as (v' & f' & instrs & He & Hm & Hl).
  exists v', f', instrs.
  split; [exact He|]. split; [exact Hm|]. split; [exact Hl|].
  exact (emitConv_type val typ f v' f' He).
Qed.

(** The constant 5 of type [int], converted to [MyInt] at the start of
    the entry block. *)
Lemma emitConv_converts_witness :
  exists v' f' instrs,
    emitConv Ex.five Ex.MyInt Ex.fn = Ok (v', f')
    /\ emitted Ex.fn f' 0 Ex.entry instrs
    /\ length instrs <= 2
    /\ types.IsIdentical (Value_Type v') Ex.MyInt = true.
Proof.
  exact (emitConv_converts Ex.fn 0 Ex.entry Ex.five Ex.MyInt
           (conj eq_refl eq_refl)).
Defined.

(** X3.  A conversion to the type the value already has returns the
    value and changes nothing; and converting the result of a conversion
    once more to the same type returns it as it is and changes nothing:
    conversions are idempotent. *)
Theorem emitConv_idempotent (val : Value) (typ : types.type)
    (f : Function) :
  emitConv val (Value_Type val) f = Ok (val, f)
  /\ (forall v' f', emitConv val typ f = Ok (v', f') ->
                    emitConv v' typ f' = Ok (v', f')).
Proof.
  assert (Hnoop : forall v t g,
             types.IsIdentical (Value_Type v) t = true ->
             emitConv v t g = Ok (v, g)).
  { intros v t g H. rewrite emitConv_unfold. cbv zeta. rewrite H.
    reflexivity. }
  split.
  - apply Hnoop, IsIdentical_refl.
  - intros v' f' H. apply Hnoop. exact (emitConv_type val typ f v' f' H).
Qed.

Lemma emitConv_idempotent_witness :
  emitConv (VRegister 0 0 Ex.MyInt) Ex.MyInt
    (appended Ex.fn 0 Ex.entry [ChangeType Ex.five Ex.MyInt])
  = Ok (VRegister 0 0 Ex.MyInt,
        appended Ex.fn 0 Ex.entry [ChangeType Ex.five Ex.MyInt]).
Proof.
  exact (proj2 (emitConv_idempotent Ex.five Ex.MyInt Ex.fn) _ _ eq_refl).
Defined.

(** *** Stores *)

(** X4.  On a function with an open block a store never fails: the value
    is converted to the pointee type of the address by at most two
    instructions, none when its type is that type already, and the
    [Store] of the converted value, which the call returns, is the last
    instruction appended. *)
Theorem emitStore_stores (f : Function) (b : nat) (blk : BasicBlock)
    (addr val : Value) :
  open_block f b blk ->
  exists v' f' instrs,
    emitStore addr val f = Ok (Store addr v', f')
    /\ emitted f f' b blk (instrs ++ [Store addr v'])
    /\ length instrs <= 2
    /\ types.IsIdentical (Value_Type v') (deref (Value_Type addr)) = true
    /\ (types.IsIdentical (Value_Type val) (deref (Value_Type addr)) = true ->
        v' = val /\ instrs = []).
Proof.
  intros Ho. unfold emitStore.
  assert (Hstore : forall v' f1 instrs,
             emitted f f1 b blk instrs ->
             (emit (Store addr v') ;;; ret (Store addr v')) f1
             = Ok (Store addr v',
                   appended f1 b (BasicBlock_append instrs blk)
                            [Store addr v'])
             /\ emitted f (appended f1 b (BasicBlock_append instrs blk)
                             [Store addr v']) b blk
                        (instrs ++ [Store addr v'])).
  { intros v' f1 instrs Hm.
    pose proof (emitted_open _ _ _ _ _ Ho Hm) as Ho1. split.
    - rewrite (bind_emit_appended f1 b _ (Store addr v') _ Ho1). reflexivity.
    - eapply emitted_trans; [exact Hm|].
      exact (emitted_appended f1 b _ [Store addr v'] Ho1). }
  destruct (types.IsIdentical (Value_Type val) (deref (Value_Type addr)))
    eqn:Eid.
  - destruct (Hstore val f [] (emitted_refl f b blk Ho)) as [Hrun Hm].
    exists val, (appended f b (BasicBlock_append [] blk) [Store addr val]), [].
    assert (He : emitConv val (deref (Value_Type addr)) f = Ok (val, f)).
    { rewrite emitConv_unfold. cbv zeta. rewrite Eid. reflexivity. }
    rewrite (bind_eq _ _ _ _ _ He).
    split; [exact Hrun|]. split; [exact Hm|]. split; [cbn; lia|].
    split; [exact Eid|auto].
  - destruct (emitConv_bounded f b blk val (deref (Value_Type addr)) Ho)
      as (v' & f1 & instrs & He & Hm & Hl).
    destruct (Hstore v' f1 instrs Hm) as [Hrun Hm'].
    exists v', (appended f1 b (BasicBlock_append instrs blk) [Store addr v']),
      instrs.
    rewrite (bind_eq _ _ _ _ _ He).
    split; [exact Hrun|]. split; [exact Hm'|]. split; [exact Hl|].
    split; [exact (emitConv_type _ _ _ _ _ He)|discriminate].
Qed.

(** The constant 5 stored through a pointer to [MyInt]. *)
Lemma emitStore_stores_witness :
  exists v' f' (instrs : list Instruction),
    emitStore (VParameter 0 (mkParam "p" (types.Pointer Ex.MyInt) 0 None))
              Ex.five Ex.fn
      = Ok (Store (VParameter 0 (mkParam "p" (types.Pointer Ex.MyInt) 0 None))
                  v', f')
    /\ length instrs <= 2
    /\ types.IsIdentical (Value_Type v') Ex.MyInt = true.
Proof.
  destruct (emitStore_stores Ex.fn 0 Ex.entry
              (VParameter 0 (mkParam "p" (types.Pointer Ex.MyInt) 0 None))
              Ex.five (conj eq_refl eq_refl))
    as (v' & f' & instrs & H1 & _ & H3 & H4 & _).
  exists v', f', instrs. auto.
Defined.

(** *** Jumps *)

Lemma addEdge_lookup from to g j blk :
  Blocks g !! j = Some blk ->
  exists g',
    addEdge from to g = Ok (tt, g')
    /\ currentBlock g' = currentBlock g
    /\ Blocks g' !! j =
         Some (mkBasicBlock (Comment blk) (Instrs blk)
                 (Preds blk ++ (if decide (j = to) then [from] else []))
                 (Succs blk ++ (if decide (j = from) then [to] else []))).
Proof.
  intros Hj. eexists. split; [reflexivity|]. split; [reflexivity|].
  cbn [Blocks set_Blocks].
  destruct (decide (j = to)) as [Hto|Hto];
    destruct (decide (j = from)) as [Hfrom|Hfrom]; subst.
  - rewrite !list_lookup_alter_eq, Hj. reflexivity.
  - rewrite list_lookup_alter_eq, list_lookup_alter_ne, Hj by auto. cbn.
    rewrite app_nil_r. reflexivity.
  - rewrite list_lookup_alter_ne, list_lookup_alter_eq, Hj by auto. cbn.
    rewrite app_nil_r. reflexivity.
  - rewrite !list_lookup_alter_ne, Hj by auto. rewrite !app_nil_r.
    destruct blk; reflexivity.
Qed.

Lemma appended_lookup f b blk instrs j blkj :
  open_block f b blk ->
  Blocks f !! j = Some blkj ->
  Blocks (appended f b blk instrs) !! j =
    Some (mkBasicBlock (Comment blkj)
            (Instrs blkj ++ (if decide (j = b) then instrs else []))
            (Preds blkj) (Succs blkj)).
Proof.
  intros [_ Hb] Hj. cbn [appended Blocks set_Blocks].
  destruct (decide (j = b)) as [->|Hne].
  - rewrite list_lookup_insert_eq by (eapply lookup_lt_Some, Hb).
    rewrite Hb in Hj. injection Hj as ->. reflexivity.
  - rewrite list_lookup_insert_ne, Hj, app_nil_r by auto.
    destruct blkj; reflexivity.
Qed.

Lemma emit_closed i f : currentBlock f = None ->
  emit i f = Panic "invalid memory address or nil pointer dereference".
Proof. intros H. unfold emit. rewrite H. reflexivity. Qed.

(** X5.  A jump needs an open block: without one it panics.  With one,
    it appends the [Jump] to it, adds the target to its successors and
    the block to the predecessors of the target, leaves every other
    block and the number of blocks as they were, and leaves no block
    open, so that no instruction can be emitted afterwards. *)
Theorem emitJump_closes (f : Function) (b : nat) (blk : BasicBlock)
    (target : nat) :
  (currentBlock f = None -> exists msg, emitJump target f = Panic msg)
  /\ (open_block f b blk ->
      exists f',
        emitJump target f = Ok (tt, f')
        /\ currentBlock f' = None
        /\ (forall i, exists msg, emit i f' = Panic msg)
        /\ length (Blocks f') = length (Blocks f)
        /\ forall j blkj,
             Blocks f !! j = Some blkj ->
             Blocks f' !! j = Some (after_jump b Jump [target] j blkj)).
Proof.
  split.
  { intros Hc. unfold emitJump. rewrite bind_get, Hc. eexists. reflexivity. }
  intros Ho. unfold emitJump. rewrite bind_get.
  destruct Ho as [Hc Hb]. rewrite Hc.
  rewrite (bind_emit_appended f b blk Jump _ (conj Hc Hb)).
  set (g := appended f b blk [Jump]).
  unfold addEdge. rewrite bind_modify. unfold modify.
  eexists. split; [reflexivity|]. split; [reflexivity|].
  split; [intros i; eexists; apply emit_closed; reflexivity|].
  split.
  { cbn [Blocks set_currentBlock set_Blocks]. rewrite !length_alter.
    unfold g. cbn [appended Blocks set_Blocks]. apply length_insert. }
  intros j blkj Hj.
  pose proof (appended_lookup f b blk [Jump] j blkj (conj Hc Hb) Hj) as Hg.
  fold g in Hg.
  destruct (addEdge_lookup b target g j _ Hg) as (g' & Hrun & _ & Hl).
  unfold addEdge, modify in Hrun. injection Hrun as <-.
  unfold g in *. cbn [Blocks set_currentBlock set_Blocks appended] in Hl |- *.
  rewrite Hl. unfold after_jump.
  cbn [Comment Instrs Preds Succs map concat]. rewrite app_nil_r.
  reflexivity.
Qed.

(** A jump of the entry block to itself. *)
Lemma emitJump_closes_witness :
  exists f',
    emitJump 0 Ex.fn = Ok (tt, f')
    /\ currentBlock f' = None
    /\ Blocks f' !! 0%nat = Some (mkBasicBlock "entry" [Jump] [0%nat] [0%nat]).
Proof.
  destruct (proj2 (emitJump_closes Ex.fn 0 Ex.entry 0) (conj eq_refl eq_refl))
    as (f' & Hrun & Hc & _ & _ & Hl).
  exists f'. split; [exact Hrun|]. split; [exact Hc|].
  exact (Hl 0%nat Ex.entry eq_refl).
Defined.

(** X6.  A conditional jump needs an open block: without one it panics.
    With one, it appends the [If] to it, adds the block taken when the
    condition holds and then the other one to its successors, in this
    order, and the block to the predecessors of each (twice to those of
    a block that is both), leaves every other block and the number of
    blocks as they were, and leaves no block open. *)
Theorem emitIf_closes (f : Function) (b : nat) (blk : BasicBlock)
    (cond : Value) (tblock fblock : nat) :
  (currentBlock f = None ->
   exists msg, emitIf cond tblock fblock f = Panic msg)
  /\ (open_block f b blk ->
      exists f',
        emitIf cond tblock fblock f = Ok (tt, f')
        /\ currentBlock f' = None
        /\ (forall i, exists msg, emit i f' = Panic msg)
        /\ length (Blocks f') = length (Blocks f)
        /\ forall j blkj,
             Blocks f !! j = Some blkj ->
             Blocks f' !! j =
               Some (after_jump b (If cond) [tblock; fblock] j blkj)).
Proof.
  split.
  { intros Hc. unfold emitIf. rewrite bind_get, Hc. eexists. reflexivity. }
  intros Ho. unfold emitIf. rewrite bind_get.
  destruct Ho as [Hc Hb]. rewrite Hc.
  rewrite (bind_emit_appended f b blk (If cond) _ (conj Hc Hb)).
  set (g := appended f b blk [If cond]).
  unfold addEdge. rewrite !bind_modify. unfold modify.
  eexists. split; [reflexivity|]. split; [reflexivity|].
  split; [intros i; eexists; apply emit_closed; reflexivity|].
  split.
  { cbn [Blocks set_currentBlock set_Blocks]. rewrite !length_alter.
    unfold g. cbn [appended Blocks set_Blocks]. apply length_insert. }
  intros j blkj Hj.
  pose proof (appended_lookup f b blk [If cond] j blkj (conj Hc Hb) Hj) as Hg.
  fold g in Hg.
  destruct (addEdge_lookup b tblock g j _ Hg) as (g1 & Hrun1 & _ & Hl1).
  unfold addEdge, modify in Hrun1. injection Hrun1 as <-.
  destruct (addEdge_lookup b fblock _ j _ Hl1) as (g2 & Hrun2 & _ & Hl2).
  unfold addEdge, modify in Hrun2. injection Hrun2 as <-.
  unfold g in *. cbn [Blocks set_currentBlock set_Blocks appended] in Hl2 |- *.
  rewrite Hl2. unfold after_jump.
  cbn [Comment Instrs Preds Succs map concat].
  rewrite app_nil_r, <- !app_assoc.
  destruct (decide (j = b)); reflexivity.
Qed.

(** A conditional jump of the entry block to itself on both branches. *)
Lemma emitIf_closes_witness :
  exists f',
    emitIf Ex.flag 0 0 Ex.fn = Ok (tt, f')
    /\ currentBlock f' = None
    /\ Blocks f' !! 0%nat =
         Some (mkBasicBlock "entry" [If Ex.flag] [0; 0]%nat [0; 0]%nat).
Proof.
  destruct (proj2 (emitIf_closes Ex.fn 0 Ex.entry Ex.flag 0 0)
              (conj eq_refl eq_refl))
    as (f' & Hrun & Hc & _ & _ & Hl).
  exists f'. split; [exact Hrun|]. split; [exact Hc|].
  exact (Hl 0%nat Ex.entry eq_refl).
Defined.

(** ** More on the construction of wrappers *)

Lemma formals_lookup n tparams i :
  formals n tparams !! i = formal (n + i) <$> tparams !! i.
Proof.
  revert n i. induction tparams as [|obj tparams IH]; intros n i;
    [reflexivity|].
  destruct i as [|i]; cbn.
  - rewrite Nat.add_0_r. reflexivity.
  - rewrite IH. do 2 f_equal. lia.
Qed.

(** X7.  [createParams] panics on a variadic signature without
    parameters.  On any other signature it succeeds: it keeps the
    parameters the function has, adds one parameter per parameter of the
    signature, in order, each for its variable and of its type, except
    that the last one is of the slice type when the signature is
    variadic; and it leaves the body as it is. *)
Theorem createParams_params (f : Function) :
  let tparams := Sig_Params (Fn_Signature f) in
  let variadic := Sig_IsVariadic (Fn_Signature f) in
  (variadic = true -> tparams = [] -> exists msg, createParams f = Panic msg)
  /\ ((variadic = true -> tparams <> []) ->
      exists f',
        createParams f = Ok (tt, f')
        /\ length (Params f') = length (Params f) + length tparams
        /\ (forall i p, Params f !! i = Some p -> Params f' !! i = Some p)
        /\ (forall i v, tparams !! i = Some v ->
              exists p,
                Params f' !! (length (Params f) + i) = Some p
                /\ Param_object p = Some v
                /\ Param_typ p =
                     if variadic && Nat.eqb i (length tparams - 1)
                     then types.NewSlice (types.var_Type v)
                     else types.var_Type v)
        /\ Blocks f' = Blocks f
        /\ currentBlock f' = currentBlock f).
Proof.
  intros tparams variadic. split.
  - intros Hv Hnil. unfold createParams. rewrite bind_get.
    subst tparams variadic. rewrite Hnil, Hv. eexists. reflexivity.
  - intros Hv. exists (set_Params (created_params (Params f) (Fn_Signature f)) f).
    split; [exact (createParams_Ok f Hv)|].
    cbn [Params Blocks currentBlock set_Params]. unfold created_params.
    fold tparams variadic.
    set (all := Params f ++ formals (length (Params f)) tparams).
    assert (Hlen : length all = length (Params f) + length tparams).
    { unfold all. rewrite length_app, length_formals. reflexivity. }
    assert (Hold : forall i p, Params f !! i = Some p -> all !! i = Some p).
    { intros i p Hp. unfold all. apply lookup_app_l_Some. exact Hp. }
    assert (Hnew : forall i v, tparams !! i = Some v ->
               all !! (length (Params f) + i)
               = Some (formal (length (Params f) + i) v)).
    { intros i v Hi. unfold all.
      rewrite lookup_app_r by lia.
      replace (length (Params f) + i - length (Params f)) with i by lia.
      rewrite formals_lookup, Hi. reflexivity. }
    destruct variadic eqn:Ev.
    + specialize (Hv eq_refl).
      assert (Hpos : 0 < length tparams)
        by (destruct tparams; [destruct (Hv eq_refl)|cbn; lia]).
      split; [rewrite length_alter; exact Hlen|].
      split; [|split; [|split; reflexivity]].
      * intros i p Hp. rewrite list_lookup_alter_ne; [exact (Hold i p Hp)|].
        apply lookup_lt_Some in Hp. lia.
      * intros i v Hi. pose proof (lookup_lt_Some _ _ _ Hi) as Hlt.
        cbn [andb].
        destruct (Nat.eqb_spec i (length tparams - 1)) as [->|Hne].
        -- eexists. split.
           ++ replace (length all - 1)
                with (length (Params f) + (length tparams - 1)) by lia.
              rewrite list_lookup_alter_eq, (Hnew _ _ Hi). reflexivity.
           ++ split; reflexivity.
        -- eexists. split.
           ++ rewrite list_lookup_alter_ne by lia. exact (Hnew _ _ Hi).
           ++ split; reflexivity.
    + split; [exact Hlen|]. split; [exact Hold|].
      split; [|split; reflexivity].
      intros i v Hi. eexists. split; [exact (Hnew _ _ Hi)|].
      split; reflexivity.
Qed.

(** The wrapper of [A] for [f] gets the parameter [n] of [f] after its
    receiver. *)
Lemma createParams_params_witness :
  exists f',
    createParams
      (set_Params [receiver Ex.A]
         (mkFunction "f" None None (wrapper_signature Ex.A Ex.C_f) "" 0
            [] [] [] [] None [] 0)) = Ok (tt, f')
    /\ length (Params f') = 2.
Proof.
  destruct (proj2 (createParams_params
                     (set_Params [receiver Ex.A]
                        (mkFunction "f" None None
                           (wrapper_signature Ex.A Ex.C_f) "" 0
                           [] [] [] [] None [] 0))))
    as (f' & Hrun & Hlen & _).
  - intros H. discriminate H.
  - exists f'. split; [exact Hrun|exact Hlen].
Defined.

(** ** Bound method wrappers *)

Lemma boundMethodWrapper_hit obj prog fn :
  boundMethodWrappers prog !! types.addr obj = Some fn ->
  boundMethodWrapper obj prog = Ok (fn, prog).
Proof.
  intros H. unfold boundMethodWrapper. rewrite bind_get, H. reflexivity.
Qed.

Lemma boundMethodWrapper_miss obj prog rname recv callee :
  boundMethodWrappers prog !! types.addr obj = None ->
  types.recv obj = Some (types.Var rname recv) ->
  (types.IsVariadic obj = true -> types.Params obj <> []) ->
  (is_Interface (types.Underlying recv) = false ->
   concreteMethods prog !! types.addr obj = Some callee) ->
  boundMethodWrapper obj prog =
    Ok (length (funcs prog),
        set_boundMethodWrappers
          (<[types.addr obj := length (funcs prog)]> (boundMethodWrappers prog))
          (set_funcs (funcs prog ++ [bound_wrapper obj recv callee]) prog)).
Proof.
  intros Hnone Hrecv Hv Hcallee.
  unfold boundMethodWrapper. rewrite bind_get, Hnone.
  assert (Hrt : forall S (s : S), lift (recvType obj) s = Ok (recv, s)).
  { intros S s. unfold lift. rewrite (recvType_Ok _ _ _ Hrecv). reflexivity. }
  rewrite (bind_eq _ _ _ _ _ (Hrt _ prog)).
  set (sig := NewSignature _ _ _ _).
  set (cap := mkCapture "recv" recv).
  set (fn0 := set_FreeVars _ _).
  set (F := mkFunction ("bound$" +:+ Func_FullName obj)%string None None sig
              ("bound method wrapper for " +:+ types.Func_String obj)%string
              (types.Pos obj) [] [cap] []
              [mkBasicBlock "entry" [] [] []] (Some 0) [] 0).
  set (F1 := set_Params (created_params [] sig) F).
  assert (Ho : open_block F1 0 (mkBasicBlock "entry" [] [] []))
    by (split; reflexivity).
  set (call := if is_Interface (types.Underlying recv)
               then mkCallCommon (Some (VCapture 0 cap)) (Some obj)
                                 (imap VParameter (created_params [] sig))
               else mkCallCommon
                      (Some (VFunction callee (types.Func_Type obj))) None
                      (VCapture 0 cap
                         :: imap VParameter (created_params [] sig))).
  assert (Hcall :
    (c <- match types.Underlying recv with
          | types.Interface _ =>
              ret (mkCallCommon (Some (VCapture 0 cap)) (Some obj) [])
          | _ =>
              callee0 <- lift (concreteMethod prog obj) ;;
              ret (mkCallCommon
                     (Some (VFunction callee0 (types.Func_Type obj)))
                     None [VCapture 0 cap])
          end ;;
     f <- get ;;
     emitTailCall (mkCallCommon (Call_Value c) (Call_Method c)
                                (Call_Args c ++ Params_values f)) ;;;
     finishBody) F1
    = Ok (tt, bound_wrapper obj recv callee)).
  { assert (Htail : (emitTailCall call ;;; finishBody) F1
                    = Ok (tt, bound_wrapper obj recv callee)).
    { rewrite (bind_eq _ _ _ _ _ (emitTailCall_Ok F1 call 0 _ Ho)).
      reflexivity. }
    assert (Hconcrete : is_Interface (types.Underlying recv) = false ->
      (c <- (callee0 <- lift (concreteMethod prog obj) ;;
             ret (mkCallCommon
                    (Some (VFunction callee0 (types.Func_Type obj)))
                    None [VCapture 0 cap])) ;;
       f <- get ;;
       emitTailCall (mkCallCommon (Call_Value c) (Call_Method c)
                                  (Call_Args c ++ Params_values f)) ;;;
       finishBody) F1
      = Ok (tt, bound_wrapper obj recv callee)).
    { intros Hi. specialize (Hcallee Hi).
      assert (Hcm : lift (concreteMethod prog obj) F1 = Ok (callee, F1)).
      { unfold lift, concreteMethod. rewrite Hcallee. reflexivity. }
      rewrite bind_assoc, (bind_eq _ _ _ _ _ Hcm), bind_ret, bind_get.
      cbv beta. rewrite <- Htail. unfold call. rewrite Hi. reflexivity. }
    destruct (types.Underlying recv) eqn:Eu; try (apply Hconcrete; reflexivity).
    rewrite bind_ret, bind_get. cbv beta. rewrite <- Htail.
    unfold call. reflexivity. }
  unfold build at 1. unfold bind at 1.
  match goal with
  | |- match (match ?body with _ => _ end) with _ => _ end = _ =>
      assert (Hbody : body = Ok (tt, bound_wrapper obj recv callee))
  end.
  { assert (Hstart : startBody fn0 =
                       Ok (tt, F)) by reflexivity.
    rewrite (bind_eq _ _ _ _ _ Hstart).
    rewrite (bind_eq _ _ _ _ _ (createParams_Ok F Hv)).
    change (set_Params (created_params (Params F) (Fn_Signature F)) F) with F1.
    rewrite (bind_eq _ _ _ _ _ (Hrt _ F1)). exact Hcall. }
  rewrite Hbody. reflexivity.
Qed.

(** X8.  A request for the bound method wrapper of a method object that
    returns a function records it for the object: every later request
    for the same method object returns that very function and leaves the
    program as it is.  The function is the one recorded before, if there
    was one, and then nothing changes; else it is a new function, the
    only one added.  The method sets, the interface method wrappers and
    the concrete methods of the program are never touched. *)
Theorem boundMethodWrapper_unique (obj : types.Func) (prog : Program)
    (fn : nat) (prog1 : Program) :
  boundMethodWrapper obj prog = Ok (fn, prog1) ->
  boundMethodWrappers prog1 !! types.addr obj = Some fn
  /\ (forall obj2, types.addr obj2 = types.addr obj ->
                   boundMethodWrapper obj2 prog1 = Ok (fn, prog1))
  /\ (forall fn0, boundMethodWrappers prog !! types.addr obj = Some fn0 ->
                  fn = fn0 /\ prog1 = prog)
  /\ (boundMethodWrappers prog !! types.addr obj = None ->
      fn = length (funcs prog) /\ exists w, funcs prog1 = funcs prog ++ [w])
  /\ methodSets prog1 = methodSets prog
  /\ ifaceMethodWrappers prog1 = ifaceMethodWrappers prog
  /\ concreteMethods prog1 = concreteMethods prog.
Proof.
  intros H.
  assert (Hrec : boundMethodWrappers prog1 !! types.addr obj = Some fn
                 /\ (forall fn0,
                       boundMethodWrappers prog !! types.addr obj = Some fn0 ->
                       fn = fn0 /\ prog1 = prog)
                 /\ (boundMethodWrappers prog !! types.addr obj = None ->
                     fn = length (funcs prog)
                     /\ exists w, funcs prog1 = funcs prog ++ [w])
                 /\ methodSets prog1 = methodSets prog
                 /\ ifaceMethodWrappers prog1 = ifaceMethodWrappers prog
                 /\ concreteMethods prog1 = concreteMethods prog).
  { unfold boundMethodWrapper in H. rewrite bind_get in H.
    destruct (boundMethodWrappers prog !! types.addr obj) as [fn0|] eqn:E.
    - injection H as <- <-. split; [exact E|]. split; [|split; [discriminate|auto]].
      intros fn1 [= <-]. auto.
    - apply bind_Ok in H. destruct H as (recv & prog0 & Hr & H).
      assert (prog0 = prog) as ->.
      { unfold lift in Hr. destruct (recvType obj); [|discriminate Hr].
        injection Hr as _ <-. reflexivity. }
      apply bind_Ok in H. destruct H as (n & prog2 & Hb & H).
      apply build_Ok in Hb. destruct Hb as (w & _ & -> & ->).
      rewrite bind_modify in H. injection H as <- <-. cbn.
      split; [apply lookup_insert_eq|]. split; [discriminate|].
      split; [|auto]. intros _. split; [reflexivity|]. exists w. reflexivity. }
  destruct Hrec as (Hin & Hhit & Hmiss & Hms & Hiw & Hcm).
  split; [exact Hin|]. split; [|auto 10].
  intros obj2 Ha. apply boundMethodWrapper_hit. rewrite Ha. exact Hin.
Qed.

(** The method [g] of [C], bound twice. *)
Lemma boundMethodWrapper_unique_witness :
  boundMethodWrapper Ex.C_g
    (set_boundMethodWrappers {[ 2%nat := 1%nat ]} Ex.prog)
  = Ok (1, set_boundMethodWrappers {[ 2%nat := 1%nat ]} Ex.prog).
Proof.
  assert (H : boundMethodWrapper Ex.C_g
                (set_boundMethodWrappers {[ 2%nat := 1%nat ]} Ex.prog)
              = Ok (1, set_boundMethodWrappers {[ 2%nat := 1%nat ]} Ex.prog))
    by reflexivity.
  exact (proj1 (proj2 (boundMethodWrapper_unique Ex.C_g _ 1 _ H))
           Ex.C_g eq_refl).
Defined.

(** X9.  For a well-formed method object that has no bound method
    wrapper yet: when the method is concrete and the program has no
    function for it, the request panics with "no concrete method".
    Otherwise it succeeds with a new function that has no parameter but
    those of the method, one free variable, the receiver, of the receiver
    type of the method, and one block: one call followed by the tail
    return of its results, the call being, for an abstract method, the
    abstract call of the method on the captured receiver with the
    parameters as arguments and, for a concrete method, the direct call
    of its function with the captured receiver and then the parameters
    as arguments. *)
Theorem boundMethodWrapper_body (obj : types.Func) (prog : Program)
    (rname : string) (recv : types.type) :
  boundMethodWrappers prog !! types.addr obj = None ->
  types.recv obj = Some (types.Var rname recv) ->
  (types.IsVariadic obj = true -> types.Params obj <> []) ->
  let cap := mkCapture "recv" recv in
  (is_Interface (types.Underlying recv) = false ->
   concreteMethods prog !! types.addr obj = None ->
   boundMethodWrapper obj prog
   = Panic ("no concrete method: " +:+ types.Func_String obj))
  /\ (forall callee,
        (is_Interface (types.Underlying recv) = false ->
         concreteMethods prog !! types.addr obj = Some callee) ->
        exists w,
          boundMethodWrapper obj prog =
            Ok (length (funcs prog),
                set_boundMethodWrappers
                  (<[types.addr obj := length (funcs prog)]>
                     (boundMethodWrappers prog))
                  (set_funcs (funcs prog ++ [w]) prog))
          /\ FreeVars w = [cap]
          /\ Params w =
               created_params []
                 (NewSignature None (types.Params obj) (types.Results obj)
                               (types.IsVariadic obj))
          /\ currentBlock w = None
          /\ Blocks w =
               [mkBasicBlock "entry"
                  (tailcall 0 0
                     (if is_Interface (types.Underlying recv)
                      then mkCallCommon (Some (VCapture 0 cap))
                             (Some obj) (imap VParameter (Params w))
                      else mkCallCommon
                             (Some (VFunction callee (types.Func_Type obj)))
                             None
                             (VCapture 0 cap :: imap VParameter (Params w)))
                     (types.Results obj)) [] []]).
Proof.
  intros Hnone Hrecv Hv cap. split.
  - intros Ei Ec.
    unfold boundMethodWrapper. rewrite bind_get, Hnone.
    assert (Hrt : forall S (s : S), lift (recvType obj) s = Ok (recv, s)).
    { intros S s. unfold lift. rewrite (recvType_Ok _ _ _ Hrecv).
      reflexivity. }
    rewrite (bind_eq _ _ _ _ _ (Hrt _ prog)).
    set (fn0 := set_FreeVars _ _).
    unfold build at 1. unfold bind at 1.
    match goal with
    | |- match (match ?body with _ => _ end) with _ => _ end = _ =>
        assert (Hbody : body = Panic ("no concrete method: "
                                        +:+ types.Func_String obj))
    end.
    { set (F := set_currentBlock (Some 0)
                  (set_Blocks [mkBasicBlock "entry" [] [] []] fn0)).
      assert (Hstart : startBody fn0 = Ok (tt, F)) by reflexivity.
      rewrite (bind_eq _ _ _ _ _ Hstart).
      rewrite (bind_eq _ _ _ _ _ (createParams_Ok F Hv)).
      rewrite (bind_eq _ _ _ _ _ (Hrt _ _)).
      apply bind_Panic.
      destruct (types.Underlying recv); try discriminate Ei;
        apply bind_Panic; unfold lift, concreteMethod; rewrite Ec;
        reflexivity. }
    rewrite Hbody. reflexivity.
  - intros callee Hcallee.
    exists (bound_wrapper obj recv callee).
    split; [exact (boundMethodWrapper_miss obj prog rname recv callee
                     Hnone Hrecv Hv Hcallee)|].
    repeat split; reflexivity.
Qed.

(** The bound method wrapper of the method [f] of [*C]. *)
Lemma boundMethodWrapper_body_witness :
  exists w,
    boundMethodWrapper Ex.C_f Ex.prog =
      Ok (2, set_boundMethodWrappers {[ 1%nat := 2%nat ]}
               (set_funcs (funcs Ex.prog ++ [w]) Ex.prog))
    /\ FreeVars w = [mkCapture "recv" (types.Pointer Ex.C)].
Proof.
  pose proof (boundMethodWrapper_body Ex.C_f Ex.prog "c" (types.Pointer Ex.C)
                eq_refl eq_refl) as H.
  destruct H as [_ H].
  - intros H. discriminate H.
  - destruct (H 0 (fun _ => eq_refl)) as (w & Hrun & Hfv & _).
    exists w. split; [exact Hrun|exact Hfv].
Defined.
(** ** The registry: what a lookup adds, and what it finds *)

Lemma typemap_find_keys ms ms' typ :
  ms.*1 = ms'.*1 -> typemap_find ms typ = typemap_find ms' typ.
Proof.
  revert ms'. induction ms as [|[k m] ms IH]; intros [|[k' m'] ms']; cbn;
    try discriminate; [reflexivity|].
  intros [= -> H]. rewrite (IH _ H). reflexivity.
Qed.

Lemma keys_put (ms : list (types.type * MethodSet)) mset id fn :
  (alter (fun e => (fst e, <[id := fn]> (snd e))) mset ms).*1 = ms.*1.
Proof.
  revert mset. induction ms as [|[k m] ms IH]; intros [|mset]; cbn;
    try reflexivity.
  f_equal. apply IH.
Qed.

Lemma typemap_find_app ms l typ :
  typemap_find (ms ++ l) typ =
    match typemap_find ms typ with
    | Some i => Some i
    | None => (fun i => length ms + i) <$> typemap_find l typ
    end.
Proof.
  induction ms as [|[k m] ms IH]; cbn.
  - destruct (typemap_find l typ); reflexivity.
  - destruct (types.IsIdentical k typ); [reflexivity|].
    rewrite IH. destruct (typemap_find ms typ); [reflexivity|].
    destruct (typemap_find l typ); reflexivity.
Qed.

Lemma registry_entry_methodSets prog prog' typ id :
  methodSets prog' = methodSets prog ->
  registry_entry prog' typ id = registry_entry prog typ id.
Proof. unfold registry_entry, mset_get. intros ->. reflexivity. Qed.

(** A new, empty map changes no entry. *)
Lemma registry_entry_app_empty prog typ0 typ id :
  registry_entry
    (set_methodSets (methodSets prog ++ [(typ0, ∅)]) prog) typ id
  = registry_entry prog typ id.
Proof.
  unfold registry_entry, mset_get. cbn [methodSets set_methodSets].
  rewrite typemap_find_app.
  destruct (typemap_find (methodSets prog) typ) as [i|] eqn:E.
  - pose proof (typemap_find_lt _ _ _ E) as Hlt.
    rewrite lookup_app_l by exact Hlt. reflexivity.
  - cbn. destruct (types.IsIdentical typ0 typ); [|reflexivity].
    cbn. rewrite Nat.add_0_r, lookup_app_r, Nat.sub_diag by lia. reflexivity.
Qed.

(** Storing under [id] changes no entry under another id. *)
Lemma registry_entry_put prog mset id fn typ id' :
  id' <> id ->
  registry_entry
    (set_methodSets
       (alter (fun e => (fst e, <[id := fn]> (snd e))) mset (methodSets prog))
       prog) typ id'
  = registry_entry prog typ id'.
Proof.
  intros Hne. unfold registry_entry, mset_get. cbn [methodSets set_methodSets].
  rewrite (typemap_find_keys _ (methodSets prog)) by apply keys_put.
  destruct (typemap_find (methodSets prog) typ) as [i|]; [|reflexivity].
  destruct (decide (i = mset)) as [->|Hi].
  - rewrite list_lookup_alter_eq.
    destruct (methodSets prog !! mset) as [[k m]|]; [|reflexivity].
    cbn. apply lookup_insert_ne. auto.
  - rewrite list_lookup_alter_ne by auto. reflexivity.
Qed.

Lemma grows_refl n prog : grows n prog prog.
Proof.
  split; [|auto]. exists []. rewrite app_nil_r. split; [reflexivity|cbn; lia].
Qed.

Lemma grows_trans n1 n2 prog1 prog2 prog3 :
  grows n1 prog1 prog2 -> grows n2 prog2 prog3 -> grows (n1 + n2) prog1 prog3.
Proof.
  intros ((l1 & E1 & H1) & Hc1 & Hb1) ((l2 & E2 & H2) & Hc2 & Hb2).
  split; [|split; congruence].
  exists (l1 ++ l2). rewrite E2, E1, app_assoc, length_app.
  split; [reflexivity|lia].
Qed.

Lemma grows_one w prog : grows 1 prog (set_funcs (funcs prog ++ [w]) prog).
Proof. split; [|auto]. exists [w]. split; [reflexivity|cbn; lia]. Qed.

Lemma findMethod_grows meth prog fn prog' :
  findMethod meth prog = Ok (fn, prog') -> grows 1 prog prog'.
Proof.
  unfold findMethod. intros H. apply bind_Ok in H.
  destruct H as (recv & prog0 & Hr & H).
  assert (prog0 = prog) as ->.
  { unfold lift in Hr. destruct (recvType _); [|discriminate].
    injection Hr as _ <-. reflexivity. }
  destruct (_ || _).
  - destruct (makeWrapper_new _ _ _ _ _ H) as (w & _ & -> & _).
    apply grows_one.
  - destruct (types.Underlying (types.Recv meth));
      try (rewrite bind_get in H; unfold lift in H;
           destruct (concreteMethod prog (types.Obj meth)); [|discriminate];
           injection H as _ <-; apply grows_refl).
    unfold interfaceMethodWrapper in H. rewrite bind_get in H.
    destruct (ifaceMethodWrappers prog !! _).
    + injection H as _ <-. apply grows_refl.
    + apply bind_Ok in H. destruct H as (n & prog1 & Hb & H).
      apply build_Ok in Hb. destruct Hb as (w & _ & _ & ->).
      rewrite bind_modify in H. injection H as _ <-.
      split; [|auto]. exists [w]. split; [reflexivity|cbn; lia].
Qed.

(** One method stored on demand. *)
Lemma populate_frame mset meth prog prog' :
  populate mset meth prog = Ok (tt, prog') ->
  grows 1 prog prog'
  /\ (methodSets prog').*1 = (methodSets prog).*1
  /\ forall typ id, id <> types.Id (types.Obj meth) ->
       registry_entry prog' typ id = registry_entry prog typ id.
Proof.
  unfold populate. rewrite bind_get.
  destruct (mset_get mset _ prog) as [fn0|].
  - intros [= <-]. split; [apply grows_refl|]. auto.
  - intros H. apply bind_Ok in H. destruct H as (fn & prog1 & Hf & H).
    pose proof (findMethod_methodSets _ _ _ _ Hf) as Hms.
    pose proof (findMethod_grows _ _ _ _ Hf) as Hg.
    unfold mset_put in H. injection H as <-.
    split; [|split].
    + destruct Hg as (Hl & Hc & Hb). split; [exact Hl|]. split; [exact Hc|exact Hb].
    + cbn [methodSets set_methodSets]. rewrite keys_put, Hms. reflexivity.
    + intros typ id Hne. rewrite registry_entry_put by exact Hne.
      apply registry_entry_methodSets, Hms.
Qed.

Lemma populate_all_frame mset tmset prog prog' :
  populate_all mset tmset prog = Ok (tt, prog') ->
  grows (length tmset) prog prog'
  /\ (methodSets prog').*1 = (methodSets prog).*1
  /\ forall typ id, id ∉ method_ids tmset ->
       registry_entry prog' typ id = registry_entry prog typ id.
Proof.
  revert prog. induction tmset as [|meth tmset IH]; intros prog; cbn.
  - intros [= <-]. split; [apply grows_refl|]. auto.
  - intros H. apply bind_Ok in H. destruct H as ([] & prog1 & H1 & H).
    destruct (populate_frame _ _ _ _ H1) as (Hg1 & Hk1 & He1).
    destruct (IH _ H) as (Hg & Hk & He).
    split; [exact (grows_trans 1 _ _ _ _ Hg1 Hg)|].
    split; [congruence|].
    intros typ id Hid. apply not_elem_of_cons in Hid. destruct Hid as [Hne Hid].
    rewrite (He typ id Hid). apply He1, Hne.
Qed.

(** After the whole set was stored, no method lacks an entry. *)
Lemma populate_all_complete mset tmset prog prog' :
  mset < length (methodSets prog) ->
  populate_all mset tmset prog = Ok (tt, prog') ->
  forall id, id ∈ method_ids tmset -> is_Some (mset_get mset id prog').
Proof.
  revert prog. induction tmset as [|meth tmset IH]; intros prog Hlt; cbn.
  - intros _ id Hid. apply elem_of_nil in Hid. destruct Hid.
  - intros H. apply bind_Ok in H. destruct H as ([] & prog1 & H1 & H).
    destruct (populate_Ok _ _ _ _ H1) as (Hext1 & Hin & _).
    pose proof (populate_all_Ok _ _ _ _ H) as Hext.
    intros id Hid. apply elem_of_cons in Hid. destruct Hid as [->|Hid].
    + destruct (Hin Hlt) as [fn Hfn].
      exists fn. exact (mset_get_extends _ _ _ _ _ Hext Hfn).
    + apply (IH prog1); [|exact H|exact Hid].
      pose proof (extends_length _ _ Hext1). lia.
Qed.

Lemma size_list_to_set_le (l : list string) :
  size (list_to_set l : gset string) <= length l.
Proof.
  induction l as [|x l IH]; cbn.
  - rewrite size_empty. lia.
  - destruct (decide (x ∈ (list_to_set l : gset string))) as [Hin|Hout].
    + assert (E : {[x]} ∪ list_to_set l = (list_to_set l : gset string))
        by (apply subseteq_union_1_L; apply singleton_subseteq_l; exact Hin).
      rewrite E. lia.
    + rewrite size_union by (apply disjoint_singleton_l; exact Hout).
      rewrite size_singleton. lia.
Qed.

(** A map that holds only ids of [ids], and as many as [ids] is long,
    holds them all. *)
Lemma full_map (m : MethodSet) (ids : list string) :
  (forall id, is_Some (m !! id) -> id ∈ ids) ->
  length ids <= size m ->
  forall id, id ∈ ids -> is_Some (m !! id).
Proof.
  intros Hsub Hsize id Hid.
  assert (Hdom : dom m ⊆ (list_to_set ids : gset string)).
  { intros x Hx. apply elem_of_dom in Hx. apply elem_of_list_to_set. auto. }
  assert (Heq : dom m = (list_to_set ids : gset string)).
  { apply set_subseteq_size_eq; [exact Hdom|].
    rewrite size_dom. pose proof (size_list_to_set_le ids). lia. }
  apply elem_of_dom. rewrite Heq. apply elem_of_list_to_set. exact Hid.
Qed.

Lemma registry_entry_at prog typ mset id :
  typemap_find (methodSets prog) typ = Some mset ->
  registry_entry prog typ id = mset_get mset id prog.
Proof. unfold registry_entry. intros ->. reflexivity. Qed.

(** The steps of [populateMethodSet] for a type that has methods: the
    map of the type is found, or an empty one is stored for it; the map
    is filled when it has fewer entries than the type has methods; the
    map is returned. *)
Lemma populateMethodSet_inv tm typ meth prog r prog' :
  methodSet tm typ <> [] ->
  populateMethodSet tm typ meth prog = Ok (r, prog') ->
  exists mset prog1 k m1 m2,
    typemap_find (methodSets prog1) typ = Some mset
    /\ methodSets prog1 !! mset = Some (k, m1)
    /\ grows 0 prog prog1
    /\ (forall typ' id,
          registry_entry prog1 typ' id = registry_entry prog typ' id)
    /\ (if (size m1 <? length (methodSet tm typ))%nat
        then match meth with
             | Some meth => populate mset meth
             | None => populate_all mset (methodSet tm typ)
             end
        else ret tt) prog1 = Ok (tt, prog')
    /\ typemap_find (methodSets prog') typ = Some mset
    /\ methodSets prog' !! mset = Some (k, m2)
    /\ r = Some m2.
Proof.
  intros Hne. unfold populateMethodSet.
  destruct (methodSet tm typ) as [|sel tmset] eqn:Etm; [destruct (Hne eq_refl)|].
  set (tms := sel :: tmset). change (Nat.eqb (length tms) 0) with false.
  cbv iota. rewrite bind_get. intros H.
  apply bind_Ok in H. destruct H as (mset & prog1 & Hm & H).
  assert (H1 : typemap_find (methodSets prog1) typ = Some mset
               /\ grows 0 prog prog1
               /\ forall typ' id,
                    registry_entry prog1 typ' id = registry_entry prog typ' id).
  { destruct (typemap_find (methodSets prog) typ) as [i|] eqn:Ef.
    - injection Hm as <- <-. split; [exact Ef|]. split; [apply grows_refl|auto].
    - rewrite bind_modify in Hm. injection Hm as <- <-.
      split; [apply typemap_find_app_None, Ef|].
      split; [|intros typ' id; apply registry_entry_app_empty].
      split; [|auto]. exists []. cbn. rewrite app_nil_r. auto. }
  destruct H1 as (Hfind & Hg & He).
  pose proof (typemap_find_lt _ _ _ Hfind) as Hlt.
  destruct (lookup_lt_is_Some_2 _ _ Hlt) as [[k m1] E1].
  rewrite bind_get in H.
  apply bind_Ok in H. destruct H as ([] & prog2 & Hp & H).
  rewrite bind_get in H. injection H as <- <-.
  unfold mset_len in Hp. rewrite E1 in Hp.
  assert (Hkeys : (methodSets prog2).*1 = (methodSets prog1).*1).
  { destruct (_ <? _)%nat.
    - destruct meth as [meth|].
      + apply (populate_frame _ _ _ _ Hp).
      + apply (populate_all_frame _ _ _ _ Hp).
    - injection Hp as <-. reflexivity. }
  assert (E2 : exists m2, methodSets prog2 !! mset = Some (k, m2)).
  { assert (Hk : (methodSets prog2).*1 !! mset = Some k).
    { rewrite Hkeys, list_lookup_fmap, E1. reflexivity. }
    rewrite list_lookup_fmap in Hk.
    destruct (methodSets prog2 !! mset) as [[k' m2]|]; [|discriminate Hk].
    injection Hk as ->. eauto. }
  destruct E2 as [m2 E2].
  exists mset, prog1, k, m1, m2.
  split; [exact Hfind|]. split; [exact E1|]. split; [exact Hg|].
  split; [exact He|]. split; [exact Hp|].
  split; [rewrite (typemap_find_keys _ _ _ Hkeys); exact Hfind|].
  split; [exact E2|]. rewrite E2. reflexivity.
Qed.

Lemma grows_1_cases prog prog' :
  grows 1 prog prog' ->
  funcs prog' = funcs prog \/ exists w, funcs prog' = funcs prog ++ [w].
Proof.
  intros ((l & E & Hl) & _). destruct l as [|w [|w' l]]; cbn in Hl.
  - left. rewrite E, app_nil_r. reflexivity.
  - right. eauto.
  - lia.
Qed.

(** X10.  The method set of a type that has methods, requested as a
    whole from a program whose registry holds for the type nothing but
    methods of the type: the map returned is the one the registry now
    holds for the type; it has an entry for every method of the type as
    the front end enumerates them, and for nothing else; and every entry
    the registry had for the type is in it, unchanged. *)
Theorem Program_MethodSet_complete (tm : types.type -> list types.Selection)
    (typ : types.type) (prog : Program) (r : option MethodSet)
    (prog' : Program) :
  methodSet tm typ <> [] ->
  (forall id, is_Some (registry_entry prog typ id) ->
              id ∈ method_ids (methodSet tm typ)) ->
  Program_MethodSet tm typ prog = Ok (r, prog') ->
  exists m,
    r = Some m
    /\ (forall id, m !! id = registry_entry prog' typ id)
    /\ (forall id, is_Some (m !! id) <-> id ∈ method_ids (methodSet tm typ))
    /\ (forall id fn, registry_entry prog typ id = Some fn ->
                      m !! id = Some fn).
Proof.
  intros Hne Hinv H. unfold Program_MethodSet in H.
  destruct (populateMethodSet_inv _ _ _ _ _ _ Hne H)
    as (mset & prog1 & k & m1 & m2 & Hf1 & E1 & _ & He & Hp & Hf2 & E2 & ->).
  assert (Hm2 : forall id, m2 !! id = mset_get mset id prog').
  { intros id. unfold mset_get. rewrite E2. reflexivity. }
  assert (Hm1 : forall id, m1 !! id = registry_entry prog typ id).
  { intros id. rewrite <- He, (registry_entry_at _ _ _ _ Hf1).
    unfold mset_get. rewrite E1. reflexivity. }
  exists m2. split; [reflexivity|].
  split; [intros id; rewrite (registry_entry_at _ _ _ _ Hf2); apply Hm2|].
  destruct (size m1 <? length (methodSet tm typ))%nat eqn:Es.
  - destruct (populate_all_frame _ _ _ _ Hp) as (_ & _ & Hframe).
    split.
    + intros id. split.
      * intros Hs. destruct (decide (id ∈ method_ids (methodSet tm typ)))
          as [Hin|Hout]; [exact Hin|].
        apply Hinv. rewrite <- He, <- (Hframe typ id Hout).
        rewrite (registry_entry_at _ _ _ _ Hf2), <- Hm2. exact Hs.
      * intros Hid. rewrite Hm2.
        apply (populate_all_complete _ _ _ _
                 (typemap_find_lt _ _ _ Hf1) Hp id Hid).
    + intros id fn Hfn. rewrite Hm2.
      apply (mset_get_extends prog1); [exact (populate_all_Ok _ _ _ _ Hp)|].
      rewrite <- (registry_entry_at _ typ) by exact Hf1. rewrite He. exact Hfn.
  - injection Hp as <-. rewrite E1 in E2. injection E2 as <-.
    split.
    + intros id. split.
      * rewrite Hm1. apply Hinv.
      * apply full_map.
        -- intros id'. rewrite Hm1. apply Hinv.
        -- apply Nat.ltb_ge in Es. unfold method_ids. rewrite length_fmap.
           exact Es.
    + intros id fn Hfn. rewrite Hm1. exact Hfn.
Qed.

(** The method set of [A], from a program whose registry is empty. *)
Lemma Program_MethodSet_complete_witness :
  exists m : MethodSet, m !! "main.f" = Some 2%nat
            /\ forall id, is_Some (m !! id) <-> id ∈ ["main.f"].
Proof.
  destruct (Program_MethodSet_complete Ex_MethodSet Ex.A Ex.prog
              (Some {[ "main.f" := 2%nat ]}) Ex_prog1)
    as (m & Hr & _ & Hall & _).
  - discriminate.
  - intros id [fn Hfn]. discriminate Hfn.
  - vm_compute. reflexivity.
  - exists m. split; [|exact Hall].
    injection Hr as <-. reflexivity.
Defined.

(** X11.  A lookup is on demand.  It adds to the functions of the
    program at most one function, at the end, and changes none; it adds
    no entry to the registry but, at most, the one for the method it was
    asked for, and changes none; it leaves the concrete methods and the
    bound method wrappers of the program as they are. *)
Theorem LookupMethod_on_demand (tm : types.type -> list types.Selection)
    (meth : types.Selection) (prog : Program) (r : option nat)
    (prog' : Program) :
  LookupMethod tm meth prog = Ok (r, prog') ->
  (funcs prog' = funcs prog \/ exists w, funcs prog' = funcs prog ++ [w])
  /\ (forall typ id, id <> types.Id (types.Obj meth) ->
        registry_entry prog' typ id = registry_entry prog typ id)
  /\ (forall typ id fn, registry_entry prog typ id = Some fn ->
        registry_entry prog' typ id = Some fn)
  /\ concreteMethods prog' = concreteMethods prog
  /\ boundMethodWrappers prog' = boundMethodWrappers prog.
Proof.
  unfold LookupMethod. intros H.
  apply bind_Ok in H. destruct H as (r0 & prog1 & Hp & H).
  injection H as _ <-.
  pose proof (populateMethodSet_Ok _ _ _ _ _ _ Hp) as (Hext & Hempty & _).
  assert (Hold : forall typ id fn, registry_entry prog typ id = Some fn ->
                   registry_entry prog1 typ id = Some fn).
  { intros typ id fn. apply registry_entry_extends, Hext. }
  destruct (methodSet tm (types.Recv meth)) as [|sel tmset] eqn:Etm.
  { destruct (Hempty eq_refl) as [_ ->]. auto 10. }
  assert (Hne : methodSet tm (types.Recv meth) <> [])
    by (rewrite Etm; discriminate).
  destruct (populateMethodSet_inv _ _ _ _ _ _ Hne Hp)
    as (mset & prog0 & k & m1 & m2 & _ & _ & Hg0 & He & Hs & _).
  assert (Hstep : grows 1 prog0 prog1
                  /\ forall typ id, id <> types.Id (types.Obj meth) ->
                       registry_entry prog1 typ id = registry_entry prog0 typ id).
  { destruct (_ <? _)%nat.
    - destruct (populate_frame _ _ _ _ Hs) as (Hg & _ & Hf). auto.
    - injection Hs as <-. split; [apply grows_refl|auto]. }
  destruct Hstep as (Hg1 & Hf).
  pose proof (grows_trans 0 1 _ _ _ Hg0 Hg1) as Hg. cbn in Hg.
  split; [exact (grows_1_cases _ _ Hg)|].
  split; [intros typ id Hid; rewrite (Hf typ id Hid); apply He|].
  split; [exact Hold|]. destruct Hg as (_ & Hc & Hb). auto.
Qed.

(** The lookup of [f] on [A] adds one function. *)
Lemma LookupMethod_on_demand_witness :
  length (funcs Ex_prog1) <= 3
  /\ registry_entry Ex_prog1 Ex.A "main.g" = None.
Proof.
  assert (H : LookupMethod Ex_MethodSet Ex_A_f Ex.prog = Ok (Some 2, Ex_prog1))
    by (vm_compute; reflexivity).
  destruct (LookupMethod_on_demand Ex_MethodSet Ex_A_f Ex.prog _ _ H)
    as (Hfuncs & Hother & _).
  split.
  - destruct Hfuncs as [->|(w & ->)]; [cbn; lia|].
    rewrite length_app. cbn. lia.
  - rewrite (Hother Ex.A "main.g"); [reflexivity|]. discriminate.
Defined.

(** X12.  A lookup finds the methods of the type.  In a program whose
    registry holds for a type nothing but methods of the type, the
    lookup of a method that the front end enumerates for the type never
    returns nil: it returns a function, the one the registry now holds
    for the method; and the registry still holds for the type nothing
    but methods of the type. *)
Theorem LookupMethod_finds (tm : types.type -> list types.Selection)
    (meth : types.Selection) (prog : Program) (r : option nat)
    (prog' : Program) :
  meth ∈ methodSet tm (types.Recv meth) ->
  (forall id, is_Some (registry_entry prog (types.Recv meth) id) ->
              id ∈ method_ids (methodSet tm (types.Recv meth))) ->
  LookupMethod tm meth prog = Ok (r, prog') ->
  (exists fn,
     r = Some fn
     /\ registry_entry prog' (types.Recv meth) (types.Id (types.Obj meth))
        = Some fn)
  /\ (forall id, is_Some (registry_entry prog' (types.Recv meth) id) ->
                 id ∈ method_ids (methodSet tm (types.Recv meth))).
Proof.
  intros Hin Hinv H.
  assert (Hid : types.Id (types.Obj meth)
                ∈ method_ids (methodSet tm (types.Recv meth))).
  { unfold method_ids.
    exact (list_elem_of_fmap_2 (fun sel => types.Id (types.Obj sel)) _ _ Hin). }
  assert (Hne : methodSet tm (types.Recv meth) <> []).
  { intros E. rewrite E in Hin. apply elem_of_nil in Hin. exact Hin. }
  unfold LookupMethod in H.
  apply bind_Ok in H. destruct H as (r0 & prog1 & Hp & H).
  injection H as <- <-.
  destruct (populateMethodSet_inv _ _ _ _ _ _ Hne Hp)
    as (mset & prog0 & k & m1 & m2 & Hf1 & E1 & _ & He & Hs & Hf2 & E2 & ->).
  assert (Hm2 : forall id, registry_entry prog1 (types.Recv meth) id = m2 !! id).
  { intros id. rewrite (registry_entry_at _ _ _ _ Hf2). unfold mset_get.
    rewrite E2. reflexivity. }
  assert (Hm1 : forall id, m1 !! id = registry_entry prog (types.Recv meth) id).
  { intros id. rewrite <- He, (registry_entry_at _ _ _ _ Hf1).
    unfold mset_get. rewrite E1. reflexivity. }
  assert (Hgoal : is_Some (m2 !! types.Id (types.Obj meth))
                  /\ forall id, is_Some (m2 !! id) ->
                       id ∈ method_ids (methodSet tm (types.Recv meth))).
  { destruct (size m1 <? length (methodSet tm (types.Recv meth)))%nat eqn:Es.
    - destruct (populate_Ok _ _ _ _ Hs) as (_ & Hnew & _).
      destruct (populate_frame _ _ _ _ Hs) as (_ & _ & Hframe).
      split.
      + rewrite <- Hm2, (registry_entry_at _ _ _ _ Hf2).
        exact (Hnew (typemap_find_lt _ _ _ Hf1)).
      + intros id Hsome.
        destruct (decide (id = types.Id (types.Obj meth))) as [->|Hd];
          [exact Hid|].
        apply Hinv. rewrite <- He, <- (Hframe _ id Hd), Hm2. exact Hsome.
    - injection Hs as <-. rewrite E1 in E2. injection E2 as <-.
      assert (Hsub : forall id, is_Some (m1 !! id) ->
                       id ∈ method_ids (methodSet tm (types.Recv meth))).
      { intros id. rewrite Hm1. apply Hinv. }
      split; [|exact Hsub].
      apply (full_map m1 _ Hsub); [|exact Hid].
      apply Nat.ltb_ge in Es. unfold method_ids. rewrite length_fmap.
      exact Es. }
  destruct Hgoal as ([fn Hfn] & Hsub).
  split.
  - exists fn. split; [exact Hfn|]. rewrite Hm2. exact Hfn.
  - intros id. rewrite Hm2. apply Hsub.
Qed.

(** The lookup of [f] on [A], whose method set is [f]. *)
Lemma LookupMethod_finds_witness :
  exists fn, registry_entry Ex_prog1 Ex.A "main.f" = Some fn.
Proof.
  assert (H : LookupMethod Ex_MethodSet Ex_A_f Ex.prog = Ok (Some 2, Ex_prog1))
    by (vm_compute; reflexivity).
  destruct (LookupMethod_finds Ex_MethodSet Ex_A_f Ex.prog (Some 2) Ex_prog1)
    as ((fn & _ & Hfn) & _); [| |exact H|].
  - apply list_elem_of_here.
  - intros id [fn Hfn]. discriminate Hfn.
  - exists fn. exact Hfn.
Defined.
(** ** No wrapper without the function of the method *)

Lemma lift_Ok {S A} (r : result A) (s : S) a s' :
  lift r s = Ok (a, s') -> r = Ok a /\ s' = s.
Proof.
  unfold lift. destruct r; [|discriminate]. intros [= <- <-]. auto.
Qed.

Lemma makeWrapper_concrete typ meth prog fn prog' rname oldRecv :
  makeWrapper typ meth prog = Ok (fn, prog') ->
  types.recv (types.Obj meth) = Some (types.Var rname oldRecv) ->
  is_Interface (types.Underlying oldRecv) = false ->
  is_Some (concreteMethods prog !! types.addr (types.Obj meth)).
Proof.
  intros H Hrecv Hi. unfold makeWrapper in H. rewrite bind_get in H.
  apply build_Ok in H. destruct H as (w & H & _).
  do 8 (apply bind_Ok in H; destruct H as (? & ? & _ & H)).
  apply bind_Ok in H. destruct H as (r & f1 & Hr & H).
  apply lift_Ok in Hr. destruct Hr as [Hr ->].
  rewrite (recvType_Ok _ _ _ Hrecv) in Hr. injection Hr as <-.
  apply bind_Ok in H. destruct H as (c & f2 & Hc & _).
  assert (Hcm : exists callee,
             concreteMethod prog (types.Obj meth) = Ok callee).
  { destruct (types.Underlying oldRecv); try discriminate Hi;
      (apply bind_Ok in Hc; destruct Hc as (v & f3 & _ & Hc);
       apply bind_Ok in Hc; destruct Hc as (callee & f4 & Hl & _);
       exists callee; exact (proj1 (lift_Ok _ _ _ _ Hl))). }
  destruct Hcm as (callee & Hl). unfold concreteMethod in Hl.
  destruct (concreteMethods prog !! _) as [fn0|]; [eauto|discriminate Hl].
Qed.

(** X13.  No method is resolved without its function.  For a method
    declared on a type that is no interface, selected on a type that is
    no interface: when the program has no function for the method
    object, the resolution of the selection returns nothing, whether it
    is direct or by a promotion wrapper, and so makes no wrapper; when
    the resolution returns a function, the program has a function for
    the method object, and the function returned is that function or a
    new function of the program, the last one. *)
Theorem findMethod_concrete (meth : types.Selection) (prog : Program)
    (rname : string) (oldRecv : types.type) :
  types.recv (types.Obj meth) = Some (types.Var rname oldRecv) ->
  is_Interface (types.Underlying oldRecv) = false ->
  is_Interface (types.Underlying (types.Recv meth)) = false ->
  (concreteMethods prog !! types.addr (types.Obj meth) = None ->
   exists msg, findMethod meth prog = Panic msg)
  /\ (forall fn prog',
        findMethod meth prog = Ok (fn, prog') ->
        exists callee,
          concreteMethods prog !! types.addr (types.Obj meth) = Some callee
          /\ ((fn = callee /\ prog' = prog)
              \/ (fn = length (funcs prog)
                  /\ exists w, funcs prog' = funcs prog ++ [w]
                               /\ method w = Some meth))).
Proof.
  intros Hrecv Hi Hs.
  assert (Hok : forall fn prog',
             findMethod meth prog = Ok (fn, prog') ->
             exists callee,
               concreteMethods prog !! types.addr (types.Obj meth) = Some callee
               /\ ((fn = callee /\ prog' = prog)
                   \/ (fn = length (funcs prog)
                       /\ exists w, funcs prog' = funcs prog ++ [w]
                                    /\ method w = Some meth))).
  { intros fn prog' H. unfold findMethod in H.
    apply bind_Ok in H. destruct H as (recv & prog0 & Hr & H).
    apply lift_Ok in Hr. destruct Hr as [_ ->].
    destruct (_ || _).
    - destruct (makeWrapper_concrete _ _ _ _ _ _ _ H Hrecv Hi) as [callee Hc].
      exists callee. split; [exact Hc|]. right.
      destruct (makeWrapper_new _ _ _ _ _ H) as (w & -> & -> & Hm).
      split; [reflexivity|]. exists w. auto.
    - destruct (types.Underlying (types.Recv meth)); try discriminate Hs;
        (rewrite bind_get in H; apply lift_Ok in H; destruct H as [H ->];
         unfold concreteMethod in H;
         destruct (concreteMethods prog !! _) as [callee|];
         [|discriminate H]; injection H as <-;
         exists callee; split; [reflexivity|]; left; auto). }
  split; [|exact Hok].
  intros Hnone. destruct (findMethod meth prog) as [[fn prog']|msg] eqn:E.
  - destruct (Hok fn prog' eq_refl) as (callee & Hc & _).
    rewrite Hnone in Hc. discriminate Hc.
  - exists msg. reflexivity.
Qed.

(** The method [g], declared on [C], selected on [*C]: function 1 is
    its function, function 2 the wrapper. *)
Lemma findMethod_concrete_witness :
  exists prog',
    findMethod Ex_pC_g Ex.prog = Ok (2, prog')
    /\ concreteMethods Ex.prog !! 2%nat = Some 1%nat.
Proof.
  destruct (findMethod Ex_pC_g Ex.prog) as [[fn prog']|msg] eqn:E;
    [|vm_compute in E; discriminate E].
  destruct (proj2 (findMethod_concrete Ex_pC_g Ex.prog "c" Ex.C
                     eq_refl eq_refl eq_refl) fn prog' E)
    as (callee & Hc & [[Hfn _]|[Hfn _]]).
  - vm_compute in E. injection E as <- _. vm_compute in Hc.
    injection Hc as <-. discriminate Hfn.
  - exists prog'. rewrite Hfn. split; [reflexivity|]. reflexivity.
Defined.
(** ** The operands of the operations emitted *)

Lemma emit_inv i f r f' :
  emit i f = Ok (r, f') ->
  exists b blk,
    open_block f b blk
    /\ r = register b (length (Instrs blk)) i
    /\ f' = set_Blocks (<[b := BasicBlock_emit i blk]> (Blocks f)) f.
Proof.
  unfold emit. destruct (currentBlock f) as [b|] eqn:Ec; [|discriminate].
  destruct (Blocks f !! b) as [blk|] eqn:Eb; [|discriminate].
  intros [= <- <-]. exists b, blk. split; [split; assumption|auto].
Qed.

(** An operation emitted is the last instruction of its block, and the
    value returned is its register. *)
Lemma emit_BinOp_last op x y pos t f v f' :
  emit (BinOp op x y pos t) f = Ok (v, f') ->
  exists b n blk,
    Blocks f' !! b = Some blk
    /\ Instrs blk !! n = Some (BinOp op x y pos t)
    /\ length (Instrs blk) = S n
    /\ v = VRegister b n t.
Proof.
  intros H. apply emit_inv in H. destruct H as (b & blk & [_ Hb] & -> & ->).
  exists b, (length (Instrs blk)), (BasicBlock_emit (BinOp op x y pos t) blk).
  split; [|split; [|split]].
  - cbn. apply list_lookup_insert_eq. eapply lookup_lt_Some, Hb.
  - cbn. rewrite lookup_app_r, Nat.sub_diag by lia. reflexivity.
  - cbn. rewrite length_app. cbn. lia.
  - reflexivity.
Qed.

Lemma IsIdentical_Basic_r t k :
  types.IsIdentical t (types.Basic k) = true ->
  exists k', t = types.Basic k' /\ types.BasicKind_eqb k' k = true.
Proof. destruct t; cbn; try discriminate. eauto. Qed.

(** X14.  The operation that [emitArith] emits is well typed.  Whenever
    [emitArith] returns, the value returned is the register, of the
    result type, of the operation, which is the last instruction of its
    block; the left operand of the operation has a type identical to the
    result type; so has the right operand, for an operator that is no
    shift; and for a shift the right operand is of no basic type that is
    not unsigned. *)
Theorem emitArith_typed (op : token.Token) (x y : Value) (t : types.type)
    (pos : nat) (f : Function) (v : Value) (f' : Function) :
  emitArith op x y t pos f = Ok (v, f') ->
  exists b n blk x' y',
    Blocks f' !! b = Some blk
    /\ Instrs blk !! n = Some (BinOp op x' y' pos t)
    /\ length (Instrs blk) = S n
    /\ v = VRegister b n t
    /\ types.IsIdentical (Value_Type x') t = true
    /\ if is_shift op
       then forall k, types.Underlying (Value_Type y') = types.Basic k ->
                      types.IsUnsigned k = true
       else types.IsIdentical (Value_Type y') t = true.
Proof.
  intros H. unfold emitArith in H.
  apply bind_Ok in H. destruct H as ([x' y'] & f1 & Hxy & H).
  cbn [fst snd] in H.
  destruct (emit_BinOp_last _ _ _ _ _ _ _ _ H) as (b & n & blk & Hb & Hn & Hl & ->).
  exists b, n, blk, x', y'.
  split; [exact Hb|]. split; [exact Hn|]. split; [exact Hl|].
  split; [reflexivity|].
  assert (Hshift :
    (x0 <- emitConv x t ;;
     y0 <- match types.Underlying (Value_Type y) with
           | types.Basic b =>
               if negb (types.IsUnsigned b)
               then emitConv y (types.Typ types.KUint64)
               else ret y
           | _ => ret y
           end ;;
     ret (x0, y0)) f = Ok ((x', y'), f1) ->
    types.IsIdentical (Value_Type x') t = true
    /\ forall k, types.Underlying (Value_Type y') = types.Basic k ->
                 types.IsUnsigned k = true).
  { clear. intros H. apply bind_Ok in H. destruct H as (x0 & f2 & Hx & H).
    apply bind_Ok in H. destruct H as (y0 & f3 & Hy & H).
    injection H as <- <- <-.
    split; [exact (emitConv_type _ _ _ _ _ Hx)|].
    assert (Hconv : emitConv y (types.Typ types.KUint64) f2 = Ok (y0, f3) ->
                    forall k, types.Underlying (Value_Type y0) = types.Basic k ->
                              types.IsUnsigned k = true).
    { intros Hc k Hk. apply emitConv_type in Hc.
      apply IsIdentical_Basic_r in Hc. destruct Hc as (k' & E & Hk').
      rewrite E in Hk. cbn in Hk. injection Hk as <-.
      destruct k'; try discriminate Hk'; reflexivity. }
    destruct (types.Underlying (Value_Type y)) as [kb| | | | | | | | | | ] eqn:Eu;
      try (injection Hy as <- <-; intros k Hk; rewrite Eu in Hk;
           discriminate Hk).
    destruct (types.IsUnsigned kb) eqn:Ek; cbn [negb] in Hy.
    - injection Hy as <- <-. intros k Hk. rewrite Eu in Hk.
      injection Hk as <-. exact Ek.
    - exact (Hconv Hy). }
  assert (Harith :
    (x0 <- emitConv x t ;; y0 <- emitConv y t ;; ret (x0, y0)) f
      = Ok ((x', y'), f1) ->
    types.IsIdentical (Value_Type x') t = true
    /\ types.IsIdentical (Value_Type y') t = true).
  { clear. intros H. apply bind_Ok in H. destruct H as (x0 & f2 & Hx & H).
    apply bind_Ok in H. destruct H as (y0 & f3 & Hy & H).
    injection H as <- <- <-.
    split; [exact (emitConv_type _ _ _ _ _ Hx)|exact (emitConv_type _ _ _ _ _ Hy)]. }
  destruct op; try discriminate Hxy; cbn [is_shift];
    first [exact (Hshift Hxy) | exact (Harith Hxy)].
Qed.

(** A shift of a [uint] by an [int]: the count is converted. *)
Lemma emitArith_typed_witness :
  exists v f',
    emitArith token.SHL Ex_u Ex.count Ex.tUint 0 Ex.fn = Ok (v, f')
    /\ Value_Type v = Ex.tUint.
Proof.
  destruct (emitArith token.SHL Ex_u Ex.count Ex.tUint 0 Ex.fn)
    as [[v f']|msg] eqn:E; [|vm_compute in E; discriminate E].
  destruct (emitArith_typed _ _ _ _ _ _ _ _ E)
    as (b & n & blk & x' & y' & _ & _ & _ & -> & _).
  exists (VRegister b n Ex.tUint), f'. split; reflexivity.
Defined.

Lemma emitCompare_operands op x y pos f v f' :
  (xy <- (if types.IsIdentical (types.Underlying (Value_Type x))
                               (types.Underlying (Value_Type y))
          then ret (x, y)
          else match types.Underlying (Value_Type x) with
          | types.Interface _ =>
              y <- emitConv y (Value_Type x) ;; ret (x, y)
          | _ =>
          match types.Underlying (Value_Type y) with
          | types.Interface _ =>
              x <- emitConv x (Value_Type y) ;; ret (x, y)
          | _ =>
          match x with
          | VConst _ _ =>
              x <- emitConv x (Value_Type y) ;; ret (x, y)
          | _ =>
          match y with
          | VConst _ _ =>
              y <- emitConv y (Value_Type x) ;; ret (x, y)
          | _ => ret (x, y)
          end end end end) ;;
   emit (BinOp op (fst xy) (snd xy) pos tBool)) f = Ok (v, f') ->
  exists b n blk x' y',
    Blocks f' !! b = Some blk
    /\ Instrs blk !! n = Some (BinOp op x' y' pos tBool)
    /\ length (Instrs blk) = S n
    /\ v = VRegister b n tBool
    /\ ((x' = x /\ y' = y)
        \/ (x' = x
            /\ types.IsIdentical (Value_Type y') (Value_Type x) = true)
        \/ (y' = y
            /\ types.IsIdentical (Value_Type x') (Value_Type y) = true)).
Proof.
  intros H. apply bind_Ok in H. destruct H as ([x' y'] & f1 & Hxy & H).
  cbn [fst snd] in H.
  destruct (emit_BinOp_last _ _ _ _ _ _ _ _ H)
    as (b & n & blk & Hb & Hn & Hl & ->).
  exists b, n, blk, x', y'.
  split; [exact Hb|]. split; [exact Hn|]. split; [exact Hl|].
  split; [reflexivity|].
  assert (Hnone : ret (x, y) f = Ok ((x', y'), f1) -> x' = x /\ y' = y).
  { intros [= <- <- _]. auto. }
  assert (Hright :
    (y0 <- emitConv y (Value_Type x) ;; ret (x, y0)) f = Ok ((x', y'), f1) ->
    x' = x /\ types.IsIdentical (Value_Type y') (Value_Type x) = true).
  { intros Hc. apply bind_Ok in Hc. destruct Hc as (y0 & f2 & Hy & Hc).
    injection Hc as <- <- <-. split; [reflexivity|].
    exact (emitConv_type _ _ _ _ _ Hy). }
  assert (Hleft :
    (x0 <- emitConv x (Value_Type y) ;; ret (x0, y)) f = Ok ((x', y'), f1) ->
    y' = y /\ types.IsIdentical (Value_Type x') (Value_Type y) = true).
  { intros Hc. apply bind_Ok in Hc. destruct Hc as (x0 & f2 & Hx & Hc).
    injection Hc as <- <- <-. split; [reflexivity|].
    exact (emitConv_type _ _ _ _ _ Hx). }
  destruct (types.IsIdentical _ _); [left; exact (Hnone Hxy)|].
  destruct (types.Underlying (Value_Type x));
    try (right; left; exact (Hright Hxy));
    (destruct (types.Underlying (Value_Type y));
     try (right; right; exact (Hleft Hxy));
     (destruct x; try (right; right; exact (Hleft Hxy));
      destruct y; try (right; left; exact (Hright Hxy));
      left; exact (Hnone Hxy))).
Qed.

(** X15.  A comparison is boolean, and converts at most one operand.
    Whenever [emitCompare] returns, the value returned is of a boolean
    type: it is the right operand itself, and nothing was emitted, which
    happens only for an equality whose left operand is the shared true
    constant; or it is the register of a comparison instruction of
    boolean type, the last of its block, of which one operand is the
    operand given and the other is the operand given or a value of a
    type identical to the type of the first. *)
Theorem emitCompare_boolean (op : token.Token) (x y : Value) (pos : nat)
    (f : Function) (v : Value) (f' : Function) :
  emitCompare op x y pos f = Ok (v, f') ->
  is_boolean (Value_Type v) = true
  /\ ((v = y /\ f' = f /\ Value_same x vTrue = true /\ is_EQL op = true)
      \/ exists b n blk x' y',
           Blocks f' !! b = Some blk
           /\ Instrs blk !! n = Some (BinOp op x' y' pos tBool)
           /\ length (Instrs blk) = S n
           /\ v = VRegister b n tBool
           /\ ((x' = x /\ y' = y)
               \/ (x' = x
                   /\ types.IsIdentical (Value_Type y') (Value_Type x) = true)
               \/ (y' = y
                   /\ types.IsIdentical (Value_Type x') (Value_Type y) = true))).
Proof.
  unfold emitCompare. cbv zeta.
  assert (Hs : Value_same x vTrue
               && match op with token.EQL => true | _ => false end
               && match types.Underlying (Value_Type y) with
                  | types.Basic k => types.IsBoolean k
                  | _ => false
                  end
               = Value_same x vTrue && is_EQL op && is_boolean (Value_Type y))
    by reflexivity.
  rewrite Hs. clear Hs.
  destruct (Value_same x vTrue && is_EQL op && is_boolean (Value_Type y))
    eqn:Eshort.
  - intros [= <- <-].
    apply andb_prop in Eshort. destruct Eshort as [Eshort Hbool].
    apply andb_prop in Eshort. destruct Eshort as [Hsame Hop].
    split; [exact Hbool|]. left. auto.
  - intros H. apply emitCompare_operands in H.
    destruct H as (b & n & blk & x' & y' & Hb & Hn & Hl & -> & Hxy).
    split; [reflexivity|]. right. exists b, n, blk, x', y'. auto.
Qed.

(** The comparison of an interface with a value of type [MyInt]. *)
Lemma emitCompare_boolean_witness :
  exists v f',
    emitCompare token.EQL Ex_i Ex_k 0 Ex.fn = Ok (v, f')
    /\ is_boolean (Value_Type v) = true.
Proof.
  destruct (emitCompare token.EQL Ex_i Ex_k 0 Ex.fn)
    as [[v f']|msg] eqn:E; [|vm_compute in E; discriminate E].
  exists v, f'. split; [reflexivity|].
  exact (proj1 (emitCompare_boolean _ _ _ _ _ _ _ E)).
Defined.
